(** * SafeRoute local SOS pipeline: user app, gateway retry queue and command-service resolver

    A shallow embedding of the programs of [local-sos] and of the compass
    of the PWA:

    - the government backend ([government-backend/index.js]): the [/sos]
      handler with its payload parser, the haversine nearest-base scan, the
      capacity classifier, the ack string and the broadcast; [/events];
    - the SMS gateway (the Express service with [/sms-receiver],
      [/messages] and [processQueue]): the message log, the retry queue
      and its processor;
    - the government website: [colorForCapacity];
    - the user app: [directionFromHeading], the payload of [sendSOS] and
      what the app does with the gateway's answer;
    - the compass screen ([parseDistanceEstimate], the manual entries) and
      the simulated heading of [usePeerCompass].

    JavaScript numbers are IEEE-754 binary64 values; they are modelled by the
    standard library's [spec_float] at precision 53 and maximal exponent 1024,
    so that rounding, NaN and the infinities behave as in the source.
    Quantities the program only obtains by counting (array lengths, record
    ids, attempt counters, millisecond delays) are exact integers far below
    2^53 and are kept in [Z].  Strings are sequences of 8-bit characters, one
    per UTF-16 code unit below 256. *)

From Stdlib Require Import ZArith Zpower Lia Bool Ascii String.
From Stdlib Require Import Floats.SpecFloat.
From Stdlib Require Import DecimalString.
From stdpp Require Import base option strings list gmap.

#[local] Open Scope string_scope.
#[local] Open Scope Z_scope.
#[local] Open Scope list_scope.

(* ================================================================== *)
(** * The JavaScript built-ins the two services call *)
(* ================================================================== *)

Module Js.

(** ** Numbers *)

Definition Number : Type := spec_float.

Definition prec : Z := 53.
Definition emax : Z := 1024.

Definition NaN : Number := S754_nan.
Definition Infinity : Number := S754_infinity false.
Definition pos_zero : Number := S754_zero false.

Definition add : Number -> Number -> Number := SFadd prec emax.
Definition sub : Number -> Number -> Number := SFsub prec emax.
Definition mul : Number -> Number -> Number := SFmul prec emax.
Definition div : Number -> Number -> Number := SFdiv prec emax.
Definition Math_sqrt : Number -> Number := SFsqrt prec emax.
Definition neg : Number -> Number := SFopp.

(** [x < y] and [x <= y]; both are false as soon as one side is NaN. *)
Definition lt : Number -> Number -> bool := SFltb.
Definition le : Number -> Number -> bool := SFleb.

(** The Number nearest to an integer (exact below 2^53). *)
Definition of_Z (z : Z) : Number := binary_normalize prec emax z 0 false.

(** The Number denoted by the decimal literal [m / 10^k], e.g.
    [decimal 2 1] for [0.2] and [decimal 128296 4] for [12.8296]. *)
Definition decimal (m : Z) (k : N) : Number :=
  match k with
  | N0 => of_Z m
  | Npos p => div (of_Z m) (of_Z (10 ^ Zpos p))
  end.

Definition is_nan (x : Number) : bool :=
  match x with S754_nan => true | _ => false end.

Definition is_finite (x : Number) : bool :=
  match x with S754_zero _ | S754_finite _ _ _ => true | _ => false end.

(** ToBoolean on a Number: NaN, +0 and -0 are falsy. *)
Definition truthy (x : Number) : bool :=
  match x with S754_nan | S754_zero _ => false | _ => true end.

(** [x || d] on Numbers. *)
Definition or_default (x d : Number) : Number := if truthy x then x else d.

(** [Math.PI], the double 0x1.921fb54442d18p+1. *)
Definition Math_PI : Number := S754_finite false 7074237752028440 (-51).

(** [Math.ceil]. *)
Definition Math_ceil (x : Number) : Number :=
  match x with
  | S754_finite s m e =>
      if 0 <=? e then x
      else
        let p := 2 ^ (- e) in
        if s then
          (* -(m / 2^-e) rounded up: minus the floor of the magnitude *)
          let q := Zpos m / p in
          if q =? 0 then S754_zero true else of_Z (- q)
        else of_Z ((Zpos m + p - 1) / p)
  | _ => x
  end.

(** The functions ECMAScript leaves implementation-approximated
    ([Math.sin], [Math.cos], [Math.atan2]) and the general Number-to-string
    conversion, which [toFixed] falls back to for finite values of
    magnitude at least 10^21. *)
Class Host : Type := {
  Math_sin : Number -> Number;
  Math_cos : Number -> Number;
  Math_atan2 : Number -> Number -> Number;
  Number_toString_finite : Number -> string;
}.

(** ** Strings *)

Definition char_eqb (a b : ascii) : bool := Ascii.eqb a b.

(** [s.includes(c)] for a one-character [c]. *)
Fixpoint includes (c : ascii) (s : string) : bool :=
  match s with
  | EmptyString => false
  | String a s' => if char_eqb a c then true else includes c s'
  end.

(** [s.split(c)] for a one-character separator: never empty, and
    [''.split(c)] is [['']]. *)
Fixpoint split (c : ascii) (s : string) : list string :=
  match s with
  | EmptyString => [EmptyString]
  | String a s' =>
      if char_eqb a c then EmptyString :: split c s'
      else match split c s' with
           | w :: ws => String a w :: ws
           | [] => [String a EmptyString]
           end
  end.

(** ToBoolean on a possibly undefined string: undefined and [''] are falsy. *)
Definition str_or_default (v : option string) (d : string) : string :=
  match v with
  | Some (String a s) => String a s
  | _ => d
  end.

(** ** [parseFloat] *)

Definition is_digit (a : ascii) : bool :=
  let n := Z.of_N (N_of_ascii a) in (48 <=? n) && (n <=? 57).

Definition digit_val (a : ascii) : Z := Z.of_N (N_of_ascii a) - 48.

(** WhiteSpace and LineTerminator code units below 256. *)
Definition is_space (a : ascii) : bool :=
  let n := Z.of_N (N_of_ascii a) in
  ((9 <=? n) && (n <=? 13)) || (n =? 32) || (n =? 160).

Fixpoint trim_start (s : string) : string :=
  match s with
  | String a s' => if is_space a then trim_start s' else s
  | EmptyString => s
  end.

(** Reads a run of decimal digits: their value appended to [acc], how many
    there were, and the rest of the string. *)
Fixpoint read_digits (s : string) (acc : Z) (n : Z) : Z * Z * string :=
  match s with
  | String a s' =>
      if is_digit a then read_digits s' (10 * acc + digit_val a) (n + 1)
      else (acc, n, s)
  | EmptyString => (acc, n, s)
  end.

(** ExponentPart: [e] or [E], an optional sign and at least one digit;
    0 when the text that follows is not an exponent part. *)
Definition read_exponent (s : string) : Z :=
  match s with
  | String c s1 =>
      if char_eqb c "e" || char_eqb c "E" then
        let '(sgn, s2) :=
          match s1 with
          | String "+" s2 => (1, s2)
          | String "-" s2 => (-1, s2)
          | _ => (1, s1)
          end in
        let '(v, n, _) := read_digits s2 0 0 in
        if n =? 0 then 0 else sgn * v
      else 0
  | EmptyString => 0
  end.

(** The Number nearest to [m * 10^e] for [m > 0]. *)
Definition of_scientific (m : positive) (e : Z) : Number :=
  match e with
  | Zneg p => div (S754_finite false m 0) (S754_finite false (10 ^ p)%positive 0)
  | _ => of_Z (Zpos m * 10 ^ e)
  end.

Definition magnitude (m e : Z) : Number :=
  match m with
  | Zpos p => of_scientific p e
  | _ => pos_zero
  end.

Fixpoint starts_with (p s : string) : bool :=
  match p, s with
  | EmptyString, _ => true
  | String a p', String b s' => char_eqb a b && starts_with p' s'
  | _, EmptyString => false
  end.

(** StrUnsignedDecimalLiteral: the longest prefix that is one, as a Number;
    NaN when no prefix is. *)
Definition parse_unsigned (s : string) : Number :=
  if starts_with "Infinity" s then Infinity
  else
    let '(ip, n1, r1) := read_digits s 0 0 in
    match r1 with
    | String "." r2 =>
        let '(m, n2, r3) := read_digits r2 ip 0 in
        if (n1 =? 0) && (n2 =? 0) then NaN
        else magnitude m (read_exponent r3 - n2)
    | _ =>
        if n1 =? 0 then NaN else magnitude ip (read_exponent r1)
    end.

Definition parseFloat_string (s : string) : Number :=
  match trim_start s with
  | String "-" s' => neg (parse_unsigned s')
  | String "+" s' => parse_unsigned s'
  | s' => parse_unsigned s'
  end.

(** [parseFloat(v)] where [v] may be undefined: the argument goes through
    ToString first, and ["undefined"] has no numeric prefix. *)
Definition parseFloat (v : option string) : Number :=
  match v with
  | Some s => parseFloat_string s
  | None => parseFloat_string "undefined"
  end.

(** ** [Number.prototype.toFixed(2)] *)

Definition digits_of (n : Z) : string := NilZero.string_of_uint (N.to_uint (Z.to_N n)).

Definition digit_char (d : Z) : ascii := ascii_of_N (Z.to_N (48 + d)).

(** The integer [n] for which [n / 100 - m * 2^e] is closest to zero, the
    larger one on a tie. *)
Definition hundredths (m : positive) (e : Z) : Z :=
  if 0 <=? e then 100 * Zpos m * 2 ^ e
  else (200 * Zpos m + 2 ^ (- e)) / (2 * 2 ^ (- e)).

(** Whether the magnitude [m * 2^e] is below 10^21. *)
Definition below_1e21 (m : positive) (e : Z) : bool :=
  if 0 <=? e then Zpos m * 2 ^ e <? 10 ^ 21
  else Zpos m <? 10 ^ 21 * 2 ^ (- e).

Definition fixed2 (n : Z) : string :=
  digits_of (n / 100) +:+ "." +:+
  String (digit_char ((n / 10) mod 10)) (String (digit_char (n mod 10)) "").

Definition toFixed2 `{Host} (x : Number) : string :=
  match x with
  | S754_nan => "NaN"
  | S754_infinity false => "Infinity"
  | S754_infinity true => "-Infinity"
  | S754_zero _ => "0.00"
  | S754_finite s m e =>
      if below_1e21 m e then
        (if s then "-" else "") +:+ fixed2 (hundredths m e)
      else
        (if s then "-" else "") +:+ Number_toString_finite (S754_finite false m e)
  end.

End Js.

(* ================================================================== *)
(** * A host built from truncated power series *)
(* ================================================================== *)

(** ECMAScript fixes [Math.sin], [Math.cos] and [Math.atan2] only at NaN,
    the zeros and the infinities and leaves the other results
    implementation-approximated.  [SeriesHost] returns the prescribed values
    at the special arguments and evaluates truncated power series in double
    arithmetic elsewhere; it is the host the model is run on below. *)
Module SeriesHost.
Import Js.

Definition one : Number := of_Z 1.
Definition ratio (a b : Z) : Number := div (of_Z a) (of_Z b).

(** [c0 + x2 * (c1 + x2 * (...))], Horner's rule. *)
Fixpoint horner (cs : list Number) (x2 : Number) : Number :=
  match cs with
  | [] => pos_zero
  | [c] => c
  | c :: cs' => add c (mul x2 (horner cs' x2))
  end.

Definition sin (x : Number) : Number :=
  match x with
  | S754_nan | S754_infinity _ => NaN
  | S754_zero _ => x
  | S754_finite _ _ _ =>
      mul x (horner [one; ratio (-1) 6; ratio 1 120; ratio (-1) 5040;
                     ratio 1 362880; ratio (-1) 39916800;
                     ratio 1 6227020800] (mul x x))
  end.

Definition cos (x : Number) : Number :=
  match x with
  | S754_nan | S754_infinity _ => NaN
  | S754_zero _ => one
  | S754_finite _ _ _ =>
      horner [one; ratio (-1) 2; ratio 1 24; ratio (-1) 720;
              ratio 1 40320; ratio (-1) 3628800; ratio 1 479001600;
              ratio (-1) 87178291200] (mul x x)
  end.

Definition sign_bit (x : Number) : bool :=
  match x with
  | S754_zero s | S754_infinity s | S754_finite s _ _ => s
  | S754_nan => false
  end.

Definition with_sign (s : bool) (x : Number) : Number := if s then neg x else x.

Definition half_pi : Number := div Math_PI (of_Z 2).

(** [atan t = 2 * atan (t / (1 + sqrt (1 + t^2)))] *)
Definition halve (t : Number) : Number :=
  div t (add one (Math_sqrt (add one (mul t t)))).

(** The arc tangent of [t] for [0 <= t]: the argument is brought below
    [tan (pi/16)] by two halvings of the angle before the series is summed. *)
Definition atan_pos (t : Number) : Number :=
  let series u :=
    mul u (horner [one; ratio (-1) 3; ratio 1 5; ratio (-1) 7; ratio 1 9;
                   ratio (-1) 11; ratio 1 13] (mul u u)) in
  let small u := mul (of_Z 4) (series (halve (halve u))) in
  if le t one then small t else sub half_pi (small (div one t)).

Definition atan2 (y x : Number) : Number :=
  match y, x with
  | S754_nan, _ | _, S754_nan => NaN
  | S754_zero sy, _ =>
      with_sign sy (if sign_bit x then Math_PI else pos_zero)
  | S754_infinity sy, S754_infinity sx =>
      with_sign sy (if sx then mul (of_Z 3) (div Math_PI (of_Z 4))
                    else div Math_PI (of_Z 4))
  | S754_infinity sy, _ => with_sign sy half_pi
  | S754_finite sy _ _, S754_infinity sx =>
      with_sign sy (if sx then Math_PI else pos_zero)
  | S754_finite sy _ _, S754_zero _ => with_sign sy half_pi
  | S754_finite sy _ _, S754_finite sx _ _ =>
      let a := atan_pos (div (SFabs y) (SFabs x)) in
      with_sign sy (if sx then sub Math_PI a else a)
  end.

(** Number::toString for integers of at least 22 digits: the shortest
    digit string [s] (of length [k]) with [s * 10^(n-k)] rounding to the
    number, written in exponent notation. *)
Definition digit_count (x : Z) : Z := Z.of_nat (String.length (digits_of x)).

Definition candidates (x k : Z) : list (Z * Z) :=
  let d := digit_count x in
  let p := 10 ^ (d - k) in
  let lo := x / p in
  let hi := if lo + 1 =? 10 ^ k then (10 ^ (k - 1), d + 1) else (lo + 1, d) in
  let ok c := match SFcompare (of_Z (fst c * 10 ^ (snd c - k))) (of_Z x) with
              | Some Eq => true | _ => false end in
  let near c := Z.abs (fst c * 10 ^ (snd c - k) - x) in
  let both := if near hi <? near (lo, d) then [hi; (lo, d)] else [(lo, d); hi] in
  filter (fun c => ok c = true) both.

Fixpoint shortest (fuel : nat) (x k : Z) : Z * Z * Z :=
  match fuel with
  | O => (x, digit_count x, digit_count x)
  | S fuel' =>
      match candidates x k with
      | (s, n) :: _ => (s, k, n)
      | [] => shortest fuel' x (k + 1)
      end
  end.

Definition exponent_notation (x : Z) : string :=
  let '(s, k, n) := shortest 17 x 1 in
  match digits_of s with
  | String d EmptyString => String d "e+" +:+ digits_of (n - 1)
  | String d ds => String d ("." +:+ ds) +:+ "e+" +:+ digits_of (n - 1)
  | EmptyString => EmptyString
  end.

Definition toString_finite (x : Number) : string :=
  match x with
  | S754_finite _ m e => exponent_notation (Zpos m * 2 ^ e)
  | _ => "0"
  end.

#[export] Instance host : Host := {|
  Math_sin := sin;
  Math_cos := cos;
  Math_atan2 := atan2;
  Number_toString_finite := toString_finite;
|}.

End SeriesHost.

(* ================================================================== *)
(** * The government backend ([government-backend/index.js]) *)
(* ================================================================== *)

Module Backend.
Import Js.

(** ** Tables *)

(** A row of [safe_bases]; [capacity] and [filled] are INTEGER columns and
    reach JavaScript as the Numbers [of_Z capacity] and [of_Z filled]. *)
Record SafeBase : Type := {
  base_id : string;
  base_name : string;
  base_lat : Number;
  base_lon : Number;
  base_capacity : Z;
  base_filled : Z;
}.

(** A row of [sos_events] (its autoincrement id left out). *)
Record SosEvent : Type := {
  ev_device_id : string;
  ev_lat : Number;
  ev_lon : Number;
  ev_type : string;
  ev_time : string;
  ev_status : string;
}.

(** A row of [sms_logs]: the raw message and [received_at]. *)
Record SmsLog : Type := {
  log_raw_message : string;
  log_received_at : Z;
}.

Record Db : Type := {
  safe_bases : list SafeBase;
  sos_events : list SosEvent;
  sms_logs : list SmsLog;
}.

(** The two bases preloaded into an empty [safe_bases]. *)
Definition BASE_SHOLI : SafeBase :=
  {| base_id := "BASE_SHOLI"; base_name := "Sholinganallur Safe Base";
     base_lat := decimal 128296 4; base_lon := decimal 802270 4;
     base_capacity := 100; base_filled := 10 |}.

Definition BASE_SATHYA : SafeBase :=
  {| base_id := "BASE_SATHYA"; base_name := "Sathyabama University";
     base_lat := decimal 130520 4; base_lon := decimal 802043 4;
     base_capacity := 80; base_filled := 70 |}.

Definition preloaded : list SafeBase := [BASE_SHOLI; BASE_SATHYA].

(** ** Utility: haversine *)

Section Resolver.
Context `{Host}.

Definition toRad (v : Number) : Number := div (mul v Math_PI) (of_Z 180).

Definition haversine (lat1 lon1 lat2 lon2 : Number) : Number :=
  let R := of_Z 6371 in
  let dLat := toRad (sub lat2 lat1) in
  let dLon := toRad (sub lon2 lon1) in
  let a :=
    add (mul (Math_sin (div dLat (of_Z 2))) (Math_sin (div dLat (of_Z 2))))
        (mul (mul (mul (Math_cos (toRad lat1)) (Math_cos (toRad lat2)))
                  (Math_sin (div dLon (of_Z 2))))
             (Math_sin (div dLon (of_Z 2)))) in
  let c := mul (of_Z 2)
               (Math_atan2 (Math_sqrt a) (Math_sqrt (sub (of_Z 1) a))) in
  mul R c.

(** ** Parsing the payload

    [SOS|ID=HX001|LAT=12.8721|LON=80.2254|DIR=NE|TYPE=TSUNAMI|TIME=ISO] *)

(** [payload[k] = v] on an object created by [{}]: an own property,
    except for the key [__proto__], whose setter ignores a string. *)
Definition assign (k v : string) (payload : gmap string string) : gmap string string :=
  if decide (k = "__proto__") then payload else <[k := v]> payload.

(** One turn of [for (const p of parts)] on the object declared by
    [const payload: any = {}] (the type annotation adds nothing). *)
Definition parse_part (payload : gmap string string) (p : string) : gmap string string :=
  if includes "=" p then
    match split "=" p with
    | k :: v :: _ => assign k v payload
    | _ => payload
    end
  else assign "typeFlag" p payload.

Definition parse_parts (raw : string) : gmap string string :=
  foldl parse_part ∅ (split "|" raw).

Record ParsedEmergency : Type := {
  deviceId : string;
  lat : Number;
  lon : Number;
  type : string;
  time : string;
}.

(** [now_iso] is [new Date().toISOString()] at the time of the call. *)
Definition parse (raw : string) (now_iso : string) : ParsedEmergency :=
  let payload := parse_parts raw in
  {| deviceId := str_or_default (payload !! "ID") "UNKNOWN";
     lat := or_default (parseFloat (payload !! "LAT")) pos_zero;
     lon := or_default (parseFloat (payload !! "LON")) pos_zero;
     type := str_or_default (payload !! "TYPE") "UNKNOWN";
     time := str_or_default (payload !! "TIME") now_iso |}.

(** ** Determine nearest safe base *)

(** One turn of [for (const b of bases)] on [(nearest, minD)]. *)
Definition scan_step (lat lon : Number) (acc : option SafeBase * Number)
    (b : SafeBase) : option SafeBase * Number :=
  let d := haversine lat lon (base_lat b) (base_lon b) in
  if lt d (snd acc) then (Some b, d) else acc.

Definition nearest_scan (lat lon : Number) (bases : list SafeBase)
    : option SafeBase * Number :=
  foldl (scan_step lat lon) (None, Infinity) bases.

(** ** Capacity status *)

Inductive Capacity : Type := AVAILABLE | NEARLY_FULL | FULL.

Definition capacity_text (c : Capacity) : string :=
  match c with
  | AVAILABLE => "AVAILABLE"
  | NEARLY_FULL => "NEARLY_FULL"
  | FULL => "FULL"
  end.

(** The three-way test on the Numbers [capacity] and [filled]. *)
Definition classify (capacity filled : Number) : Capacity :=
  let free := sub capacity filled in
  if le free pos_zero then FULL
  else if lt free (Math_ceil (mul capacity (decimal 2 1))) then NEARLY_FULL
  else AVAILABLE.

Definition capacityStatus (nearest : option SafeBase) : Capacity :=
  match nearest with
  | Some b => classify (of_Z (base_capacity b)) (of_Z (base_filled b))
  | None => AVAILABLE
  end.

(** ** The ack *)

Definition ack_text (nearest : option SafeBase) (minD : Number)
    (status : Capacity) : string :=
  "ACK|SAFEBASE=" +:+ match nearest with Some b => base_id b | None => "NONE" end
  +:+ "|DIST=" +:+ toFixed2 minD +:+ "KM|CAPACITY=" +:+ capacity_text status.

(** The ack computed for a parsed alert against a directory. *)
Definition resolve (e : ParsedEmergency) (bases : list SafeBase) : string :=
  let r := nearest_scan (lat e) (lon e) bases in
  ack_text (fst r) (snd r) (capacityStatus (fst r)).

(** ** The [/sos] handler *)

(** The WebSocket frame broadcast for a resolved alert ([type: 'sos']). *)
Record Frame : Type := {
  f_deviceId : string;
  f_lat : Number;
  f_lon : Number;
  f_emergency : string;
  f_time : string;
  f_ack : string;
}.

(** What one request sees of its surroundings: the clock, and whether each
    awaited database call rejects. *)
Record Env : Type := {
  Date_now : Z;
  now_iso : string;
  log_insert_rejects : bool;
  event_insert_rejects : bool;
  select_bases_rejects : bool;
}.

(** The database, the connected sockets (whether each is OPEN) and the
    frames sent so far, each with the index of its socket. *)
Record World : Type := {
  db : Db;
  clients : list bool;
  sent : list (nat * Frame);
}.

Inductive Outcome (A : Type) : Type :=
| Returned (a : A)
| Thrown.
Arguments Returned {A} a.
Arguments Thrown {A}.

(** Computations that read and write the world and may throw; what was
    written before a throw stays written. *)
Definition M (A : Type) : Type := World -> Outcome A * World.

Definition ret {A} (a : A) : M A := fun w => (Returned a, w).

Definition bind {A B} (m : M A) (k : A -> M B) : M B :=
  fun w => match m w with
           | (Returned a, w') => k a w'
           | (Thrown, w') => (Thrown, w')
           end.

Notation "'let*' x := m 'in' k" := (bind m (fun x => k))
  (at level 10, x name, m at level 200, k at level 200).

Definition throw {A} : M A := fun w => (Thrown, w).

Definition modify (f : World -> World) : M unit := fun w => (Returned tt, f w).

Definition with_db (f : Db -> Db) (w : World) : World :=
  {| db := f (db w); clients := clients w; sent := sent w |}.

Definition add_log (raw : string) (now : Z) (d : Db) : Db :=
  {| safe_bases := safe_bases d; sos_events := sos_events d;
     sms_logs := sms_logs d ++ [{| log_raw_message := raw; log_received_at := now |}] |}.

Definition add_event (e : ParsedEmergency) (d : Db) : Db :=
  {| safe_bases := safe_bases d;
     sos_events := sos_events d ++
       [{| ev_device_id := deviceId e; ev_lat := lat e; ev_lon := lon e;
           ev_type := type e; ev_time := time e; ev_status := "received" |}];
     sms_logs := sms_logs d |}.

(** One frame to every socket that is OPEN. *)
Definition deliver (f : Frame) (w : World) : World :=
  {| db := db w; clients := clients w;
     sent := sent w ++
       omap (fun c : nat * bool => if snd c then Some (fst c, f) else None)
            (imap (fun i o => (i, o)) (clients w)) |}.

(** [await db.run('INSERT INTO sms_logs ...', raw, Date.now())] *)
Definition insert_log (env : Env) (raw : string) : M unit :=
  if log_insert_rejects env then throw
  else modify (with_db (add_log raw (Date_now env))).

(** [await db.run('INSERT INTO sos_events ...', ..., 'received')] *)
Definition insert_event (env : Env) (e : ParsedEmergency) : M unit :=
  if event_insert_rejects env then throw
  else modify (with_db (add_event e)).

(** [await db.all('SELECT * FROM safe_bases')] *)
Definition select_bases (env : Env) : M (list SafeBase) :=
  if select_bases_rejects env then throw
  else fun w => (Returned (safe_bases (db w)), w).

(** [wss.clients.forEach(...)] *)
Definition broadcast (f : Frame) : M unit := modify (deliver f).

Inductive Response : Type :=
| Ok200 (ack : string)
| BadRequest400 (error : string)
| Internal500 (error : string).

(** [const event = { type: 'sos', deviceId, lat, lon, emergency: type, time, ack }] *)
Definition frame_of (e : ParsedEmergency) (ack : string) : Frame :=
  {| f_deviceId := deviceId e; f_lat := lat e; f_lon := lon e;
     f_emergency := type e; f_time := time e; f_ack := ack |}.

(** The body of the [try]; [raw] is [req.body.raw], [None] when absent. *)
Definition sos_try (env : Env) (raw : option string) : M Response :=
  match raw with
  | None | Some EmptyString => ret (BadRequest400 "missing raw payload")
  | Some raw =>
      let* _ := insert_log env raw in
      let e := parse raw (now_iso env) in
      let* _ := insert_event env e in
      let* bases := select_bases env in
      let ack := resolve e bases in
      let* _ := broadcast (frame_of e ack) in
      ret (Ok200 ack)
  end.

(** [app.post('/sos', ...)]: the [try] with its [catch]. *)
Definition sos (env : Env) (raw : option string) (w : World) : Response * World :=
  match sos_try env raw w with
  | (Returned r, w') => (r, w')
  | (Thrown, w') => (Internal500 "internal", w')
  end.

End Resolver.

(** ** The website's colour for a base ([colorForCapacity]) *)

Inductive Colour : Type := red | yellow | green.

Definition colorForCapacity (capacity filled : Number) : Colour :=
  let free := sub capacity filled in
  if le free pos_zero then red
  else if lt free (Math_ceil (mul capacity (decimal 2 1))) then yellow
  else green.

End Backend.

(* ================================================================== *)
(** * The SMS gateway ([/sms-receiver] and [processQueue]) *)
(* ================================================================== *)

Module Gateway.

(** ** In-memory SMSC log and retry queue *)

Inductive Status : Type := received | forwarded | queued.

(** An element of [messages]; [msg_ack] is [None] until [rec.ack] is set. *)
Record Message : Type := {
  msg_id : Z;
  msg_raw : string;
  msg_receivedAt : Z;
  msg_status : Status;
  msg_ack : option string;
}.

(** An element of [retryQueue]. *)
Record RetryItem : Type := {
  item_id : Z;
  item_payload : string;
  item_attempts : Z;
  item_lastError : string;
}.

(** How an [axios.post] to the backend settles: fulfilled with
    [r.data?.ack] ([None] when it is null or undefined), or rejected
    (timeout, connection error, non-2xx response) with [err.message]. *)
Inductive Settled : Type :=
| Fulfilled (ack : option string)
| Rejected (message : string).

(** Where [processQueue] is suspended: not running, at its [axios.post],
    or at the [setTimeout] of its backoff. *)
Inductive Task : Type :=
| Idle
| AwaitingPost
| AwaitingTimer (delay : Z).

(** A [/sms-receiver] handler suspended at its [axios.post]: the request
    it answers, its [rec] (the element of [messages] at this index) and
    its [payload]. *)
Record Handler : Type := {
  h_req : nat;
  h_rec : nat;
  h_payload : string;
}.

Record State : Type := {
  messages : list Message;
  retryQueue : list RetryItem;
  isProcessingQueue : bool;
  task : Task;
  handlers : list Handler;
}.

Definition initial : State :=
  {| messages := []; retryQueue := []; isProcessingQueue := false;
     task := Idle; handlers := [] |}.

Inductive Body : Type :=
| AckBody (ack : string)
| QueuedBody
| ErrorBody (error : string).

(** What a step does to the outside: a request to the backend's [/sos], a
    response to a caller, a timer. *)
Inductive Action : Type :=
| Post (raw : string)
| Respond (req : nat) (code : Z) (body : Body)
| SetTimeout (delay : Z).

(** What the event loop delivers. *)
Inductive Event : Type :=
| Request (req : nat) (payload : option string) (now : Z)
| PostSettled (rec : nat) (r : Settled)
| QueuePostSettled (r : Settled)
| TimerFired.

(** ** Field updates *)

Definition set_status (st : Status) (m : Message) : Message :=
  {| msg_id := msg_id m; msg_raw := msg_raw m; msg_receivedAt := msg_receivedAt m;
     msg_status := st; msg_ack := msg_ack m |}.

Definition set_forwarded (ack : string) (m : Message) : Message :=
  {| msg_id := msg_id m; msg_raw := msg_raw m; msg_receivedAt := msg_receivedAt m;
     msg_status := forwarded; msg_ack := Some ack |}.

Definition failed_attempt (message : string) (item : RetryItem) : RetryItem :=
  {| item_id := item_id item; item_payload := item_payload item;
     item_attempts := item_attempts item + 1; item_lastError := message |}.

Definition with_messages (ms : list Message) (s : State) : State :=
  {| messages := ms; retryQueue := retryQueue s;
     isProcessingQueue := isProcessingQueue s; task := task s;
     handlers := handlers s |}.

Definition with_retryQueue (q : list RetryItem) (s : State) : State :=
  {| messages := messages s; retryQueue := q;
     isProcessingQueue := isProcessingQueue s; task := task s;
     handlers := handlers s |}.

Definition with_task (flag : bool) (t : Task) (s : State) : State :=
  {| messages := messages s; retryQueue := retryQueue s;
     isProcessingQueue := flag; task := t; handlers := handlers s |}.

Definition with_handlers (hs : list Handler) (s : State) : State :=
  {| messages := messages s; retryQueue := retryQueue s;
     isProcessingQueue := isProcessingQueue s; task := task s;
     handlers := hs |}.

(** ** Retry processor *)

(** [r.data?.ack ?? 'ACK|UNKNOWN'] *)
Definition ack_or_unknown (ack : option string) : string :=
  match ack with Some a => a | None => "ACK|UNKNOWN" end.

(** [Math.min(60000, 1000 * Math.pow(2, attempts))]; beyond 2^53 the
    product is no longer exact as a double (and overflows to Infinity from
    attempts = 1015 on), but the minimum is 60000 all the same. *)
Definition backoff (attempts : Z) : Z := Z.min 60000 (1000 * 2 ^ attempts).

(** [const msg = messages.find((m) => m.id === item.id);
     if (msg) { msg.status = 'forwarded'; msg.ack = ack; }] *)
Fixpoint mark_forwarded (id : Z) (ack : string) (ms : list Message) : list Message :=
  match ms with
  | [] => []
  | m :: ms' =>
      if msg_id m =? id then set_forwarded ack m :: ms'
      else m :: mark_forwarded id ack ms'
  end.

(** The [while] test and, when the queue is not empty, the turn of the
    loop up to its [await axios.post]; otherwise the flag is lowered. *)
Definition next_turn (s : State) : State * list Action :=
  match retryQueue s with
  | item :: _ => (with_task (isProcessingQueue s) AwaitingPost s, [Post (item_payload item)])
  | [] => (with_task false Idle s, [])
  end.

(** [processQueue()], up to its first suspension. *)
Definition processQueue (s : State) : State * list Action :=
  if isProcessingQueue s then (s, [])
  else next_turn (with_task true (task s) s).

(** ** Receive SMS-like payload from user app *)

Definition find_handler (rec : nat) (hs : list Handler) : option Handler :=
  List.find (fun h => Nat.eqb (h_rec h) rec) hs.

Definition drop_handler (rec : nat) (hs : list Handler) : list Handler :=
  List.filter (fun h => negb (Nat.eqb (h_rec h) rec)) hs.

Definition step (s : State) (e : Event) : option (State * list Action) :=
  match e with
  | Request req payload now =>
      match payload with
      | None | Some EmptyString =>
          Some (s, [Respond req 400 (ErrorBody "missing payload")])
      | Some payload =>
          let rec :=
            {| msg_id := Z.of_nat (length (messages s)) + 1; msg_raw := payload;
               msg_receivedAt := now; msg_status := received; msg_ack := None |} in
          let h := {| h_req := req; h_rec := length (messages s);
                      h_payload := payload |} in
          Some (with_handlers (handlers s ++ [h])
                  (with_messages (messages s ++ [rec]) s),
                [Post payload])
      end
  | PostSettled i r =>
      match find_handler i (handlers s), messages s !! i with
      | Some h, Some rec =>
          let s1 := with_handlers (drop_handler i (handlers s)) s in
          match r with
          | Fulfilled a =>
              let ack := ack_or_unknown a in
              Some (with_messages (alter (set_forwarded ack) i (messages s1)) s1,
                    [Respond (h_req h) 200 (AckBody ack)])
          | Rejected message =>
              let item := {| item_id := msg_id rec; item_payload := h_payload h;
                             item_attempts := 0; item_lastError := message |} in
              let s2 := with_retryQueue (retryQueue s1 ++ [item])
                          (with_messages (alter (set_status queued) i (messages s1)) s1) in
              let '(s3, acts) := processQueue s2 in
              Some (s3, acts ++ [Respond (h_req h) 202 QueuedBody])
          end
      | _, _ => None
      end
  | QueuePostSettled r =>
      match task s, retryQueue s with
      | AwaitingPost, item :: rest =>
          match r with
          | Fulfilled a =>
              let ack := ack_or_unknown a in
              Some (next_turn
                      (with_retryQueue rest
                         (with_messages (mark_forwarded (item_id item) ack (messages s)) s)))
          | Rejected message =>
              let item' := failed_attempt message item in
              let delay := backoff (item_attempts item') in
              Some (with_task (isProcessingQueue s) (AwaitingTimer delay)
                      (with_retryQueue (item' :: rest) s),
                    [SetTimeout delay])
          end
      | _, _ => None
      end
  | TimerFired =>
      match task s with
      | AwaitingTimer _ => Some (next_turn s)
      | _ => None
      end
  end.

(** The state after a sequence of events, with everything done on the
    way; [None] when some event could not have occurred. *)
Fixpoint run (s : State) (es : list Event) : option (State * list Action) :=
  match es with
  | [] => Some (s, [])
  | e :: es' =>
      match step s e with
      | Some (s', acts) =>
          match run s' es' with
          | Some (s'', acts') => Some (s'', acts ++ acts')
          | None => None
          end
      | None => None
      end
  end.

End Gateway.

(* ================================================================== *)
(** * The specification's wording, for comparison *)
(* ================================================================== *)

Module Spec.
Import Js Backend Gateway.

(** ** Payload tokens *)

(** The text of a token before its first [=]. *)
Fixpoint key_of (p : string) : string :=
  match p with
  | EmptyString => EmptyString
  | String a p' => if char_eqb a "=" then EmptyString else String a (key_of p')
  end.

(** The text of a token after its first [=]. *)
Fixpoint after_first_eq (p : string) : string :=
  match p with
  | EmptyString => EmptyString
  | String a p' => if char_eqb a "=" then p' else after_first_eq p'
  end.

(** "Each token containing [=] is split on the first [=] into key and
    value": the value is all that follows the first [=]. *)
Definition split_first_eq (p : string) : string * string :=
  (key_of p, after_first_eq p).

(** The text of a token between its first [=] and its second one (or its
    end when there is no second one). *)
Definition value_of (p : string) : string := key_of (after_first_eq p).

(** The field [k] of a raw message: the value of the last [|]-separated
    token that contains [=] and whose key is [k]. *)
Definition field (k : string) (raw : string) : option string :=
  last (map value_of
          (filter (fun p => includes "=" p = true /\ key_of p = k)
                  (split "|" raw))).

(** The unstructured flag of a raw message: the last token without [=]
    (or the value of a later token whose key is [typeFlag]). *)
Definition flag (raw : string) : option string :=
  last (map (fun p => if includes "=" p then value_of p else p)
          (filter (fun p => includes "=" p = false \/ key_of p = "typeFlag")
                  (split "|" raw))).

(** ** The distance in the ack *)

Fixpoint all_digits (s : string) : bool :=
  match s with
  | EmptyString => true
  | String a s' => is_digit a && all_digits s'
  end.

(** "A fixed-point decimal with exactly 2 decimal places": an optional
    minus sign, at least one digit, a point, two digits. *)
Definition two_decimals (s : string) : Prop :=
  exists (neg : bool) (int : string) (d1 d2 : ascii),
    s = (if neg then "-" else "") +:+ int +:+ "." +:+ String d1 (String d2 "") /\
    int <> "" /\ all_digits int = true /\
    is_digit d1 = true /\ is_digit d2 = true.

(** ** Capacity classification *)

(** [ceil(capacity x 0.2)] for an integer capacity, in exact arithmetic:
    the least integer not below [capacity / 5]. *)
Definition ceil_fifth (capacity : Z) : Z := (capacity + 4) / 5.

Definition capacityStatus (capacity filled : Z) : Capacity :=
  let free := capacity - filled in
  if free <=? 0 then FULL
  else if free <? ceil_fifth capacity then NEARLY_FULL
  else AVAILABLE.

(** ** The life of a message record *)

(** The changes of [status] an event may make to the record at index
    [i]: none, or one of [received -> forwarded] (its own first forward
    fulfilled), [received -> queued] (its own first forward rejected) and
    [queued -> forwarded] (a forward of the retry loop fulfilled). *)
Inductive lifecycle : Event -> nat -> Status -> Status -> Prop :=
| unchanged e i st : lifecycle e i st st
| direct_success i ack :
    lifecycle (PostSettled i (Fulfilled ack)) i received forwarded
| first_failure i message :
    lifecycle (PostSettled i (Rejected message)) i received queued
| retry_success i ack :
    lifecycle (QueuePostSettled (Fulfilled ack)) i queued forwarded.

(** [n] failed attempts of the retry loop in a row, each followed by the
    end of its backoff. *)
Fixpoint failures (n : nat) (message : string) : list Event :=
  match n with
  | O => []
  | S n' => QueuePostSettled (Rejected message) :: TimerFired :: failures n' message
  end.

End Spec.

(* ================================================================== *)
(** * Concrete runs *)
(* ================================================================== *)

Module Scenario.
Import Js Backend Gateway.

(** A request during which no database call rejects. *)
Definition calm : Env :=
  {| Date_now := 1700000000000; now_iso := "2023-11-14T22:13:20.000Z";
     log_insert_rejects := false; event_insert_rejects := false;
     select_bases_rejects := false |}.

(** A request during which [SELECT * FROM safe_bases] rejects. *)
Definition select_down : Env :=
  {| Date_now := 1700000000000; now_iso := "2023-11-14T22:13:20.000Z";
     log_insert_rejects := false; event_insert_rejects := false;
     select_bases_rejects := true |}.

(** The backend right after start-up, with one open socket. *)
Definition fresh : World :=
  {| db := {| safe_bases := preloaded; sos_events := []; sms_logs := [] |};
     clients := [true]; sent := [] |}.

(** The same with an empty [safe_bases]. *)
Definition no_bases : World :=
  {| db := {| safe_bases := []; sos_events := []; sms_logs := [] |};
     clients := [true]; sent := [] |}.

(** A base whose capacity, 2^53 + 1, no JavaScript number holds. *)
Definition vast : SafeBase :=
  {| base_id := "BASE_VAST"; base_name := "Vast Safe Base";
     base_lat := decimal 128296 4; base_lon := decimal 802270 4;
     base_capacity := 9007199254740993; base_filled := 9007199254740992 |}.

Definition at_sholi : string :=
  "SOS|ID=HX001|LAT=12.8296|LON=80.2270|DIR=NE|TYPE=TSUNAMI|TIME=2023-11-14T22:13:19.000Z".

Definition at_sathya : string :=
  "SOS|ID=HX001|LAT=13.0520|LON=80.2043|DIR=NE|TYPE=TSUNAMI|TIME=2023-11-14T22:13:19.000Z".

Definition lat_infinite : string :=
  "SOS|ID=HX001|LAT=Infinity|LON=80.2270|DIR=NE|TYPE=TSUNAMI".

(** The gateway after two messages whose first forwards were rejected:
    both are queued and the processor awaits its post of the first. *)
Definition two_queued : list Event :=
  [Request 1 (Some "SOS|ID=A") 100; Request 2 (Some "SOS|ID=B") 101;
   PostSettled 0 (Rejected "timeout of 5000ms exceeded");
   PostSettled 1 (Rejected "connect ECONNREFUSED")].

End Scenario.

(* ================================================================== *)
(** * Rounding of doubles *)
(* ================================================================== *)

Module Rounding.
Import Js.

(** [p / d] rounded to the nearest integer, ties to the even one. *)
Definition nearest_even (p d : Z) : Z :=
  let q := p / d in
  let r := p mod d in
  if 2 * r <? d then q
  else if 2 * r =? d then (if Z.even q then q else q + 1)
  else q + 1.

(** The double that holds the integer [v], for [0 < v < 2^53]: 53 digits
    of mantissa and the exponent that goes with them. *)
Definition canonical (s : bool) (v : Z) : Number :=
  let d := Zdigits2 v in
  S754_finite s (Z.to_pos (v * 2 ^ (53 - d))) (d - 53).

End Rounding.

(* ================================================================== *)
(** * Invariants *)
(* ================================================================== *)

Module Invariants.
Import Js Backend Gateway.

(** What the nearest-base loop has found after the bases [bases], given
    the distance [dist] of each base: no base while none is at a distance
    below Infinity; otherwise the first base that no base is nearer than. *)
Definition scanned (dist : SafeBase -> Number) (bases : list SafeBase)
    (acc : option SafeBase * Number) : Prop :=
  match acc with
  | (None, minD) =>
      minD = Infinity /\ forall b, b ∈ bases -> lt (dist b) Infinity = false
  | (Some b, minD) =>
      minD = dist b /\ lt (dist b) Infinity = true /\
      exists pre post, bases = pre ++ b :: post /\
        (forall b', b' ∈ pre -> le (dist b') (dist b) = false) /\
        (forall b', b' ∈ post -> lt (dist b') (dist b) = false)
  end.

(** What holds of the gateway between any two events. *)
Record consistent (s : State) : Prop := {
  (** a record's id is its position plus one *)
  ids_by_position :
    forall i m, messages s !! i = Some m -> msg_id m = Z.of_nat i + 1;
  (** a handler awaiting its first forward holds a record still [received] *)
  handlers_hold_received :
    forall h, h ∈ handlers s ->
      exists m, messages s !! h_rec h = Some m /\ msg_status m = received;
  handlers_distinct : NoDup (map h_rec (handlers s));
  (** a queued item belongs to a record that is [queued] *)
  items_are_queued :
    forall item, item ∈ retryQueue s ->
      exists i m, item_id item = Z.of_nat i + 1 /\
                  messages s !! i = Some m /\ msg_status m = queued;
  items_distinct : NoDup (map item_id (retryQueue s));
  (** the flag is up exactly while the processor is suspended *)
  flag_matches_task :
    isProcessingQueue s = match task s with Idle => false | _ => true end;
  (** the processor rests exactly when the queue is empty *)
  idle_iff_empty : task s = Idle <-> retryQueue s = [];
  (** attempts are counted up from zero *)
  attempts_counted :
    forall item, item ∈ retryQueue s -> 0 <= item_attempts item;
}.

(** The states the gateway can be in. *)
Definition reachable (s : State) : Prop :=
  exists es acts, run initial es = Some (s, acts).

End Invariants.

(* ================================================================== *)
(** * More of the JavaScript built-ins *)
(* ================================================================== *)

(** What the user app, the compass screen and the peer compass call
    besides: the remainder operator, [Math.round], [Math.min] and
    [Math.max], indexing an array by a Number, and [includes] and
    [replace] on strings. *)
Module JsMore.
Import Js.

#[export] Instance Number_eq_dec : EqDecision Number.
Proof. solve_decision. Defined.

(** ** Numbers *)

(** [n % d]: the remainder of the truncating division, exact, with the
    sign of the dividend. *)
Definition rem (n d : Number) : Number :=
  match n, d with
  | S754_nan, _ | _, S754_nan => NaN
  | S754_infinity _, _ => NaN
  | _, S754_infinity _ => n
  | _, S754_zero _ => NaN
  | S754_zero _, _ => n
  | S754_finite sn mn en, S754_finite _ md ed =>
      let e := Z.min en ed in
      let r := (Zpos mn * 2 ^ (en - e)) mod (Zpos md * 2 ^ (ed - e)) in
      if r =? 0 then S754_zero sn
      else binary_normalize prec emax (if sn then - r else r) e false
  end.

(** [Math.round]: the nearest integer, the larger one on a tie; [-0] for
    the arguments from [-0.5] up to [-0]. *)
Definition Math_round (x : Number) : Number :=
  match x with
  | S754_finite s m e =>
      if 0 <=? e then x
      else
        let p := 2 ^ (- e) in
        let q := (2 * (if s then - Zpos m else Zpos m) + p) / (2 * p) in
        if q =? 0 then S754_zero s else of_Z q
  | _ => x
  end.

(** [Math.max(a, b)] and [Math.min(a, b)]: NaN if either is; [+0] counts
    as larger than [-0]. *)
Definition Math_max (a b : Number) : Number :=
  if is_nan a || is_nan b then NaN
  else if lt a b then b
  else if lt b a then a
  else match a, b with
       | S754_zero true, S754_zero false => b
       | _, _ => a
       end.

Definition Math_min (a b : Number) : Number :=
  if is_nan a || is_nan b then NaN
  else if lt a b then a
  else if lt b a then b
  else match a, b with
       | S754_zero false, S754_zero true => b
       | _, _ => a
       end.

(** A Number that [toFixed(2)] prints in fixed-point notation: finite and
    of magnitude below 10^21. *)
Definition fixed_range (x : Number) : Prop :=
  match x with
  | S754_zero _ => True
  | S754_finite _ m e => below_1e21 m e = true
  | _ => False
  end.

(** ** Arrays *)

(** The array index a Number used as a property key stands for, if any:
    a non-negative integer ([-0] is the key ["0"]). *)
Definition array_index (i : Number) : option nat :=
  match i with
  | S754_zero _ => Some 0%nat
  | S754_finite false m e =>
      if 0 <=? e then Some (Z.to_nat (Zpos m * 2 ^ e))
      else if Zpos m mod 2 ^ (- e) =? 0 then Some (Z.to_nat (Zpos m / 2 ^ (- e)))
      else None
  | _ => None
  end.

(** [xs[i]], [None] for [undefined]. *)
Definition element (xs : list string) (i : Number) : option string :=
  match array_index i with
  | Some k => xs !! k
  | None => None
  end.

(** ** Strings *)

(** [s.includes(p)] for a string [p]. *)
Fixpoint includes_text (p s : string) : bool :=
  starts_with p s ||
  match s with
  | String _ s' => includes_text p s'
  | EmptyString => false
  end.

Fixpoint drop_chars (n : nat) (s : string) : string :=
  match n, s with
  | S n', String _ s' => drop_chars n' s'
  | _, _ => s
  end.

(** [s.replace(p, r)] for a string [p] and a replacement [r] without
    [$]: the first occurrence only. *)
Fixpoint replace (p r s : string) : string :=
  if starts_with p s then r +:+ drop_chars (String.length p) s
  else match s with
       | String a s' => String a (replace p r s')
       | EmptyString => EmptyString
       end.

End JsMore.

(* ================================================================== *)
(** * The listing endpoints and the broadcast *)
(* ================================================================== *)

Module Listing.
Import Backend Gateway.

(** The gateway's [app.get('/messages')]:
    [res.json({ messages, queueSize: retryQueue.length })]. *)
Definition get_messages (s : State) : list Message * Z :=
  (messages s, Z.of_nat (length (retryQueue s))).

(** The backend's [app.get('/events')]:
    [SELECT * FROM sos_events ORDER BY id DESC LIMIT 100].  The ids are
    AUTOINCREMENT, so they grow in the order of insertion. *)
Definition get_events (d : Db) : list SosEvent := take 100 (reverse (sos_events d)).


End Listing.

(* ================================================================== *)
(** * The gateway's books *)
(* ================================================================== *)

Module Ledger.
Import Gateway.

#[export] Instance Status_eq_dec : EqDecision Status.
Proof. solve_decision. Defined.

(** How the log, the queue and the suspended handlers refer to each
    other between any two events. *)
Record accounted (s : State) : Prop := {
  (** a record that is [queued] has its item in the queue *)
  queued_have_items :
    forall i m, messages s !! i = Some m -> msg_status m = queued ->
      exists item, item ∈ retryQueue s /\ item_id item = msg_id m;
  (** an item carries the payload of its record *)
  items_carry_raw :
    forall item, item ∈ retryQueue s ->
      exists i m, item_id item = Z.of_nat i + 1 /\
                  messages s !! i = Some m /\ msg_raw m = item_payload item;
  (** so does a handler awaiting its first forward *)
  handlers_carry_raw :
    forall h, h ∈ handlers s ->
      exists m, messages s !! h_rec h = Some m /\ msg_raw m = h_payload h;
  (** no record holds an empty payload *)
  raws_not_empty :
    forall i m, messages s !! i = Some m -> msg_raw m <> "";
  (** [ack] is set on the records that are [forwarded], and on no other *)
  ack_iff_forwarded :
    forall i m, messages s !! i = Some m ->
      (msg_status m = forwarded <-> is_Some (msg_ack m));
}.

(** What of a record never changes. *)
Definition same_entry (m m' : Message) : Prop :=
  msg_id m' = msg_id m /\ msg_raw m' = msg_raw m /\
  msg_receivedAt m' = msg_receivedAt m.

(** The caller a [Request] event comes from. *)
Definition requested (e : Event) : option nat :=
  match e with Request req _ _ => Some req | _ => None end.

(** The caller a [Respond] action answers. *)
Definition responded (a : Action) : option nat :=
  match a with Respond req _ _ => Some req | _ => None end.

(** The payload a [Post] action forwards. *)
Definition posted (a : Action) : option string :=
  match a with Post raw => Some raw | _ => None end.

(** The retry loop's forward fulfilled once for each ack of [acks]. *)
Definition fulfilments (acks : list (option string)) : list Event :=
  map (fun a => QueuePostSettled (Fulfilled a)) acks.

End Ledger.

(* ================================================================== *)
(** * The user app *)
(* ================================================================== *)

Module UserApp.
Import Js JsMore Gateway.

(** ** The compass point *)

Definition dirs : list string := ["N"; "NE"; "E"; "SE"; "S"; "SW"; "W"; "NW"].

(** [directionFromHeading(heading)]; [heading] is [None] when it is null
    or undefined, and so is the result when it is undefined. *)
Definition directionFromHeading (heading : option Number) : option string :=
  match heading with
  | None => Some "N/A"
  | Some heading =>
      let idx :=
        rem (Math_round
               (div (rem (add (rem heading (of_Z 360)) (of_Z 360)) (of_Z 360))
                    (of_Z 45)))
            (of_Z 8) in
      element dirs idx
  end.

(** What [directionFromHeading] does with [heading % 360]. *)
Definition after_rem (x : Number) : option string :=
  element dirs
    (rem (Math_round (div (rem (add x (of_Z 360)) (of_Z 360)) (of_Z 45))) (of_Z 8)).

(** The compass point of an integer heading, in exact arithmetic: the
    octant of 45 degrees centred on it. *)
Definition octant (h : Z) : nat := Z.to_nat (((h mod 360 + 22) / 45) mod 8).

(** ** [sendSOS] *)

(** The template literal
    [`SOS|ID=${id}|LAT=${loc.latitude}|LON=${loc.longitude}|DIR=${dir}|TYPE=TSUNAMI|TIME=${time}`],
    given the text each substitution is converted to. *)
Definition sos_payload (id latitude longitude dir time : string) : string :=
  "SOS|ID=" +:+ id +:+ "|LAT=" +:+ latitude +:+ "|LON=" +:+ longitude +:+
  "|DIR=" +:+ dir +:+ "|TYPE=TSUNAMI|TIME=" +:+ time.

(** A text with neither [|] nor [=] in it. *)
Definition plain (s : string) : Prop :=
  includes "|" s = false /\ includes "=" s = false.

(** What a [fetch] of the gateway's [/sms-receiver] brings back: the
    status and the JSON body of the answer, or nothing when the request
    fails. *)
Inductive Fetched : Type :=
| Replied (status : Z) (body : Body)
| Failed.

(** An element of localStorage's [smsQueue]. *)
Record Stored : Type := {
  stored_id : Z;
  stored_payload : string;
}.

(** What [sendSOS] and the retry interval write: the [ack] shown and
    localStorage's [smsQueue]. *)
Record App : Type := {
  ack : option string;
  smsQueue : list Stored;
}.

(** [j.ack || 'ACK'] *)
Definition ack_or_ACK (body : Body) : string :=
  match body with
  | AckBody a => str_or_default (Some a) "ACK"
  | _ => "ACK"
  end.

(** [q.push({ id: Date.now(), payload }); setAck('QUEUED_LOCAL')] *)
Definition queue_locally (now : Z) (payload : string) (app : App) : App :=
  {| ack := Some "QUEUED_LOCAL";
     smsQueue := smsQueue app ++ [{| stored_id := now; stored_payload := payload |}] |}.

(** [sendSOS] from the moment its [fetch] settles. *)
Definition sendSOS_settled (now : Z) (payload : string) (r : Fetched) (app : App) : App :=
  match r with
  | Replied status body =>
      if status =? 200 then {| ack := Some (ack_or_ACK body); smsQueue := smsQueue app |}
      else if status =? 202 then {| ack := Some "QUEUED"; smsQueue := smsQueue app |}
      else queue_locally now payload app
  | Failed => queue_locally now payload app
  end.

(** One turn of the loop of the retry interval, from the moment its
    [fetch] of [item.payload] settles: on a 200 the ack is shown and the
    items with the id of [item] leave the stored queue; any other outcome
    changes nothing. *)
Definition resend_settled (item : Stored) (r : Fetched) (app : App) : App :=
  match r with
  | Replied status body =>
      if status =? 200 then
        {| ack := Some (ack_or_ACK body);
           smsQueue := filter (fun x => stored_id x <> stored_id item) (smsQueue app) |}
      else app
  | Failed => app
  end.

(** ** The wires between the three programs *)

(** The answers among the actions of the gateway, each with its caller. *)
Definition answers (acts : list Action) : list (nat * Fetched) :=
  omap (fun a => match a with
                 | Respond req code body => Some (req, Replied code body)
                 | _ => None
                 end) acts.

(** How the gateway's [axios.post] settles on an answer of the backend:
    fulfilled with the body's [ack] on a 200, rejected on a 400 or 500. *)
Definition axios_post (r : Backend.Response) : Settled :=
  match r with
  | Backend.Ok200 a => Fulfilled (Some a)
  | Backend.BadRequest400 _ => Rejected "Request failed with status code 400"
  | Backend.Internal500 _ => Rejected "Request failed with status code 500"
  end.

End UserApp.

(* ================================================================== *)
(** * The compass screen and the peer compass *)
(* ================================================================== *)

Module CompassScreen.
Import Js JsMore.

(** [parseDistanceEstimate(s)], [distance] being the prop of the screen
    and [s] [None] when it is null. *)
Definition parseDistanceEstimate (distance : Number) (s : option string) : Number :=
  match s with
  | None | Some EmptyString => distance
  | Some s =>
      if includes_text "m" s then
        div (parseFloat_string (replace "m" "" s)) (of_Z 1000)
      else if includes_text "km" s then parseFloat_string (replace "km" "" s)
      else or_default (parseFloat_string s) distance
  end.

(** [Math.min(360, Math.max(0, Number(e.target.value)))], given the
    Number the input's text converts to. *)
Definition manual_bearing (value : Number) : Number :=
  Math_min (of_Z 360) (Math_max (of_Z 0) value).

(** [Math.max(0, Number(e.target.value))] *)
Definition manual_distance (value : Number) : Number := Math_max (of_Z 0) value.

End CompassScreen.

Module PeerCompass.
Import Js JsMore.

(** One turn of the interval of [startSimulatedHeading]:
    [(simulatedHeadingRef.current + 0.5) % 360]. *)
Definition simulated_tick (heading : Number) : Number :=
  rem (add heading (decimal 5 1)) (of_Z 360).

(** [k / 2] degrees. *)
Definition half_degrees (k : Z) : Number := div (of_Z k) (of_Z 2).

End PeerCompass.

(* ================================================================== *)
(** * Facts about the built-ins *)
(* ================================================================== *)

Module JsFacts.
Import Js.

(** ** The order on Numbers *)

Ltac order_cases :=
  repeat match goal with
  | |- context [Z.compare ?a ?b] =>
      let E := fresh "E" in
      destruct (Z.compare_spec a b) as [E|E|E]; simpl; try lia; try congruence
  | H : context [Z.compare ?a ?b] |- _ =>
      let E := fresh "E" in
      destruct (Z.compare_spec a b) as [E|E|E]; simpl in H; try lia; try congruence
  | |- context [Pos.compare_cont Eq ?a ?b] =>
      let E := fresh "E" in
      change (Pos.compare_cont Eq a b) with (Pos.compare a b);
      destruct (Pos.compare_spec a b) as [E|E|E]; simpl; try lia; try congruence
  | H : context [Pos.compare_cont Eq ?a ?b] |- _ =>
      let E := fresh "E" in
      change (Pos.compare_cont Eq a b) with (Pos.compare a b) in H;
      destruct (Pos.compare_spec a b) as [E|E|E]; simpl in H; try lia; try congruence
  end.

Ltac order_start :=
  unfold lt, le, SFltb, SFleb, SFcompare;
  repeat match goal with
  | x : Number |- _ => destruct x as [[]|[]| |[] ? ?]
  end;
  simpl; try congruence.

Lemma lt_le (x y : Number) : lt x y = true -> le x y = true.
Proof. order_start; intros; order_cases. Qed.

Lemma le_lt_trans (x y z : Number) :
  le x y = true -> lt y z = true -> lt x z = true.
Proof. order_start; intros H1 H2; order_cases. Qed.

Lemma lt_trans (x y z : Number) :
  lt x y = true -> lt y z = true -> lt x z = true.
Proof. intros H1 H2. apply (le_lt_trans x y z); auto using lt_le. Qed.

Lemma lt_irrefl (x : Number) : lt x x = false.
Proof. order_start; order_cases. Qed.

(** Two Numbers below Infinity are comparable. *)
Lemma not_lt_le (x y : Number) :
  lt x Infinity = true -> lt y Infinity = true ->
  lt y x = false -> le x y = true.
Proof. order_start; intros; order_cases. Qed.

Lemma le_not_lt (x y : Number) : le x y = true -> lt y x = false.
Proof. order_start; intros; order_cases. Qed.

Lemma lt_not_le (x y : Number) : lt x y = true -> le y x = false.
Proof. order_start; intros; order_cases. Qed.

Lemma not_le_lt (x y : Number) :
  lt x Infinity = true -> lt y Infinity = true ->
  le y x = false -> lt x y = true.
Proof. order_start; intros; order_cases. Qed.

Lemma lt_Infinity_not_nan (x : Number) : lt x Infinity = true -> is_nan x = false.
Proof. destruct x as [[]|[]| |[] ? ?]; cbv; congruence. Qed.

Lemma nan_not_lt (x y : Number) : is_nan x = true -> lt x y = false.
Proof. destruct x; cbv; congruence. Qed.

End JsFacts.

(* ================================================================== *)
(** * The backend: resolution *)
(* ================================================================== *)

Module ResolverFacts.
Import Js Backend JsFacts.

Section Scan.
Context `{Host}.
Variables lat lon : Number.

Let dist (b : SafeBase) : Number := haversine lat lon (base_lat b) (base_lon b).

#[local] Abbreviation scanned := (Invariants.scanned dist).

Lemma scanned_step (bases : list SafeBase) acc (x : SafeBase) :
  scanned bases acc -> scanned (bases ++ [x]) (scan_step lat lon acc x).
Proof.
  unfold scan_step. fold (dist x). destruct acc as [[b|] minD]; simpl.
  - intros (-> & Hb & pre & post & -> & Hpre & Hpost).
    destruct (lt (dist x) (dist b)) eqn:Hx; simpl.
    + repeat split; [eauto using lt_trans|].
      exists (pre ++ b :: post), []. repeat split.
      * intros b' Hb'. destruct (le (dist b') (dist x)) eqn:Hle; [|done].
        pose proof (le_lt_trans _ _ _ Hle Hx) as Hlt.
        apply elem_of_app in Hb' as [Hb'|Hb'].
        -- apply Hpre in Hb'. apply lt_le in Hlt. congruence.
        -- apply elem_of_cons in Hb' as [->|Hb'].
           ++ rewrite lt_irrefl in Hlt. done.
           ++ apply Hpost in Hb'. congruence.
      * intros b' Hb'. by apply elem_of_nil in Hb'.
    + repeat split; [done|].
      exists pre, (post ++ [x]). rewrite <- app_assoc. repeat split; [done|].
      intros b' Hb'. apply elem_of_app in Hb' as [Hb'|Hb']; [by apply Hpost|].
      apply list_elem_of_singleton in Hb' as ->. done.
  - intros (-> & Hall).
    destruct (lt (dist x) Infinity) eqn:Hx; simpl.
    + repeat split; [done|].
      exists bases, []. repeat split.
      * intros b' Hb'. destruct (le (dist b') (dist x)) eqn:Hle; [|done].
        pose proof (le_lt_trans _ _ _ Hle Hx) as Hlt.
        apply Hall in Hb'. congruence.
      * intros b' Hb'. by apply elem_of_nil in Hb'.
    + split; [done|].
      intros b' Hb'. apply elem_of_app in Hb' as [Hb'|Hb']; [by apply Hall|].
      apply list_elem_of_singleton in Hb' as ->. done.
Qed.

Lemma scanned_foldl (todo done_ : list SafeBase) acc :
  scanned done_ acc ->
  scanned (done_ ++ todo) (foldl (scan_step lat lon) acc todo).
Proof.
  revert done_ acc. induction todo as [|x todo IH]; intros done_ acc Hacc; simpl.
  - by rewrite app_nil_r.
  - replace (done_ ++ x :: todo) with ((done_ ++ [x]) ++ todo)
      by (by rewrite <- app_assoc).
    apply IH. by apply scanned_step.
Qed.

(** The scan returns the first base whose distance no other base's
    distance is below, among the bases whose distance is below Infinity;
    and no base when there is none of these. *)
Lemma nearest_scan_scanned (bases : list SafeBase) :
  scanned bases (nearest_scan lat lon bases).
Proof.
  unfold nearest_scan. apply (scanned_foldl bases [] (None, Infinity)).
  split; [done|]. intros b Hb. by apply elem_of_nil in Hb.
Qed.

End Scan.

End ResolverFacts.

(* ================================================================== *)
(** * The backend: the [/sos] handler *)
(* ================================================================== *)

Module HandlerFacts.
Import Js Backend JsFacts ResolverFacts.

Section Handler.
Context `{Host}.

(** The handler, call by call: each awaited call either rejects, which
    ends the request with a 500 and keeps what was written before, or lets
    the next one run. *)
Lemma sos_cases (env : Env) (a : ascii) (s : string) (w : World) :
  let raw := String a s in
  let e := parse raw (now_iso env) in
  let w1 := with_db (add_log raw (Date_now env)) w in
  let w2 := with_db (add_event e) w1 in
  let ack := resolve e (safe_bases (db w)) in
  sos env (Some raw) w =
    if log_insert_rejects env then (Internal500 "internal", w)
    else if event_insert_rejects env then (Internal500 "internal", w1)
    else if select_bases_rejects env then (Internal500 "internal", w2)
    else (Ok200 ack, deliver (frame_of e ack) w2).
Proof.
  unfold sos, sos_try, bind, insert_log, insert_event, select_bases,
    broadcast, throw, modify, ret.
  destruct (log_insert_rejects env), (event_insert_rejects env),
    (select_bases_rejects env); reflexivity.
Qed.

(** A request answered with an ack went through every call. *)
Lemma sos_acked (env : Env) (raw : string) (w : World) (ack : string) :
  fst (sos env (Some raw) w) = Ok200 ack ->
  ack = resolve (parse raw (now_iso env)) (safe_bases (db w)).
Proof.
  destruct raw as [|a s]; [discriminate|].
  rewrite sos_cases.
  destruct (log_insert_rejects env), (event_insert_rejects env),
    (select_bases_rejects env); simpl; congruence.
Qed.

End Handler.

End HandlerFacts.

(* ================================================================== *)
(** * The backend: which base the ack names *)
(* ================================================================== *)

Module NearestFacts.
Import Js Backend JsFacts ResolverFacts HandlerFacts.

(** ** Not-a-number distances *)

Lemma mul_nan_l (x : Number) : mul NaN x = NaN.
Proof. reflexivity. Qed.

Lemma mul_nan_r (x : Number) : mul x NaN = NaN.
Proof. by destruct x. Qed.

Lemma add_nan_l (x : Number) : add NaN x = NaN.
Proof. reflexivity. Qed.

Lemma toRad_infinity (s : bool) : toRad (S754_infinity s) = S754_infinity s.
Proof. by destruct s. Qed.

Lemma sub_infinity (x : Number) :
  is_finite x = true -> sub x Infinity = S754_infinity true.
Proof. by destruct x. Qed.

(** On a host whose sine is NaN at the infinities and whose [atan2] is NaN
    at NaN, as ECMAScript prescribes, the distance from a point of infinite
    latitude to a base of finite latitude is NaN. *)
Lemma haversine_infinite_latitude `{Host} (lon1 lat2 lon2 : Number) :
  (forall s, Math_sin (S754_infinity s) = NaN) ->
  (forall y, Math_atan2 NaN y = NaN) ->
  is_finite lat2 = true ->
  haversine Infinity lon1 lat2 lon2 = NaN.
Proof.
  intros Hsin Hatan Hfin. unfold haversine.
  rewrite (sub_infinity lat2 Hfin), toRad_infinity.
  change (div (S754_infinity true) (of_Z 2)) with (S754_infinity true).
  rewrite Hsin, mul_nan_l, add_nan_l.
  change (Math_sqrt NaN) with NaN. rewrite Hatan.
  by rewrite !mul_nan_r.
Qed.

(** Such a host finds no base for an alert of infinite latitude, whatever
    the directory of finite-latitude bases. *)
Lemma infinite_latitude_no_base `{Host} (lon : Number) (bases : list SafeBase) :
  (forall s, Math_sin (S754_infinity s) = NaN) ->
  (forall y, Math_atan2 NaN y = NaN) ->
  Forall (fun b => is_finite (base_lat b) = true) bases ->
  nearest_scan Infinity lon bases = (None, Infinity).
Proof.
  intros Hsin Hatan Hall. unfold nearest_scan.
  induction Hall as [|b bases Hb _ IH]; [done|].
  simpl. unfold scan_step at 2. simpl.
  by rewrite (haversine_infinite_latitude _ _ _ Hsin Hatan Hb).
Qed.

(** ** C1 *)

(** C1, as the code has it.  Whenever [/sos] answers with an ack and
    every base of the directory is at a computed distance below Infinity
    (so none is NaN), the directory splits around one base [b]: every
    base before [b] is strictly farther than [b], every base after [b] is
    at least as far, and the ack names [b], its distance and its capacity
    status.  With an empty directory the ack names NONE and AVAILABLE. *)
Theorem ack_names_first_nearest_base `{Host}
    (env : Env) (raw : string) (w : World) (ack : string) :
  let e := parse raw (now_iso env) in
  let bases := safe_bases (db w) in
  let dist b := haversine (lat e) (lon e) (base_lat b) (base_lon b) in
  fst (sos env (Some raw) w) = Ok200 ack ->
  Forall (fun b => lt (dist b) Infinity = true) bases ->
  match bases with
  | [] => ack = "ACK|SAFEBASE=NONE|DIST=InfinityKM|CAPACITY=AVAILABLE"
  | _ =>
      exists pre b post,
        bases = pre ++ b :: post /\
        Forall (fun b' => lt (dist b) (dist b') = true) pre /\
        Forall (fun b' => le (dist b) (dist b') = true) post /\
        ack = "ACK|SAFEBASE=" +:+ base_id b +:+ "|DIST=" +:+ toFixed2 (dist b)
              +:+ "KM|CAPACITY=" +:+
              capacity_text (classify (of_Z (base_capacity b)) (of_Z (base_filled b)))
  end.
Proof.
  intros e bases dist Hack Hall.
  apply sos_acked in Hack. fold e bases in Hack. subst ack.
  unfold resolve.
  pose proof (nearest_scan_scanned (lat e) (lon e) bases) as Hscan.
  destruct (nearest_scan (lat e) (lon e) bases) as [[b|] minD]; cbn [fst snd Invariants.scanned] in *.
  - destruct Hscan as (-> & Hb & pre & post & Hsplit & Hpre & Hpost).
    rewrite Forall_forall in Hall.
    assert (Hin : forall b', b' ∈ pre ++ b :: post -> lt (dist b') Infinity = true).
    { intros b' Hb'. apply Hall. by rewrite Hsplit. }
    destruct bases as [|b0 bases']; [by destruct pre|].
    exists pre, b, post. split; [done|]. split; [|split; [|done]].
    + apply Forall_forall. intros b' Hb'.
      apply not_le_lt; [exact Hb| |exact (Hpre b' Hb')].
      apply Hin, elem_of_app. by left.
    + apply Forall_forall. intros b' Hb'.
      apply not_lt_le; [exact Hb| |exact (Hpost b' Hb')].
      apply Hin, elem_of_app. right. by apply elem_of_cons; right.
  - destruct Hscan as (-> & Hnone).
    destruct bases as [|b0 bases']; [done|].
    apply Forall_cons in Hall as [Hb0 _].
    assert (Hin : b0 ∈ b0 :: bases') by (by apply elem_of_cons; left).
    apply Hnone in Hin. unfold dist in Hb0. congruence.
Qed.

(** The theorem applied to an alert sent from BASE_SHOLI itself. *)
Lemma ack_names_first_nearest_base_witness :
  exists pre b post,
    preloaded = pre ++ b :: post /\
    fst (sos (H := SeriesHost.host) Scenario.calm (Some Scenario.at_sholi) Scenario.fresh)
    = Ok200 ("ACK|SAFEBASE=" +:+ base_id b +:+ "|DIST=0.00KM|CAPACITY=AVAILABLE").
Proof.
  destruct (ack_names_first_nearest_base (H := SeriesHost.host)
              Scenario.calm Scenario.at_sholi Scenario.fresh
              "ACK|SAFEBASE=BASE_SHOLI|DIST=0.00KM|CAPACITY=AVAILABLE")
    as (pre & b & post & Hsplit & _).
  - vm_compute. reflexivity.
  - repeat (constructor; [vm_compute; reflexivity|]). constructor.
  - exists [], BASE_SHOLI, [BASE_SATHYA]. split; vm_compute; reflexivity.
Defined.

(** C1 as stated fails: with the two preloaded bases in the directory, an
    alert whose LAT field reads [Infinity] is acknowledged with
    [SAFEBASE=NONE], the id of no base. *)
Lemma infinite_latitude_ack_names_no_base :
  safe_bases (db Scenario.fresh) = [BASE_SHOLI; BASE_SATHYA] /\
  lat (parse Scenario.lat_infinite (now_iso Scenario.calm)) = Infinity /\
  fst (sos (H := SeriesHost.host) Scenario.calm (Some Scenario.lat_infinite) Scenario.fresh)
  = Ok200 "ACK|SAFEBASE=NONE|DIST=InfinityKM|CAPACITY=AVAILABLE".
Proof. repeat split; vm_compute; reflexivity. Qed.

End NearestFacts.

(* ================================================================== *)
(** * The backend: parsing the payload *)
(* ================================================================== *)

Module ParseFacts.
Import Js Backend HandlerFacts.

(** ** [p.split('=')] against key and value *)

Lemma split_head (p : string) :
  exists rest, split "=" p = Spec.key_of p :: rest.
Proof.
  induction p as [|a p [rest IH]]; simpl; [by eexists|].
  destruct (char_eqb a "="); [by eexists|].
  rewrite IH. by eexists.
Qed.

(** [const [k, v] = p.split('=')] binds [k] to the text before the first
    [=] and [v] to the text between the first and the second. *)
Lemma split_key_value (p : string) :
  includes "=" p = true ->
  exists rest, split "=" p = Spec.key_of p :: Spec.value_of p :: rest.
Proof.
  unfold Spec.value_of.
  induction p as [|a p IH]; simpl; [done|].
  destruct (char_eqb a "=").
  - intros _. destruct (split_head p) as [rest ->]. by eexists.
  - intros Hp. destruct (IH Hp) as [rest ->]. by eexists.
Qed.

(** ** The object built by the loop *)

Lemma parse_part_lookup (payload : gmap string string) (p k : string) :
  k <> "typeFlag" -> k <> "__proto__" ->
  parse_part payload p !! k =
    if decide (includes "=" p = true /\ Spec.key_of p = k)
    then Some (Spec.value_of p) else payload !! k.
Proof.
  intros Hflag Hproto. unfold parse_part, assign.
  destruct (includes "=" p) eqn:Hp.
  - destruct (split_key_value p Hp) as [rest ->].
    destruct (decide (Spec.key_of p = "__proto__")) as [Hk|Hk].
    + rewrite decide_False; [done|]. intros [_ ?]. congruence.
    + destruct (decide (Spec.key_of p = k)) as [<-|Hne].
      * rewrite decide_True by done. by rewrite lookup_insert_eq.
      * rewrite decide_False by (intros [_ ?]; done).
        by rewrite lookup_insert_ne.
  - rewrite (decide_False (P := _ /\ _)) by (intros [? _]; done).
    rewrite decide_False by done. by rewrite lookup_insert_ne.
Qed.

Lemma parse_loop_lookup (parts : list string) (payload : gmap string string) (k : string) :
  k <> "typeFlag" -> k <> "__proto__" ->
  foldl parse_part payload parts !! k =
    match last (map Spec.value_of
                  (filter (fun p => includes "=" p = true /\ Spec.key_of p = k) parts)) with
    | Some v => Some v
    | None => payload !! k
    end.
Proof.
  intros Hflag Hproto. revert payload.
  induction parts as [|p parts IH]; intros payload; simpl; [done|].
  rewrite IH, filter_cons, (parse_part_lookup payload p k Hflag Hproto).
  destruct (decide (includes "=" p = true /\ Spec.key_of p = k)); [|done].
  simpl.
  destruct (map Spec.value_of (filter _ parts)) as [|v vs] eqn:Hvs; [done|].
  rewrite !last_cons. by destruct (last vs).
Qed.

(** Every property of the payload object other than [typeFlag] holds the
    value of the last token with that key. *)
Lemma parse_parts_field (raw k : string) :
  k <> "typeFlag" -> k <> "__proto__" ->
  parse_parts raw !! k = Spec.field k raw.
Proof.
  intros Hflag Hproto. unfold parse_parts, Spec.field.
  rewrite (parse_loop_lookup _ ∅ k Hflag Hproto), lookup_empty.
  by destruct (last _).
Qed.

Lemma parse_part_typeFlag (payload : gmap string string) (p : string) :
  parse_part payload p !! "typeFlag" =
    if decide (includes "=" p = false \/ Spec.key_of p = "typeFlag")
    then Some (if includes "=" p then Spec.value_of p else p)
    else payload !! "typeFlag".
Proof.
  unfold parse_part, assign.
  destruct (includes "=" p) eqn:Hp.
  - destruct (split_key_value p Hp) as [rest ->].
    destruct (decide (Spec.key_of p = "typeFlag")) as [Hk|Hk].
    + rewrite Hk, (decide_False (P := _ = "__proto__")) by done.
      rewrite (decide_True (P := _ \/ _)) by (by right).
      by rewrite lookup_insert_eq.
    + rewrite (decide_False (P := _ \/ _)) by (by intros [?|?]).
      destruct (decide (Spec.key_of p = "__proto__")); [done|].
      by rewrite lookup_insert_ne.
  - rewrite (decide_True (P := _ \/ _)) by (by left).
    rewrite decide_False by done. by rewrite lookup_insert_eq.
Qed.

(** The [typeFlag] property holds the last token without [=]. *)
Lemma parse_parts_flag (raw : string) :
  parse_parts raw !! "typeFlag" = Spec.flag raw.
Proof.
  unfold parse_parts, Spec.flag.
  assert (Hloop : forall parts (payload : gmap string string),
    foldl parse_part payload parts !! "typeFlag" =
      match last (map (fun p => if includes "=" p then Spec.value_of p else p)
                    (filter (fun p => includes "=" p = false \/
                                      Spec.key_of p = "typeFlag") parts)) with
      | Some v => Some v
      | None => payload !! "typeFlag"
      end).
  { induction parts as [|p parts IH]; intros payload; simpl; [done|].
    rewrite IH, filter_cons, parse_part_typeFlag.
    destruct (decide (includes "=" p = false \/ Spec.key_of p = "typeFlag")); [|done].
    simpl. destruct (map _ (filter _ parts)) as [|v vs]; [done|].
    rewrite !last_cons. by destruct (last vs). }
  rewrite Hloop, lookup_empty. by destruct (last _).
Qed.

(** ** C4 *)

(** C4, as the code has it.  Parsing is a total function of the raw
    string.  The string is cut at every [|]; a token that contains [=]
    gives the text before its first [=] as key and the text between its
    first and its second [=] (up to its end when there is no second) as
    value, whatever follows a second [=] being dropped; the last token
    with a given key wins, and the last token without [=] is kept as the
    flag [typeFlag].  The fields are read from the keys ID, LAT, LON,
    TYPE and TIME: a missing or empty ID, TYPE or TIME becomes
    ["UNKNOWN"], ["UNKNOWN"] and the resolution time, and a LAT or LON
    that is missing, unparsable (NaN) or zero becomes 0.  When no database
    call rejects, a non-empty payload is always answered with an ack. *)
Theorem parse_reads_last_tokens `{Host} (raw now_iso : string) :
  deviceId (parse raw now_iso) =
    match Spec.field "ID" raw with Some (String a s) => String a s | _ => "UNKNOWN" end /\
  lat (parse raw now_iso) =
    (let x := parseFloat (Spec.field "LAT" raw) in
     match x with S754_nan | S754_zero _ => pos_zero | _ => x end) /\
  lon (parse raw now_iso) =
    (let x := parseFloat (Spec.field "LON" raw) in
     match x with S754_nan | S754_zero _ => pos_zero | _ => x end) /\
  type (parse raw now_iso) =
    match Spec.field "TYPE" raw with Some (String a s) => String a s | _ => "UNKNOWN" end /\
  time (parse raw now_iso) =
    match Spec.field "TIME" raw with Some (String a s) => String a s | _ => now_iso end /\
  parse_parts raw !! "typeFlag" = Spec.flag raw /\
  parseFloat None = NaN /\
  forall (now : Z) (a : ascii) (s : string) (w : World),
    fst (sos {| Date_now := now; now_iso := now_iso;
                log_insert_rejects := false; event_insert_rejects := false;
                select_bases_rejects := false |} (Some (String a s)) w)
    = Ok200 (resolve (parse (String a s) now_iso) (safe_bases (db w))).
Proof.
  unfold parse; cbn [deviceId lat lon type time].
  rewrite !parse_parts_field by done. rewrite parse_parts_flag.
  unfold str_or_default, or_default, truthy.
  split_and!; try done.
  - by destruct (parseFloat (Spec.field "LAT" raw)).
  - by destruct (parseFloat (Spec.field "LON" raw)).
Qed.

(** C4 as stated fails: cutting the token [ID=a=b] at its first [=] gives
    the value [a=b], but the parser reads the device id [a]. *)
Lemma value_stops_at_second_equals_sign :
  split "|" "SOS|ID=a=b" = ["SOS"; "ID=a=b"] /\
  Spec.split_first_eq "ID=a=b" = ("ID", "a=b") /\
  deviceId (parse "SOS|ID=a=b" "2023-11-14T22:13:20.000Z") = "a".
Proof. repeat split; vm_compute; reflexivity. Qed.

End ParseFacts.

(* ================================================================== *)
(** * The backend: what a request leaves behind *)
(* ================================================================== *)

Module IngestFacts.
Import Js Backend HandlerFacts.

(** ** C8 *)

(** C8, as the code has it.  An absent or empty [raw] is answered with a
    400 and nothing is written.  Otherwise the raw string and the receipt
    time are appended to the alert log first; if that insert rejects, the
    answer is a 500 and nothing is written.  Once the log entry is
    written it stays, whatever happens next: if the insert of the event
    rejects, the answer is a 500, no event is stored and nothing is
    broadcast; if the read of the directory rejects, the answer is a 500
    and nothing is broadcast, but the event stored just before stays; and
    if nothing rejects the answer is the ack, which is also broadcast. *)
Theorem alert_log_entry_survives `{Host} (env : Env) (a : ascii) (s : string) (w : World) :
  let raw := String a s in
  let e := parse raw (now_iso env) in
  let logged := sms_logs (db w) ++
                [{| log_raw_message := raw; log_received_at := Date_now env |}] in
  let stored := sos_events (db w) ++
                [{| ev_device_id := deviceId e; ev_lat := lat e; ev_lon := lon e;
                    ev_type := type e; ev_time := time e; ev_status := "received" |}] in
  let ack := resolve e (safe_bases (db w)) in
  let r := sos env (Some raw) w in
  sos env None w = (BadRequest400 "missing raw payload", w) /\
  sos env (Some "") w = (BadRequest400 "missing raw payload", w) /\
  safe_bases (db (snd r)) = safe_bases (db w) /\
  if log_insert_rejects env then r = (Internal500 "internal", w)
  else
    sms_logs (db (snd r)) = logged /\
    if event_insert_rejects env then
      fst r = Internal500 "internal" /\
      sos_events (db (snd r)) = sos_events (db w) /\ sent (snd r) = sent w
    else
      sos_events (db (snd r)) = stored /\
      if select_bases_rejects env then
        fst r = Internal500 "internal" /\ sent (snd r) = sent w
      else
        fst r = Ok200 ack /\
        sent (snd r) = sent (deliver (frame_of e ack) w).
Proof.
  intros raw e logged stored ack r. subst r logged stored ack e raw.
  rewrite !sos_cases.
  destruct (log_insert_rejects env), (event_insert_rejects env),
    (select_bases_rejects env); by split_and!.
Qed.

(** C8 as stated fails twice: an empty [raw], though present, is rejected
    without a log entry; and when the read of the directory rejects, the
    caller gets a 500 although the event of this request is stored. *)
Lemma event_stored_despite_internal_error :
  sos (H := SeriesHost.host) Scenario.calm (Some "") Scenario.fresh
  = (BadRequest400 "missing raw payload", Scenario.fresh) /\
  fst (sos (H := SeriesHost.host) Scenario.select_down (Some Scenario.at_sholi) Scenario.fresh)
  = Internal500 "internal" /\
  map ev_device_id
    (sos_events (db (snd (sos (H := SeriesHost.host) Scenario.select_down
                            (Some Scenario.at_sholi) Scenario.fresh))))
  = ["HX001"] /\
  sos_events (db Scenario.fresh) = [].
Proof. repeat split; vm_compute; reflexivity. Qed.

(** ** C9 *)

(** C9 at an empty directory: no distance was ever computed, [minD] is
    still Infinity, and [toFixed(2)] renders it as [Infinity], not with two
    decimals. *)
Theorem empty_directory_distance_is_Infinity `{Host} (e : ParsedEmergency) :
  resolve e [] = "ACK|SAFEBASE=NONE|DIST=InfinityKM|CAPACITY=AVAILABLE".
Proof. reflexivity. Qed.

(** The same through the handler, for an alert sent from BASE_SHOLI. *)
Example empty_directory_request :
  fst (sos (H := SeriesHost.host) Scenario.calm (Some Scenario.at_sholi) Scenario.no_bases)
  = Ok200 "ACK|SAFEBASE=NONE|DIST=InfinityKM|CAPACITY=AVAILABLE".
Proof. vm_compute. reflexivity. Qed.

End IngestFacts.

(* ================================================================== *)
(** * The gateway: the invariant *)
(* ================================================================== *)

Module GatewayFacts.
Import Gateway Invariants.

(** ** The processor's entry points leave the records alone *)

Lemma next_turn_fields (s : State) :
  messages (next_turn s).1 = messages s /\
  retryQueue (next_turn s).1 = retryQueue s /\
  handlers (next_turn s).1 = handlers s.
Proof. unfold next_turn. destruct s as [ms q f t hs]; simpl. by destruct q. Qed.

Lemma processQueue_fields (s : State) :
  messages (processQueue s).1 = messages s /\
  retryQueue (processQueue s).1 = retryQueue s /\
  handlers (processQueue s).1 = handlers s.
Proof.
  unfold processQueue. destruct (isProcessingQueue s); [done|].
  apply (next_turn_fields (with_task true (task s) s)).
Qed.

(** ** [messages.find] by id is the record at position id - 1 *)

Lemma mark_forwarded_alter (ms : list Message) (k i : nat) (m : Message) (ack : string) :
  (forall j m', ms !! j = Some m' -> msg_id m' = Z.of_nat (k + j) + 1) ->
  ms !! i = Some m ->
  mark_forwarded (Z.of_nat (k + i) + 1) ack ms = alter (set_forwarded ack) i ms.
Proof.
  revert k i. induction ms as [|m0 ms IH]; intros k i Hids Hi; [done|].
  simpl. pose proof (Hids 0%nat m0 eq_refl) as H0.
  destruct i as [|i]; simpl.
  - rewrite H0, Z.eqb_refl. done.
  - destruct (Z.eqb_spec (msg_id m0) (Z.of_nat (k + S i) + 1)) as [E|_]; [lia|].
    f_equal. replace (k + S i)%nat with (S k + i)%nat by lia.
    apply IH; [|done].
    intros j m' Hj. rewrite (Hids (S j) m' Hj). f_equal. lia.
Qed.

(** ** Handlers *)

Lemma find_handler_Some (i : nat) (hs : list Handler) (h : Handler) :
  find_handler i hs = Some h -> h ∈ hs /\ h_rec h = i.
Proof.
  unfold find_handler. intros Hf. apply List.find_some in Hf as [Hin Heq].
  split; [by apply list_elem_of_In|]. by apply Nat.eqb_eq.
Qed.

Lemma elem_of_drop_handler (i : nat) (hs : list Handler) (h : Handler) :
  h ∈ drop_handler i hs <-> h ∈ hs /\ h_rec h <> i.
Proof.
  unfold drop_handler. rewrite !list_elem_of_In, List.filter_In.
  rewrite negb_true_iff, Nat.eqb_neq. done.
Qed.

Lemma NoDup_drop_handler (i : nat) (hs : list Handler) :
  NoDup (map h_rec hs) -> NoDup (map h_rec (drop_handler i hs)).
Proof.
  unfold drop_handler. induction hs as [|h hs IH]; simpl; [done|].
  intros Hnd. apply NoDup_cons in Hnd as [Hnotin Hnd].
  destruct (negb (h_rec h =? i)%nat); simpl; [|by apply IH].
  apply NoDup_cons. split; [|by apply IH].
  intros Hin. apply Hnotin.
  apply list_elem_of_fmap in Hin as (h' & Heq & Hin).
  apply list_elem_of_fmap. exists h'. split; [done|].
  apply list_elem_of_In in Hin. apply List.filter_In in Hin as [Hin _].
  by apply list_elem_of_In.
Qed.

(** ** The invariant holds initially and after every event *)

Lemma consistent_initial : consistent initial.
Proof.
  split; simpl; try done.
  - intros h Hh. by apply elem_of_nil in Hh.
  - constructor.
  - intros item Hitem. by apply elem_of_nil in Hitem.
  - constructor.
  - intros item Hitem. by apply elem_of_nil in Hitem.
Qed.

(** Resuming the loop with the flag up. *)
Lemma consistent_next_turn (s : State) :
  consistent (with_task true AwaitingPost s) \/ retryQueue s = [] ->
  consistent (with_task false Idle s) \/ retryQueue s <> [] ->
  isProcessingQueue s = true ->
  consistent (next_turn s).1.
Proof.
  intros Hbusy Hidle Hflag. unfold next_turn.
  destruct (retryQueue s) as [|item rest] eqn:Hq; simpl.
  - by destruct Hidle.
  - rewrite Hflag. by destruct Hbusy.
Qed.

(** Changing where the processor stands keeps the part of the invariant
    that speaks of records, handlers and items. *)
Lemma consistent_with_task (s : State) (flag : bool) (t : Task) :
  consistent s ->
  flag = match t with Idle => false | _ => true end ->
  (t = Idle <-> retryQueue s = []) ->
  consistent (with_task flag t s).
Proof. intros [] Hflag Hidle. by split. Qed.

Lemma step_consistent (s : State) (e : Event) (s' : State) (acts : list Action) :
  consistent s -> step s e = Some (s', acts) -> consistent s'.
Proof.
  intros Hc Hstep. pose proof Hc as [Hids Hh Hhd Hq Hqd Hf Hi Hat].
  destruct e as [req payload now|i r|r|]; simpl in Hstep.
  - (* Request *)
    destruct payload as [[|a p]|]; simplify_eq; [done| |done].
    split; simpl; try done.
    + intros i m Hi'. apply lookup_app_Some in Hi' as [Hi'|[Hlen Hi']]; [by apply Hids|].
      apply list_lookup_singleton_Some in Hi' as [Hi' <-]. simpl. lia.
    + intros h Hin. apply elem_of_app in Hin as [Hin|Hin].
      * destruct (Hh h Hin) as (m & Hm & Hst). exists m. split; [|done].
        by apply lookup_app_l_Some.
      * apply list_elem_of_singleton in Hin as ->. simpl.
        eexists. split.
        { rewrite lookup_app_r by lia. by rewrite Nat.sub_diag. }
        done.
    + rewrite map_app. apply NoDup_app. split; [done|]. split; [|apply NoDup_singleton].
      intros x Hx Hx'. apply list_elem_of_singleton in Hx'. subst x.
      apply list_elem_of_fmap in Hx as (h & Heq & Hin).
      destruct (Hh h Hin) as (m & Hm & _). apply lookup_lt_Some in Hm.
      simpl in Heq. lia.
    + intros item Hin. destruct (Hq item Hin) as (i & m & Hid & Hm & Hst).
      exists i, m. split; [done|]. split; [|done]. by apply lookup_app_l_Some.
  - (* PostSettled *)
    destruct (find_handler i (handlers s)) as [h|] eqn:Hfind; [|done].
    destruct (messages s !! i) as [rec|] eqn:Hrec; [|done].
    apply find_handler_Some in Hfind as [Hin Hrec_h].
    destruct (Hh h Hin) as (m & Hm & Hst). rewrite Hrec_h, Hrec in Hm. simplify_eq.
    assert (Hothers : forall h', h' ∈ drop_handler (h_rec h) (handlers s) ->
              forall f, exists m', alter f (h_rec h) (messages s) !! h_rec h' = Some m' /\
                                   msg_status m' = received).
    { intros h' Hh' f. apply elem_of_drop_handler in Hh' as [Hh' Hne].
      destruct (Hh h' Hh') as (m' & Hm' & Hst'). exists m'. split; [|done].
      by rewrite list_lookup_alter_ne. }
    assert (Hitems : forall item, item ∈ retryQueue s ->
              forall f, exists j m', item_id item = Z.of_nat j + 1 /\
                 alter f (h_rec h) (messages s) !! j = Some m' /\ msg_status m' = queued).
    { intros item Hitem f. destruct (Hq item Hitem) as (j & m' & Hid & Hm' & Hst').
      exists j, m'. split; [done|]. split; [|done].
      rewrite list_lookup_alter_ne; [done|]. intros <-. congruence. }
    assert (Hids' : forall f, (forall m', msg_id (f m') = msg_id m') ->
              forall j m', alter f (h_rec h) (messages s) !! j = Some m' ->
                           msg_id m' = Z.of_nat j + 1).
    { intros f Hf' j m' Hj. destruct (decide (h_rec h = j)) as [<-|Hne].
      - rewrite list_lookup_alter_eq, Hrec in Hj. simpl in Hj. simplify_eq.
        rewrite Hf'. by apply Hids.
      - rewrite list_lookup_alter_ne in Hj by done. by apply Hids. }
    destruct r as [a|message].
    + (* fulfilled *)
      simplify_eq. split; simpl; try done.
      * by apply Hids'.
      * intros h' Hh'. by apply Hothers.
      * by apply NoDup_drop_handler.
      * intros item Hitem. by apply Hitems.
    + (* rejected *)
      set (item := {| item_id := msg_id m; item_payload := h_payload h;
                      item_attempts := 0; item_lastError := message |}) in *.
      assert (Hc2 : forall flag t,
                flag = match t with Idle => false | _ => true end -> t <> Idle ->
                consistent
                  (with_task flag t
                     (with_retryQueue (retryQueue s ++ [item])
                        (with_messages (alter (set_status queued) (h_rec h) (messages s))
                           (with_handlers (drop_handler (h_rec h) (handlers s)) s))))).
      { intros flag t Hflag Ht. split; simpl; try done.
        - by apply Hids'.
        - intros h' Hh'. by apply Hothers.
        - by apply NoDup_drop_handler.
        - intros it Hit. apply elem_of_app in Hit as [Hit|Hit]; [by apply Hitems|].
          apply list_elem_of_singleton in Hit as ->. simpl.
          exists (h_rec h), (set_status queued m). split; [by apply Hids|].
          split; [|done]. by rewrite list_lookup_alter_eq, Hrec.
        - rewrite map_app. apply NoDup_app. split; [done|].
          split; [|apply NoDup_singleton].
          intros x Hx Hx'. apply list_elem_of_singleton in Hx'. subst x.
          apply list_elem_of_fmap in Hx as (it & Heq & Hit).
          destruct (Hq it Hit) as (j & m' & Hid & Hm' & Hst').
          simpl in Heq. rewrite (Hids _ _ Hrec) in Heq.
          assert (j = h_rec h) by lia. subst j. congruence.
        - split; [done|]. intros Hnil. by apply app_eq_nil in Hnil as [_ ?].
        - intros it Hit. apply elem_of_app in Hit as [Hit|Hit]; [by apply Hat|].
          by apply list_elem_of_singleton in Hit as ->. }
      unfold processQueue in Hstep. simpl in Hstep.
      destruct (isProcessingQueue s) eqn:Hflag.
      * simplify_eq.
        assert (Ht : task s <> Idle) by (intros Ht; rewrite Ht in Hf; done).
        rewrite <- Hflag in Hf at 1. exact (Hc2 (isProcessingQueue s) (task s) Hf Ht).
      * unfold next_turn in Hstep. simpl in Hstep.
        destruct (retryQueue s ++ [item]) as [|it rest] eqn:Happ.
        { by apply app_eq_nil in Happ as [_ ?]. }
        simplify_eq.
        specialize (Hc2 true AwaitingPost eq_refl ltac:(done)).
        exact Hc2.
  - (* QueuePostSettled *)
    destruct (task s) eqn:Htask; try done.
    destruct (retryQueue s) as [|item rest] eqn:Hqueue; [done|].
    destruct r as [a|message].
    + (* fulfilled: the head leaves *)
      simplify_eq.
      destruct (Hq item ltac:(by apply elem_of_cons; left)) as (j & m & Hid & Hm & Hst).
      assert (Hmark : mark_forwarded (item_id item) (ack_or_unknown a) (messages s)
                      = alter (set_forwarded (ack_or_unknown a)) j (messages s)).
      { rewrite Hid. apply (mark_forwarded_alter (messages s) 0 j m); done. }
      simpl in Hqd. apply NoDup_cons in Hqd as [Hnotin Hqd].
      set (s1 := with_retryQueue _ _) in Hstep.
      replace s' with (next_turn s1).1 by (by rewrite Hstep). clear Hstep.
      assert (Hc1 : forall flag t,
                flag = match t with Idle => false | _ => true end ->
                (t = Idle <-> rest = []) ->
                consistent (with_task flag t s1)).
      { intros flag t Hflag Ht. split; simpl; try done; rewrite ?Hmark.
        - intros i m' Hi'. destruct (decide (j = i)) as [<-|Hne].
          + rewrite list_lookup_alter_eq, Hm in Hi'. simpl in Hi'. simplify_eq.
            simpl. by apply (Hids j).
          + rewrite list_lookup_alter_ne in Hi' by done. by apply Hids.
        - intros h Hin. destruct (Hh h Hin) as (m' & Hm' & Hst'). exists m'.
          split; [|done]. rewrite list_lookup_alter_ne; [done|].
          intros Heq. subst j. congruence.
        - intros it Hit.
          destruct (Hq it ltac:(by apply elem_of_cons; right)) as (i & m' & Hid' & Hm' & Hst').
          exists i, m'. split; [done|]. split; [|done].
          rewrite list_lookup_alter_ne; [done|]. intros Heq. subst i.
          apply Hnotin. apply list_elem_of_fmap. exists it. split; [lia|done].
        - intros it Hit. apply Hat. by apply elem_of_cons; right. }
      apply consistent_next_turn; simpl.
      * destruct rest; [by right|left].
        specialize (Hc1 true AwaitingPost eq_refl ltac:(done)). by destruct Hc1.
      * destruct rest; [left|by right].
        specialize (Hc1 false Idle eq_refl ltac:(done)). by destruct Hc1.
      * done.
    + (* rejected: the head stays, one attempt older *)
      simplify_eq. split; simpl; try done.
      * intros it Hit. apply elem_of_cons in Hit as [->|Hit].
        -- destruct (Hq item ltac:(by apply elem_of_cons; left)) as (j & m & ?). by exists j, m.
        -- apply Hq. by apply elem_of_cons; right.
      * intros it Hit. apply elem_of_cons in Hit as [->|Hit].
        -- simpl. pose proof (Hat item ltac:(by apply elem_of_cons; left)). lia.
        -- apply Hat. by apply elem_of_cons; right.
  - (* TimerFired *)
    destruct (task s) eqn:Htask; try done. simplify_eq.
    replace s' with (next_turn s).1 by (by rewrite Hstep). clear Hstep.
    assert (Hne : retryQueue s <> []) by (intros Hnil; by apply Hi in Hnil).
    apply consistent_next_turn; [|by right|done].
    left. apply consistent_with_task; [done|done|]. split; [done|]. done.
Qed.

Lemma run_consistent (es : list Event) (s s' : State) (acts : list Action) :
  consistent s -> run s es = Some (s', acts) -> consistent s'.
Proof.
  revert s acts. induction es as [|e es IH]; intros s acts Hc Hrun; simpl in Hrun.
  - by simplify_eq.
  - destruct (step s e) as [[s1 acts1]|] eqn:Hstep; [|done].
    destruct (run s1 es) as [[s2 acts2]|] eqn:Hrest; [|done].
    simplify_eq. eapply IH; [|done]. by eapply step_consistent.
Qed.

(** Every state the gateway can be in is consistent. *)
Lemma reachable_consistent (s : State) : reachable s -> consistent s.
Proof. intros (es & acts & Hrun). eapply run_consistent; [apply consistent_initial|done]. Qed.

End GatewayFacts.

(* ================================================================== *)
(** * The gateway: message records *)
(* ================================================================== *)

Module RecordFacts.
Import Gateway Invariants GatewayFacts.

(** ** C7 *)

(** C7.  In every state the gateway can reach, an event changes the
    status of an existing record only along [received -> forwarded] (its
    own first forward fulfilled), [received -> queued] (its own first
    forward rejected) or [queued -> forwarded] (a forward of the retry
    loop fulfilled); a record that appears starts [received]; a rejected
    first forward always leaves its record [queued], a fulfilled one
    [forwarded].  There being no way out of [forwarded], a record's
    statuses read [received, forwarded] or [received, queued, forwarded]. *)
Theorem status_follows_lifecycle (es : list Event) (s : State) (acts0 : list Action)
    (e : Event) (s' : State) (acts : list Action) :
  run initial es = Some (s, acts0) ->
  step s e = Some (s', acts) ->
  (forall i m, messages s !! i = Some m ->
     exists m', messages s' !! i = Some m' /\
                Spec.lifecycle e i (msg_status m) (msg_status m')) /\
  (forall i m', messages s !! i = None -> messages s' !! i = Some m' ->
     msg_status m' = received) /\
  (forall i message, e = PostSettled i (Rejected message) ->
     exists m, messages s !! i = Some m /\ msg_status m = received /\
               messages s' !! i = Some (set_status queued m)) /\
  (forall i ack, e = PostSettled i (Fulfilled ack) ->
     exists m, messages s !! i = Some m /\ msg_status m = received /\
               messages s' !! i = Some (set_forwarded (ack_or_unknown ack) m)).
Proof.
  intros Hrun Hstep.
  assert (Hc : consistent s) by (apply reachable_consistent; by exists es, acts0).
  destruct Hc as [Hids Hh Hhd Hq Hqd Hf Hi Hat].
  assert (Hsame : messages s' = messages s ->
    (forall i m, messages s !! i = Some m ->
       exists m', messages s' !! i = Some m' /\
                  Spec.lifecycle e i (msg_status m) (msg_status m')) /\
    (forall i m', messages s !! i = None -> messages s' !! i = Some m' ->
       msg_status m' = received)).
  { intros ->. split.
    - intros i m Hm. exists m. split; [done|constructor].
    - intros i m' Hn Hm'. congruence. }
  assert (Halter : forall j f m0,
    messages s !! j = Some m0 ->
    Spec.lifecycle e j (msg_status m0) (msg_status (f m0)) ->
    messages s' = alter f j (messages s) ->
    (forall i m, messages s !! i = Some m ->
       exists m', messages s' !! i = Some m' /\
                  Spec.lifecycle e i (msg_status m) (msg_status m')) /\
    (forall i m', messages s !! i = None -> messages s' !! i = Some m' ->
       msg_status m' = received)).
  { intros j f m0 Hm0 Hlife ->. split.
    - intros i m Hm. destruct (decide (j = i)) as [<-|Hne].
      + exists (f m0). rewrite list_lookup_alter_eq, Hm0. split; [done|].
        by simplify_eq.
      + exists m. rewrite list_lookup_alter_ne by done. split; [done|constructor].
    - intros i m' Hn Hm'. destruct (decide (j = i)) as [<-|Hne].
      + congruence.
      + rewrite list_lookup_alter_ne in Hm' by done. congruence. }
  destruct e as [req payload now|i r|r|]; simpl in Hstep.
  - (* Request *)
    destruct payload as [[|a p]|]; simplify_eq.
    + destruct (Hsame eq_refl) as [H1 H2]. by split_and!.
    + simpl. split_and!; try done.
      * intros i m Hm. exists m. split; [|constructor]. by apply lookup_app_l_Some.
      * intros i m' Hn Hm'.
        apply lookup_app_Some in Hm' as [Hm'|[_ Hm']]; [congruence|].
        by apply list_lookup_singleton_Some in Hm' as [_ <-].
    + destruct (Hsame eq_refl) as [H1 H2]. by split_and!.
  - (* PostSettled *)
    destruct (find_handler i (handlers s)) as [h|] eqn:Hfind; [|done].
    destruct (messages s !! i) as [m|] eqn:Hm; [|done].
    apply find_handler_Some in Hfind as [Hin Hrec].
    destruct (Hh h Hin) as (m0 & Hm0 & Hst). rewrite Hrec, Hm in Hm0. simplify_eq.
    destruct r as [a|message].
    + simplify_eq. simpl.
      destruct (Halter (h_rec h) (set_forwarded (ack_or_unknown a)) m0) as [H1 H2];
        [done|simpl; rewrite Hst; constructor|done|].
      split_and!; try done.
      intros i ack Heq. simplify_eq. exists m0.
      by rewrite list_lookup_alter_eq, Hm.
    + destruct (processQueue _) as [s3 acts3] eqn:Hpq. simplify_eq.
      pose proof (processQueue_fields
        (with_retryQueue
           (retryQueue s ++
              [{| item_id := msg_id m0; item_payload := h_payload h;
                  item_attempts := 0; item_lastError := message |}])
           (with_messages (alter (set_status queued) (h_rec h) (messages s))
              (with_handlers (drop_handler (h_rec h) (handlers s)) s))))
        as (Hmsgs & _ & _).
      rewrite Hpq in Hmsgs. simpl in Hmsgs.
      destruct (Halter (h_rec h) (set_status queued) m0) as [H1 H2];
        [done|simpl; rewrite Hst; constructor|done|].
      split_and!; try done.
      intros i msg Heq. simplify_eq. exists m0.
      by rewrite Hmsgs, list_lookup_alter_eq, Hm.
  - (* QueuePostSettled *)
    destruct (task s) eqn:Htask; try done.
    destruct (retryQueue s) as [|item rest] eqn:Hqueue; [done|].
    destruct r as [a|message].
    + destruct (Hq item ltac:(by apply elem_of_cons; left)) as (j & m & Hid & Hm & Hst).
      simplify_eq.
      pose proof (next_turn_fields
        (with_retryQueue rest
           (with_messages
              (mark_forwarded (item_id item) (ack_or_unknown a) (messages s)) s)))
        as (Hmsgs & _ & _).
      rewrite Hstep in Hmsgs. simpl in Hmsgs.
      rewrite Hid, (mark_forwarded_alter (messages s) 0 j m) in Hmsgs by done.
      destruct (Halter j (set_forwarded (ack_or_unknown a)) m) as [H1 H2];
        [done|simpl; rewrite Hst; constructor|done|].
      by split_and!.
    + simplify_eq. destruct (Hsame eq_refl) as [H1 H2]. by split_and!.
  - (* TimerFired *)
    destruct (task s) eqn:Htask; try done. simplify_eq.
    pose proof (next_turn_fields s) as (Hmsgs & _ & _).
    rewrite Hstep in Hmsgs. simpl in Hmsgs.
    destruct (Hsame Hmsgs) as [H1 H2]. by split_and!.
Qed.

(** The theorem applied to the fulfilment of the retry loop's forward
    after two first forwards were rejected: the first record goes from
    [queued] to [forwarded]. *)
Lemma status_follows_lifecycle_witness :
  exists s acts0 s' acts m',
    run initial Scenario.two_queued = Some (s, acts0) /\
    step s (QueuePostSettled (Fulfilled (Some "ACK|SAFEBASE=BASE_SHOLI")))
      = Some (s', acts) /\
    messages s' !! 0%nat = Some m' /\
    Spec.lifecycle (QueuePostSettled (Fulfilled (Some "ACK|SAFEBASE=BASE_SHOLI")))
      0 queued (msg_status m').
Proof.
  destruct (run initial Scenario.two_queued) as [[s acts0]|] eqn:Hrun;
    [|vm_compute in Hrun; discriminate].
  destruct (step s (QueuePostSettled (Fulfilled (Some "ACK|SAFEBASE=BASE_SHOLI"))))
    as [[s' acts]|] eqn:Hstep.
  2: { vm_compute in Hrun. injection Hrun as <- _. vm_compute in Hstep. discriminate. }
  destruct (status_follows_lifecycle _ _ _ _ _ _ Hrun Hstep) as (Hold & _).
  destruct (messages s !! 0%nat) as [m|] eqn:Hm.
  2: { vm_compute in Hrun. injection Hrun as <- _. vm_compute in Hm. discriminate. }
  destruct (Hold 0%nat m Hm) as (m' & Hm' & Hlife).
  exists s, acts0, s', acts, m'. split_and!; try done.
  vm_compute in Hrun. injection Hrun as <- _. vm_compute in Hm. by simplify_eq.
Defined.

End RecordFacts.

(* ================================================================== *)
(** * The gateway: the retry queue *)
(* ================================================================== *)

Module QueueFacts.
Import Gateway Invariants GatewayFacts.

(** ** Repeated failures *)

(** However often the forward of the head fails, the processor is back at
    its post of the same head, [n] attempts older, with the rest of the
    queue as it was. *)
Lemma failures_keep_head (n : nat) (message : string) (s : State)
    (item : RetryItem) (rest : list RetryItem) :
  task s = AwaitingPost -> retryQueue s = item :: rest ->
  exists s' acts item',
    run s (Spec.failures n message) = Some (s', acts) /\
    task s' = AwaitingPost /\ retryQueue s' = item' :: rest /\
    messages s' = messages s /\
    item_id item' = item_id item /\ item_payload item' = item_payload item /\
    item_attempts item' = item_attempts item + Z.of_nat n.
Proof.
  revert s item. induction n as [|n IH]; intros s item Htask Hqueue.
  - exists s, [], item. simpl. split_and!; try done. lia.
  - simpl. rewrite Htask, Hqueue. simpl.
    lazymatch goal with
    | |- context [run ?s1 (Spec.failures n message)] =>
        destruct (IH s1 (failed_attempt message item) eq_refl eq_refl)
          as (s' & acts & item' & Hrun & Ht & Hq & Hm & Hid & Hp & Ha)
    end.
    rewrite Hrun. exists s', (SetTimeout (backoff (item_attempts item + 1)) ::
                              (Post (item_payload item) :: acts)), item'.
    split_and!; try done. simpl in Ha. lia.
Qed.

(** ** C3 *)

(** C3.  In every state the gateway can reach: the only event that takes
    an item out of the queue is the fulfilment of the processor's forward,
    and it takes the head; a rejected forward leaves the queue in place
    with the head's attempts incremented and its lastError recorded, and
    starts a timer of the backoff delay; when the timer fires the same
    head is posted again; a rejected first forward appends one item; no
    other event touches the queue.  While the queue is not empty the
    processor is never idle, and any number of failures in a row leaves
    the head at the head, so nothing is skipped, dropped or abandoned. *)
Theorem queue_changes_at_head_only (es : list Event) (s : State) (acts0 : list Action) :
  run initial es = Some (s, acts0) ->
  (forall e s' acts, step s e = Some (s', acts) ->
     match e with
     | QueuePostSettled (Fulfilled _) =>
         exists item, retryQueue s = item :: retryQueue s'
     | QueuePostSettled (Rejected message) =>
         exists item rest,
           retryQueue s = item :: rest /\
           retryQueue s' = failed_attempt message item :: rest /\
           task s' = AwaitingTimer (backoff (item_attempts item + 1)) /\
           acts = [SetTimeout (backoff (item_attempts item + 1))]
     | TimerFired =>
         exists item rest,
           retryQueue s = item :: rest /\ retryQueue s' = item :: rest /\
           task s' = AwaitingPost /\ acts = [Post (item_payload item)]
     | PostSettled _ (Rejected _) =>
         exists item, retryQueue s' = retryQueue s ++ [item]
     | _ => retryQueue s' = retryQueue s
     end) /\
  (retryQueue s = [] \/ task s = AwaitingPost \/ exists delay, task s = AwaitingTimer delay) /\
  (forall (n : nat) message item rest,
     task s = AwaitingPost -> retryQueue s = item :: rest ->
     exists s' acts item',
       run s (Spec.failures n message) = Some (s', acts) /\
       task s' = AwaitingPost /\ retryQueue s' = item' :: rest /\
       item_id item' = item_id item /\ item_payload item' = item_payload item /\
       item_attempts item' = item_attempts item + Z.of_nat n).
Proof.
  intros Hrun.
  assert (Hc : consistent s) by (apply reachable_consistent; by exists es, acts0).
  destruct Hc as [Hids Hh Hhd Hq Hqd Hf Hi Hat].
  split_and!.
  - intros e s' acts Hstep.
    destruct e as [req payload now|i r|r|]; simpl in Hstep.
    + destruct payload as [[|a p]|]; by simplify_eq.
    + destruct (find_handler i (handlers s)) as [h|]; [|done].
      destruct (messages s !! i) as [m|]; [|done].
      destruct r as [a|message]; [by simplify_eq|].
      destruct (processQueue _) as [s3 acts3] eqn:Hpq. simplify_eq.
      eexists. pose proof (processQueue_fields
        (with_retryQueue
           (retryQueue s ++
              [{| item_id := msg_id m; item_payload := h_payload h;
                  item_attempts := 0; item_lastError := message |}])
           (with_messages (alter (set_status queued) i (messages s))
              (with_handlers (drop_handler i (handlers s)) s))))
        as (_ & Hqueue & _).
      rewrite Hpq in Hqueue. exact Hqueue.
    + destruct (task s) eqn:Htask; try done.
      destruct (retryQueue s) as [|item rest] eqn:Hqueue; [done|].
      destruct r as [a|message].
      * simplify_eq. exists item.
        pose proof (next_turn_fields
          (with_retryQueue rest
             (with_messages
                (mark_forwarded (item_id item) (ack_or_unknown a) (messages s)) s)))
          as (_ & Hq' & _).
        rewrite Hstep in Hq'. simpl in Hq'. by rewrite Hq'.
      * simplify_eq. by exists item, rest.
    + destruct (task s) eqn:Htask; try done. simplify_eq.
      destruct (retryQueue s) as [|item rest] eqn:Hqueue.
      { destruct Hi as [_ Hi]. by specialize (Hi eq_refl). }
      exists item, rest. unfold next_turn in Hstep. rewrite Hqueue in Hstep.
      by simplify_eq.
  - destruct (task s) eqn:Htask; [left; by apply Hi|by right; left|right; right; by eexists].
  - intros n message item rest Htask Hqueue.
    destruct (failures_keep_head n message s item rest Htask Hqueue)
      as (s' & acts & item' & ? & ? & ? & ? & ? & ? & ?).
    by exists s', acts, item'.
Qed.

(** The theorem applied to the gateway with two queued messages: three
    failures in a row leave the first message at the head with three
    attempts and the second behind it. *)
Lemma queue_changes_at_head_only_witness :
  exists s acts0 s' acts item' second,
    run initial Scenario.two_queued = Some (s, acts0) /\
    run s (Spec.failures 3 "timeout of 5000ms exceeded") = Some (s', acts) /\
    retryQueue s' = [item'; second] /\
    item_payload item' = "SOS|ID=A" /\ item_attempts item' = 3 /\
    item_payload second = "SOS|ID=B".
Proof.
  destruct (run initial Scenario.two_queued) as [[s acts0]|] eqn:Hrun;
    [|vm_compute in Hrun; discriminate].
  destruct (queue_changes_at_head_only _ _ _ Hrun) as (_ & _ & Hfail).
  pose proof Hrun as Hs. vm_compute in Hs. injection Hs as Hs _.
  destruct (Hfail 3%nat "timeout of 5000ms exceeded"
              {| item_id := 1; item_payload := "SOS|ID=A"; item_attempts := 0;
                 item_lastError := "timeout of 5000ms exceeded" |}
              [{| item_id := 2; item_payload := "SOS|ID=B"; item_attempts := 0;
                  item_lastError := "connect ECONNREFUSED" |}])
    as (s' & acts & item' & Hrun' & _ & Hq & _ & Hp & Ha).
  - by rewrite <- Hs.
  - by rewrite <- Hs.
  - exists s, acts0, s', acts, item', {| item_id := 2; item_payload := "SOS|ID=B";
        item_attempts := 0; item_lastError := "connect ECONNREFUSED" |}.
    by split_and!.
Defined.

(** ** C6 *)

(** C6.  In every state the gateway can reach with the processor at its
    post, a rejected forward increments the head's attempts and starts a
    timer of [min(60000, 1000 * 2^attempts)] milliseconds for the
    incremented attempts; for attempts 1 to 7 these are 2000, 4000, 8000,
    16000, 32000, 60000 and 60000. *)
Theorem backoff_is_capped_doubling (es : list Event) (s : State) (acts0 : list Action)
    (item : RetryItem) (rest : list RetryItem) (message : string) :
  run initial es = Some (s, acts0) ->
  task s = AwaitingPost -> retryQueue s = item :: rest ->
  (exists s' item',
     step s (QueuePostSettled (Rejected message))
       = Some (s', [SetTimeout (Z.min 60000 (1000 * 2 ^ item_attempts item'))]) /\
     retryQueue s' = item' :: rest /\
     item_attempts item' = item_attempts item + 1 /\ 1 <= item_attempts item' /\
     item_lastError item' = message /\
     task s' = AwaitingTimer (Z.min 60000 (1000 * 2 ^ item_attempts item'))) /\
  map backoff [1; 2; 3; 4; 5; 6; 7] = [2000; 4000; 8000; 16000; 32000; 60000; 60000].
Proof.
  intros Hrun Htask Hqueue.
  assert (Hc : consistent s) by (apply reachable_consistent; by exists es, acts0).
  pose proof (attempts_counted s Hc item) as Hat.
  rewrite Hqueue in Hat. specialize (Hat ltac:(by apply elem_of_cons; left)).
  split; [|done].
  simpl. rewrite Htask, Hqueue.
  eexists _, (failed_attempt message item). split_and!; try done. simpl. lia.
Qed.

(** The theorem applied to the gateway with two queued messages: the
    first failure of the retry loop starts a timer of 2000 ms. *)
Lemma backoff_is_capped_doubling_witness :
  exists s acts0 s',
    run initial Scenario.two_queued = Some (s, acts0) /\
    task s = AwaitingPost /\
    step s (QueuePostSettled (Rejected "Request failed with status code 500"))
      = Some (s', [SetTimeout 2000]).
Proof.
  destruct (run initial Scenario.two_queued) as [[s acts0]|] eqn:Hrun;
    [|vm_compute in Hrun; discriminate].
  pose proof Hrun as Hs. vm_compute in Hs. injection Hs as Hs _.
  destruct (backoff_is_capped_doubling _ _ _
              {| item_id := 1; item_payload := "SOS|ID=A"; item_attempts := 0;
                 item_lastError := "timeout of 5000ms exceeded" |}
              [{| item_id := 2; item_payload := "SOS|ID=B"; item_attempts := 0;
                  item_lastError := "connect ECONNREFUSED" |}]
              "Request failed with status code 500" Hrun)
    as ((s' & item' & Hstep & _ & Ha & _) & _).
  - by rewrite <- Hs.
  - by rewrite <- Hs.
  - exists s, acts0, s'. split; [done|]. split; [by rewrite <- Hs|].
    rewrite Hstep, Ha. reflexivity.
Defined.

End QueueFacts.

(* ================================================================== *)
(** * The gateway: [/sms-receiver] *)
(* ================================================================== *)

Module SubmitFacts.
Import Gateway Invariants GatewayFacts.

(** ** C5 *)

(** C5.  In every state the gateway can reach: a request whose payload is
    absent or empty is answered with a 400 and changes nothing; a request
    with a payload adds one record, [received], and posts the payload; and
    when that post is rejected, for whatever reason, the record becomes
    [queued], an item with the record's id, the payload, zero attempts and
    the error message is appended to the queue, the processor is started
    unless it is running already (in which case it is left as it is), and
    the caller is answered with a 202 and [{queued: true}]. *)
Theorem submit_rejects_or_queues (es : list Event) (s : State) (acts0 : list Action) :
  run initial es = Some (s, acts0) ->
  (forall req now,
     step s (Request req None now)
       = Some (s, [Respond req 400 (ErrorBody "missing payload")]) /\
     step s (Request req (Some "") now)
       = Some (s, [Respond req 400 (ErrorBody "missing payload")])) /\
  (forall req a p now,
     exists s1,
       step s (Request req (Some (String a p)) now) = Some (s1, [Post (String a p)]) /\
       messages s1 = messages s ++
         [{| msg_id := Z.of_nat (length (messages s)) + 1; msg_raw := String a p;
             msg_receivedAt := now; msg_status := received; msg_ack := None |}] /\
       retryQueue s1 = retryQueue s /\
       handlers s1 = handlers s ++
         [{| h_req := req; h_rec := length (messages s); h_payload := String a p |}]) /\
  (forall i h message,
     find_handler i (handlers s) = Some h ->
     exists m s' acts,
       messages s !! i = Some m /\ msg_status m = received /\
       step s (PostSettled i (Rejected message)) = Some (s', acts) /\
       messages s' = alter (set_status queued) i (messages s) /\
       retryQueue s' = retryQueue s ++
         [{| item_id := msg_id m; item_payload := h_payload h;
             item_attempts := 0; item_lastError := message |}] /\
       isProcessingQueue s' = true /\
       if isProcessingQueue s then
         task s' = task s /\ acts = [Respond (h_req h) 202 QueuedBody]
       else
         task s' = AwaitingPost /\
         acts = [Post (h_payload h); Respond (h_req h) 202 QueuedBody]).
Proof.
  intros Hrun.
  assert (Hc : consistent s) by (apply reachable_consistent; by exists es, acts0).
  destruct Hc as [Hids Hh Hhd Hq Hqd Hf Hi Hat].
  split_and!.
  - done.
  - intros req a p now. eexists. simpl. by split_and!.
  - intros i h message Hfind.
    pose proof Hfind as Hfind'. apply find_handler_Some in Hfind' as [Hin Hrec].
    destruct (Hh h Hin) as (m & Hm & Hst). rewrite Hrec in Hm.
    simpl. rewrite Hfind, Hm. unfold processQueue. simpl.
    destruct (isProcessingQueue s) eqn:Hflag.
    + eexists m, _, _. split_and!; try done.
    + assert (Hempty : retryQueue s = []).
      { apply Hi. destruct (task s); done. }
      unfold next_turn. simpl. rewrite Hempty. simpl.
      eexists m, _, _. split_and!; try done.
Qed.

(** The theorem applied to the gateway holding one request whose post is
    still on its way, when that post times out. *)
Lemma submit_rejects_or_queues_witness :
  exists s acts0 s',
    run initial [Request 1 (Some "SOS|ID=A") 100] = Some (s, acts0) /\
    step s (PostSettled 0 (Rejected "timeout of 5000ms exceeded"))
      = Some (s', [Post "SOS|ID=A"; Respond 1 202 QueuedBody]) /\
    map msg_status (messages s') = [queued] /\
    map item_attempts (retryQueue s') = [0].
Proof.
  destruct (run initial [Request 1 (Some "SOS|ID=A") 100]) as [[s acts0]|] eqn:Hrun;
    [|vm_compute in Hrun; discriminate].
  destruct (submit_rejects_or_queues _ _ _ Hrun) as (_ & _ & Hrej).
  pose proof Hrun as Hs. vm_compute in Hs. injection Hs as Hs _.
  destruct (Hrej 0%nat {| h_req := 1; h_rec := 0; h_payload := "SOS|ID=A" |}
              "timeout of 5000ms exceeded")
    as (m & s' & acts & Hm & _ & Hstep & Hmsgs & Hqueue & _ & Hacts).
  - by rewrite <- Hs.
  - exists s, acts0, s'. rewrite <- Hs in Hacts. simpl in Hacts.
    destruct Hacts as [_ ->]. split_and!; try done.
    + rewrite Hmsgs, <- Hs. reflexivity.
    + rewrite Hqueue, <- Hs. reflexivity.
Defined.

(** ** C10 *)

(** C10.  In every state the gateway can reach, a forward that is
    fulfilled without an ack in its body counts as a success.  On the
    first forward the record becomes [forwarded] with the ack
    ["ACK|UNKNOWN"], and the caller is answered with a 200 and that ack.
    In the retry loop the record of the head becomes [forwarded] with the
    ack ["ACK|UNKNOWN"], and the head leaves the queue. *)
Theorem missing_ack_is_unknown (es : list Event) (s : State) (acts0 : list Action) :
  run initial es = Some (s, acts0) ->
  (forall i h,
     find_handler i (handlers s) = Some h ->
     exists m s',
       messages s !! i = Some m /\
       step s (PostSettled i (Fulfilled None))
         = Some (s', [Respond (h_req h) 200 (AckBody "ACK|UNKNOWN")]) /\
       messages s' = alter (set_forwarded "ACK|UNKNOWN") i (messages s) /\
       retryQueue s' = retryQueue s) /\
  (forall item rest,
     task s = AwaitingPost -> retryQueue s = item :: rest ->
     exists j m s' acts,
       item_id item = Z.of_nat j + 1 /\ messages s !! j = Some m /\
       step s (QueuePostSettled (Fulfilled None)) = Some (s', acts) /\
       messages s' = alter (set_forwarded "ACK|UNKNOWN") j (messages s) /\
       retryQueue s' = rest).
Proof.
  intros Hrun.
  assert (Hc : consistent s) by (apply reachable_consistent; by exists es, acts0).
  destruct Hc as [Hids Hh Hhd Hq Hqd Hf Hi Hat].
  split.
  - intros i h Hfind.
    pose proof Hfind as Hfind'. apply find_handler_Some in Hfind' as [Hin Hrec].
    destruct (Hh h Hin) as (m & Hm & Hst). rewrite Hrec in Hm.
    simpl. rewrite Hfind, Hm. by eexists m, _.
  - intros item rest Htask Hqueue.
    destruct (Hq item) as (j & m & Hid & Hm & Hst).
    { rewrite Hqueue. by apply elem_of_cons; left. }
    simpl. rewrite Htask, Hqueue.
    destruct (next_turn _) as [s' acts] eqn:Hnext.
    pose proof (next_turn_fields
      (with_retryQueue rest
         (with_messages (mark_forwarded (item_id item) "ACK|UNKNOWN" (messages s)) s)))
      as (Hmsgs & Hqueue' & _).
    rewrite Hnext in Hmsgs, Hqueue'. simpl in Hmsgs, Hqueue'.
    rewrite Hid, (mark_forwarded_alter (messages s) 0 j m) in Hmsgs by done.
    by exists j, m, s', acts.
Qed.

(** The theorem applied to the gateway holding one request whose post is
    still on its way, when the backend answers without an ack. *)
Lemma missing_ack_is_unknown_witness :
  exists s acts0 s',
    run initial [Request 1 (Some "SOS|ID=A") 100] = Some (s, acts0) /\
    step s (PostSettled 0 (Fulfilled None))
      = Some (s', [Respond 1 200 (AckBody "ACK|UNKNOWN")]) /\
    map msg_status (messages s') = [forwarded] /\
    map msg_ack (messages s') = [Some "ACK|UNKNOWN"].
Proof.
  destruct (run initial [Request 1 (Some "SOS|ID=A") 100]) as [[s acts0]|] eqn:Hrun;
    [|vm_compute in Hrun; discriminate].
  destruct (missing_ack_is_unknown _ _ _ Hrun) as (Hfirst & _).
  pose proof Hrun as Hs. vm_compute in Hs. injection Hs as Hs _.
  destruct (Hfirst 0%nat {| h_req := 1; h_rec := 0; h_payload := "SOS|ID=A" |})
    as (m & s' & Hm & Hstep & Hmsgs & _).
  - by rewrite <- Hs.
  - exists s, acts0, s'. split_and!; try done.
    + rewrite Hmsgs, <- Hs. reflexivity.
    + rewrite Hmsgs, <- Hs. reflexivity.
Defined.

End SubmitFacts.

(* ================================================================== *)
(** * Doubles that hold integers *)
(* ================================================================== *)

Module DoubleFacts.
Import Js Rounding.

Lemma digits2_pos_bounds (p : positive) :
  2 ^ (Zpos (digits2_pos p) - 1) <= Zpos p < 2 ^ Zpos (digits2_pos p).
Proof.
  induction p as [p IH|p IH|]; simpl digits2_pos.
  - rewrite Pos2Z.inj_succ. change (Zpos p~1) with (2 * Zpos p + 1).
    replace (Z.succ (Zpos (digits2_pos p)) - 1) with (Z.succ (Zpos (digits2_pos p) - 1)) by lia.
    rewrite !Z.pow_succ_r by lia. lia.
  - rewrite Pos2Z.inj_succ. change (Zpos p~0) with (2 * Zpos p).
    replace (Z.succ (Zpos (digits2_pos p)) - 1) with (Z.succ (Zpos (digits2_pos p) - 1)) by lia.
    rewrite !Z.pow_succ_r by lia. lia.
  - simpl. lia.
Qed.

(** The number of binary digits is determined by the bounds. *)
Lemma digits2_pos_unique (p : positive) (d : Z) :
  2 ^ (d - 1) <= Zpos p < 2 ^ d -> Zpos (digits2_pos p) = d.
Proof.
  intros [Hlo Hhi]. pose proof (digits2_pos_bounds p) as [Hlo' Hhi'].
  assert (0 < d).
  { destruct (Z.lt_trichotomy d 0) as [Hd|[->|Hd]]; [|simpl in Hhi; lia|done].
    rewrite (Z.pow_neg_r 2 d) in Hhi by done. lia. }
  assert (Zpos (digits2_pos p) - 1 < d).
  { apply (Z.pow_lt_mono_r_iff 2); [lia|lia|]. lia. }
  assert (d - 1 < Zpos (digits2_pos p)).
  { apply (Z.pow_lt_mono_r_iff 2); [lia|lia|]. lia. }
  lia.
Qed.

Lemma iter_pos_nat {A} (f : A -> A) (p : positive) (x : A) :
  SpecFloat.iter_pos f p x = Nat.iter (Pos.to_nat p) f x.
Proof.
  revert x. induction p as [p IH|p IH|]; intros x; simpl SpecFloat.iter_pos.
  - rewrite !IH, Pos2Nat.inj_xI. 
    replace (S (2 * Pos.to_nat p)) with (Pos.to_nat p + (Pos.to_nat p + 1))%nat by lia.
    rewrite !Nat.iter_add. simpl. done.
  - rewrite !IH, Pos2Nat.inj_xO.
    replace (2 * Pos.to_nat p)%nat with (Pos.to_nat p + Pos.to_nat p)%nat by lia.
    by rewrite Nat.iter_add.
  - done.
Qed.

Lemma shr_1_spec (m : Z) (r s : bool) :
  0 <= m ->
  shr_1 {| shr_m := m; shr_r := r; shr_s := s |}
  = {| shr_m := m / 2; shr_r := Z.odd m; shr_s := r || s |}.
Proof.
  intros Hm. rewrite <- Z.div2_div. destruct m as [|[p|p|]|p]; try done; lia.
Qed.

(** Shifting [n >= 1] bits out of [p]: the quotient, the last bit shifted
    out, and whether any bit before it was set. *)
Lemma shr_iter_spec (n : nat) (p : Z) :
  0 <= p ->
  Nat.iter (S n) shr_1 {| shr_m := p; shr_r := false; shr_s := false |}
  = {| shr_m := p / 2 ^ Z.of_nat (S n);
       shr_r := Z.odd (p / 2 ^ Z.of_nat n);
       shr_s := negb (p mod 2 ^ Z.of_nat n =? 0) |}.
Proof.
  intros Hp. induction n as [|n IH].
  - rewrite Nat.iter_succ. cbn [Nat.iter nat_rect]. rewrite shr_1_spec by done.
    change (Z.of_nat 1) with 1. change (Z.of_nat 0) with 0.
    rewrite Z.pow_0_r, Z.div_1_r, Z.mod_1_r. simpl. f_equal.
  - rewrite Nat.iter_succ, IH, shr_1_spec by (apply Z.div_pos; lia).
    f_equal.
    + rewrite Z.div_div by lia. f_equal. rewrite (Nat2Z.inj_succ (S n)), Z.pow_succ_r by lia. lia.
    + rewrite (Nat2Z.inj_succ n), Z.pow_succ_r by lia.
      set (q := 2 ^ Z.of_nat n). assert (0 < q) by (apply Z.pow_pos_nonneg; lia).
      rewrite (Z.mul_comm 2 q), Z.rem_mul_r by lia.
      rewrite <- (Z.bit0_mod (p / q)), Z.bit0_odd.
      pose proof (Z.mod_pos_bound p q ltac:(lia)) as Hmod.
      destruct (Z.odd (p / q)); simpl Z.b2z; simpl orb.
      * symmetry. apply negb_true_iff, Z.eqb_neq. lia.
      * by rewrite Z.mul_0_r, Z.add_0_r.
Qed.

Lemma shr_spec (p : Z) (e : Z) (n : positive) :
  0 <= p ->
  shr {| shr_m := p; shr_r := false; shr_s := false |} e (Zpos n)
  = ({| shr_m := p / 2 ^ Zpos n;
        shr_r := Z.odd (p / 2 ^ (Zpos n - 1));
        shr_s := negb (p mod 2 ^ (Zpos n - 1) =? 0) |}, e + Zpos n).
Proof.
  intros Hp. unfold shr. rewrite iter_pos_nat.
  destruct (Pos2Nat.is_succ n) as [k Hk]. rewrite Hk, shr_iter_spec by done.
  assert (Zpos n = Z.of_nat (S k)) as -> by lia.
  replace (Z.of_nat (S k) - 1) with (Z.of_nat k) by lia. done.
Qed.

(** What rounding does after [n >= 1] bits were shifted out. *)
Lemma round_after_shr (p : Z) (e : Z) (n : positive) :
  0 <= p ->
  let mrs := fst (shr {| shr_m := p; shr_r := false; shr_s := false |} e (Zpos n)) in
  round_nearest_even (shr_m mrs) (loc_of_shr_record mrs)
  = nearest_even p (2 ^ Zpos n).
Proof.
  intros Hp. rewrite shr_spec by done. cbn [fst shr_m].
  unfold nearest_even, loc_of_shr_record, round_nearest_even.
  set (h := 2 ^ (Zpos n - 1)).
  assert (Hh : 0 < h) by (apply Z.pow_pos_nonneg; lia).
  assert (Hn : 2 ^ Zpos n = h * 2).
  { unfold h. replace (Zpos n) with (Z.succ (Zpos n - 1)) at 1 by lia.
    rewrite Z.pow_succ_r by lia. lia. }
  rewrite Hn, Z.rem_mul_r by lia.
  rewrite <- (Z.bit0_mod (p / h)), Z.bit0_odd.
  rewrite <- Z.div_div by lia.
  pose proof (Z.mod_pos_bound p h Hh) as Hmod.
  destruct (Z.odd (p / h)); simpl Z.b2z;
    destruct (Z.eqb_spec (p mod h) 0) as [E|E]; simpl negb; cbv iota.
  - rewrite E. replace (2 * (0 + h * 1) <? h * 2) with false by (symmetry; apply Z.ltb_ge; lia).
    replace (2 * (0 + h * 1) =? h * 2) with true by (symmetry; apply Z.eqb_eq; lia). done.
  - replace (2 * (p mod h + h * 1) <? h * 2) with false by (symmetry; apply Z.ltb_ge; lia).
    replace (2 * (p mod h + h * 1) =? h * 2) with false by (symmetry; apply Z.eqb_neq; lia). done.
  - rewrite E. replace (2 * (0 + h * 0) <? h * 2) with true by (symmetry; apply Z.ltb_lt; lia). done.
  - replace (2 * (p mod h + h * 0) <? h * 2) with true by (symmetry; apply Z.ltb_lt; lia). done.
Qed.

Lemma fexp_normal (x : Z) : -1021 <= x -> fexp 53 1024 x = x - 53.
Proof. intros Hx. unfold fexp, emin. lia. Qed.

Lemma Zdigits2_pow2 (k : Z) : 0 <= k -> Zdigits2 (2 ^ k) = k + 1.
Proof.
  intros Hk. assert (0 < 2 ^ k) by (apply Z.pow_pos_nonneg; lia).
  destruct (2 ^ k) as [|p|p] eqn:E; try lia.
  simpl. apply digits2_pos_unique. rewrite <- E.
  replace (k + 1 - 1) with k by lia. rewrite Z.pow_add_r by lia. lia.
Qed.

(** Rounding a positive integer of at least 53 digits at exponent [e], in
    the range of the normal numbers. *)
Lemma binary_round_aux_spec (s : bool) (p : positive) (e : Z) :
  let d := Zpos (digits2_pos p) in
  let m := nearest_even (Zpos p) (2 ^ (d - 53)) in
  53 <= d -> -1021 <= d + e -> d + e <= 1023 ->
  binary_round_aux 53 1024 s (Zpos p) e loc_Exact
  = if m <? 2 ^ 53 then S754_finite s (Z.to_pos m) (e + (d - 53))
    else S754_finite s (Z.to_pos (2 ^ 52)) (e + (d - 53) + 1).
Proof.
  intros d m Hd Hlo Hhi.
  pose proof (digits2_pos_bounds p) as Hp. fold d in Hp.
  assert (Hdd : Zpos (digits2_pos p) = d) by done.
  assert (Hmm : nearest_even (Zpos p) (2 ^ (d - 53)) = m) by done.
  clearbody m. clearbody d.
  assert (Hq : 2 ^ 52 <= Zpos p / 2 ^ (d - 53) < 2 ^ 53).
  { assert (0 < 2 ^ (d - 53)) by (apply Z.pow_pos_nonneg; lia).
    assert (2 ^ (d - 1) = 2 ^ 52 * 2 ^ (d - 53)) as E1
      by (rewrite <- Z.pow_add_r by lia; f_equal; lia).
    assert (2 ^ d = 2 ^ 53 * 2 ^ (d - 53)) as E2
      by (rewrite <- Z.pow_add_r by lia; f_equal; lia).
    split.
    - apply Z.div_le_lower_bound; lia.
    - apply Z.div_lt_upper_bound; lia. }
  assert (Hm : 2 ^ 52 <= m <= 2 ^ 53).
  { rewrite <- Hmm. unfold nearest_even.
    destruct (_ <? _); [lia|]. destruct (_ =? _); [destruct (Z.even _)|]; lia. }
  unfold binary_round_aux, shr_fexp.
  cbn [Zdigits2 shr_record_of_loc]. rewrite Hdd.
  rewrite (fexp_normal (d + e)) by lia.
  replace (d + e - 53 - e) with (d - 53) by lia.
  assert (Hfirst :
    exists mrs, shr {| shr_m := Zpos p; shr_r := false; shr_s := false |} e (d - 53)
                = (mrs, e + (d - 53)) /\
      round_nearest_even (shr_m mrs) (loc_of_shr_record mrs) = m).
  { destruct (d - 53) as [|n|n] eqn:En; [| |lia].
    - eexists. split; [simpl; f_equal; lia|].
      simpl. rewrite <- Hmm. unfold nearest_even.
      rewrite Z.pow_0_r, Z.div_1_r, Z.mod_1_r. done.
    - pose proof (round_after_shr (Zpos p) e n ltac:(lia)) as Hr.
      rewrite shr_spec in * by lia. eexists. split; [done|].
      cbn [fst] in Hr. by rewrite Hr. }
  destruct Hfirst as (mrs & -> & ->).
  destruct (Z.ltb_spec m (2 ^ 53)) as [Hlt|Hge].
  - assert (Hdm : Zdigits2 m = 53).
    { destruct m as [|pm|pm] eqn:Em; try lia. simpl.
      apply digits2_pos_unique. lia. }
    rewrite Hdm, (fexp_normal (53 + (e + (d - 53)))) by lia.
    replace (53 + (e + (d - 53)) - 53 - (e + (d - 53))) with 0 by lia.
    cbn [shr shr_m].
    destruct m as [|pm|pm] eqn:Em; try lia.
    replace (e + (d - 53) <=? 1024 - 53) with true by (symmetry; apply Z.leb_le; lia).
    done.
  - assert (m = 2 ^ 53) as -> by lia.
    rewrite (Zdigits2_pow2 53) by lia.
    rewrite (fexp_normal (53 + 1 + (e + (d - 53)))) by lia.
    replace (53 + 1 + (e + (d - 53)) - 53 - (e + (d - 53))) with 1 by lia.
    change (2 ^ 53) with 9007199254740992. cbn [shr_record_of_loc].
    rewrite shr_spec by lia. cbn [shr_m].
    change (9007199254740992 / 2 ^ 1) with 4503599627370496.
    cbn iota.
    replace (e + (d - 53) + 1 <=? 1024 - 53) with true by (symmetry; apply Z.leb_le; lia).
    done.
Qed.

Lemma Zdigits2_bounds (v : Z) :
  0 < v -> 2 ^ (Zdigits2 v - 1) <= v < 2 ^ Zdigits2 v.
Proof. destruct v as [|p|p]; try lia. intros _. apply digits2_pos_bounds. Qed.

Lemma Zdigits2_unique (v d : Z) :
  0 < v -> 2 ^ (d - 1) <= v < 2 ^ d -> Zdigits2 v = d.
Proof. destruct v as [|p|p]; try lia. intros _. apply digits2_pos_unique. Qed.

Lemma Zdigits2_small (v : Z) : 0 < v < 2 ^ 53 -> 1 <= Zdigits2 v <= 53.
Proof.
  intros Hv. pose proof (Zdigits2_bounds v ltac:(lia)) as Hb.
  destruct v as [|p|p]; try lia. simpl in *. split; [lia|].
  assert (Zpos (digits2_pos p) - 1 < 53); [|lia].
  apply (Z.pow_lt_mono_r_iff 2); lia.
Qed.

Lemma Zdigits2_shift (v k : Z) :
  0 < v -> 0 <= k -> Zdigits2 (v * 2 ^ k) = Zdigits2 v + k.
Proof.
  intros Hv Hk. pose proof (Zdigits2_bounds v Hv) as Hb.
  assert (0 < 2 ^ k) by (apply Z.pow_pos_nonneg; lia).
  assert (1 <= Zdigits2 v) by (destruct v; simpl; lia).
  apply Zdigits2_unique; [lia|].
  replace (Zdigits2 v + k - 1) with (Zdigits2 v - 1 + k) by lia.
  rewrite !Z.pow_add_r by lia. nia.
Qed.

Lemma shift_left (m t : positive) : Zpos (Pos.iter xO m t) = Zpos m * 2 ^ Zpos t.
Proof.
  pose proof (shift_pos_correct t m) as H. unfold shift_pos in H.
  rewrite H. change (Zpower_pos 2 t) with (2 ^ Zpos t). lia.
Qed.

Lemma nearest_even_exact (q n : Z) : 0 < n -> nearest_even (q * n) n = q.
Proof.
  intros Hn. unfold nearest_even. rewrite Z.div_mul, Z.mod_mul by lia.
  by replace (2 * 0 <? n) with true by (symmetry; apply Z.ltb_lt; lia).
Qed.

(** [binary_round] of an integer below 2^53 written with [k] more binary
    digits than it needs. *)
Lemma binary_round_integer (s : bool) (v k : Z) :
  0 < v < 2 ^ 53 -> 0 <= k <= 60 ->
  binary_round 53 1024 s (Z.to_pos (v * 2 ^ k)) (- k) = canonical s v.
Proof.
  intros Hv Hk. unfold binary_round, canonical.
  pose proof (Zdigits2_small v Hv) as Hd.
  assert (Hpk : 0 < 2 ^ k) by (apply Z.pow_pos_nonneg; lia).
  assert (Hvk : 0 < v * 2 ^ k) by lia.
  assert (Hdig : Zpos (digits2_pos (Z.to_pos (v * 2 ^ k))) = Zdigits2 v + k).
  { rewrite <- (Zdigits2_shift v k) by lia. destruct (v * 2 ^ k); try lia. done. }
  rewrite Hdig, fexp_normal by lia.
  set (d := Zdigits2 v) in *.
  unfold shl_align.
  destruct (d + k + - k - 53 - - k) as [|t|t] eqn:Et.
  - (* no shift either way: 53 digits already *)
    rewrite binary_round_aux_spec; rewrite ?Hdig; try lia.
    replace (d + k - 53) with 0 by lia.
    rewrite Z2Pos.id by lia.
    rewrite Z.pow_0_r.
    replace (nearest_even (v * 2 ^ k) 1) with (v * 2 ^ k)
      by (rewrite <- (Z.mul_1_r (v * 2 ^ k)) at 2; by rewrite nearest_even_exact).
    replace (v * 2 ^ k <? 2 ^ 53) with true.
    2:{ symmetry. apply Z.ltb_lt.
        pose proof (Zdigits2_bounds (v * 2 ^ k) Hvk) as Hb.
        rewrite Zdigits2_shift in Hb by lia. fold d in Hb.
        replace (d + k) with 53 in Hb by lia. lia. }
    f_equal; [|lia]. f_equal. f_equal. f_equal. lia.
  - (* more than 53 digits: the low zeros are shifted out *)
    rewrite binary_round_aux_spec; rewrite ?Hdig; try lia.
    rewrite Z2Pos.id by lia.
    assert (Hsplit : v * 2 ^ k = v * 2 ^ (53 - d) * 2 ^ (d + k - 53)).
    { rewrite <- Z.mul_assoc, <- Z.pow_add_r by lia. do 2 f_equal. lia. }
    assert (Hp2 : 0 < 2 ^ (d + k - 53)) by (apply Z.pow_pos_nonneg; lia).
    rewrite Hsplit, nearest_even_exact by lia.
    replace (v * 2 ^ (53 - d) <? 2 ^ 53) with true.
    2:{ symmetry. apply Z.ltb_lt.
        pose proof (Zdigits2_bounds v ltac:(lia)) as Hb. fold d in Hb.
        replace (2 ^ 53) with (2 ^ d * 2 ^ (53 - d))
          by (rewrite <- Z.pow_add_r by lia; f_equal; lia).
        assert (0 < 2 ^ (53 - d)) by (apply Z.pow_pos_nonneg; lia). nia. }
    f_equal. lia.
  - (* fewer than 53 digits: the mantissa is shifted left *)
    assert (Hshift : Zpos (Pos.iter xO (Z.to_pos (v * 2 ^ k)) t) = v * 2 ^ (53 - d)).
    { rewrite shift_left, Z2Pos.id by lia.
      rewrite <- Z.mul_assoc, <- Z.pow_add_r by lia. do 2 f_equal. lia. }
    assert (Hdig' : Zpos (digits2_pos (Pos.iter xO (Z.to_pos (v * 2 ^ k)) t)) = 53).
    { change (Zpos (digits2_pos ?p)) with (Zdigits2 (Zpos p)).
      rewrite Hshift, Zdigits2_shift by lia. fold d. lia. }
    rewrite binary_round_aux_spec; rewrite ?Hdig'; try lia.
    replace (53 - 53) with 0 by lia.
    rewrite Hshift.
    rewrite Z.pow_0_r.
    replace (nearest_even (v * 2 ^ (53 - d)) 1) with (v * 2 ^ (53 - d))
      by (rewrite <- (Z.mul_1_r (v * 2 ^ (53 - d))) at 2; by rewrite nearest_even_exact).
    replace (v * 2 ^ (53 - d) <? 2 ^ 53) with true.
    2:{ symmetry. apply Z.ltb_lt.
        pose proof (Zdigits2_bounds v ltac:(lia)) as Hb. fold d in Hb.
        replace (2 ^ 53) with (2 ^ d * 2 ^ (53 - d))
          by (rewrite <- Z.pow_add_r by lia; f_equal; lia).
        assert (0 < 2 ^ (53 - d)) by (apply Z.pow_pos_nonneg; lia). nia. }
    f_equal. lia.
Qed.

Lemma of_Z_pos (v : Z) : 0 < v < 2 ^ 53 -> of_Z v = canonical false v.
Proof.
  intros Hv. unfold of_Z, binary_normalize.
  destruct v as [|p|p]; try lia.
  pose proof (binary_round_integer false (Zpos p) 0 Hv ltac:(lia)) as H.
  rewrite Z.pow_0_r, Z.mul_1_r in H. exact H.
Qed.

Lemma of_Z_neg (v : Z) : 0 < v < 2 ^ 53 -> of_Z (- v) = canonical true v.
Proof.
  intros Hv. unfold of_Z, binary_normalize.
  destruct v as [|p|p]; try lia. simpl Z.opp.
  pose proof (binary_round_integer true (Zpos p) 0 Hv ltac:(lia)) as H.
  rewrite Z.pow_0_r, Z.mul_1_r in H. exact H.
Qed.

Lemma of_Z_zero : of_Z 0 = pos_zero.
Proof. reflexivity. Qed.

Lemma canonical_mantissa_bounds (v : Z) :
  0 < v < 2 ^ 53 ->
  2 ^ 52 <= v * 2 ^ (53 - Zdigits2 v) < 2 ^ 53.
Proof.
  intros Hv. pose proof (Zdigits2_small v Hv) as Hd.
  pose proof (Zdigits2_bounds v ltac:(lia)) as Hb.
  set (d := Zdigits2 v) in *.
  assert (0 < 2 ^ (53 - d)) by (apply Z.pow_pos_nonneg; lia).
  replace (2 ^ 52) with (2 ^ (d - 1) * 2 ^ (53 - d))
    by (rewrite <- Z.pow_add_r by lia; f_equal; lia).
  replace (2 ^ 53) with (2 ^ d * 2 ^ (53 - d))
    by (rewrite <- Z.pow_add_r by lia; f_equal; lia).
  nia.
Qed.

(** ** Subtraction of integers *)

Lemma shl_align_value (mx : positive) (ex ez : Z) :
  ez <= ex -> Zpos (fst (shl_align mx ex ez)) = Zpos mx * 2 ^ (ex - ez).
Proof.
  intros Hle. unfold shl_align.
  destruct (ez - ex) as [|t|t] eqn:Et; cbn [fst].
  - replace (ex - ez) with 0 by lia. lia.
  - lia.
  - rewrite shift_left. do 2 f_equal. lia.
Qed.

Lemma sub_canonical (c f : Z) :
  0 < c < 2 ^ 53 -> 0 < f < 2 ^ 53 ->
  sub (canonical false c) (canonical false f) = of_Z (c - f).
Proof.
  intros Hc Hf. unfold sub, SFsub, canonical. cbn [cond_Zopp].
  pose proof (Zdigits2_small c Hc) as Hdc. pose proof (Zdigits2_small f Hf) as Hdf.
  pose proof (canonical_mantissa_bounds c Hc) as Hmc.
  pose proof (canonical_mantissa_bounds f Hf) as Hmf.
  set (dc := Zdigits2 c) in *. set (df := Zdigits2 f) in *.
  set (ez := Z.min (dc - 53) (df - 53)).
  rewrite !shl_align_value by lia. rewrite !Z2Pos.id by lia.
  set (k := - ez). assert (Hk : 0 <= k <= 52) by lia.
  assert (Hdiff : c * 2 ^ (53 - dc) * 2 ^ (dc - 53 - ez)
                  - f * 2 ^ (53 - df) * 2 ^ (df - 53 - ez) = (c - f) * 2 ^ k).
  { rewrite <- !Z.mul_assoc, <- !Z.pow_add_r by lia.
    replace (53 - dc + (dc - 53 - ez)) with k by lia.
    replace (53 - df + (df - 53 - ez)) with k by lia. lia. }
  rewrite Hdiff. replace ez with (- k) by lia.
  assert (0 < 2 ^ k) by (apply Z.pow_pos_nonneg; lia).
  unfold binary_normalize.
  destruct (Z.lt_trichotomy c f) as [Hlt|[->|Hgt]].
  - assert (Hneg : (c - f) * 2 ^ k < 0) by (apply Z.mul_neg_pos; lia).
    assert (Hopp : (f - c) * 2 ^ k = - ((c - f) * 2 ^ k)) by ring.
    destruct ((c - f) * 2 ^ k) as [|p|p] eqn:E; try lia.
    replace p with (Z.to_pos ((f - c) * 2 ^ k)) by (by rewrite Hopp).
    rewrite binary_round_integer by lia.
    replace (c - f) with (- (f - c)) by lia. by rewrite of_Z_neg by lia.
  - by rewrite Z.sub_diag.
  - assert (Hpos : 0 < (c - f) * 2 ^ k) by (apply Z.mul_pos_pos; lia).
    destruct ((c - f) * 2 ^ k) as [|p|p] eqn:E; try lia.
    replace p with (Z.to_pos ((c - f) * 2 ^ k)) by (by rewrite E).
    rewrite binary_round_integer by lia. by rewrite of_Z_pos by lia.
Qed.

Lemma sub_integers (c f : Z) :
  0 <= c < 2 ^ 53 -> 0 <= f < 2 ^ 53 ->
  sub (of_Z c) (of_Z f) = of_Z (c - f).
Proof.
  intros Hc Hf.
  destruct (Z.eq_dec c 0) as [->|Hc0], (Z.eq_dec f 0) as [->|Hf0].
  - reflexivity.
  - rewrite of_Z_zero, of_Z_pos by lia. simpl Z.sub. by rewrite of_Z_neg by lia.
  - rewrite Z.sub_0_r, of_Z_zero, of_Z_pos by lia. reflexivity.
  - rewrite (of_Z_pos c), (of_Z_pos f) by lia. apply sub_canonical; lia.
Qed.

(** ** Comparison of integers *)

Lemma le_integer_zero (z : Z) :
  - 2 ^ 53 < z < 2 ^ 53 -> le (of_Z z) pos_zero = (z <=? 0).
Proof.
  intros Hz. destruct (Z.lt_trichotomy z 0) as [Hlt|[->|Hgt]].
  - replace z with (- - z) by lia. rewrite of_Z_neg by lia.
    replace (- - z <=? 0) with true by (symmetry; apply Z.leb_le; lia). reflexivity.
  - reflexivity.
  - rewrite of_Z_pos by lia.
    replace (z <=? 0) with false by (symmetry; apply Z.leb_gt; lia). reflexivity.
Qed.

Lemma lt_integers (a b : Z) :
  0 < a < 2 ^ 53 -> 0 <= b < 2 ^ 53 -> lt (of_Z a) (of_Z b) = (a <? b).
Proof.
  intros Ha Hb. rewrite (of_Z_pos a) by lia.
  destruct (Z.eq_dec b 0) as [->|Hb0].
  { replace (a <? 0) with false by (symmetry; apply Z.ltb_ge; lia). reflexivity. }
  rewrite (of_Z_pos b) by lia.
  pose proof (Zdigits2_small a Ha) as Hda.
  pose proof (Zdigits2_small b ltac:(lia)) as Hdb.
  pose proof (Zdigits2_bounds a ltac:(lia)) as Hba.
  pose proof (Zdigits2_bounds b ltac:(lia)) as Hbb.
  pose proof (canonical_mantissa_bounds a Ha) as Hma.
  pose proof (canonical_mantissa_bounds b ltac:(lia)) as Hmb.
  unfold lt, SFltb, SFcompare, canonical.
  set (da := Zdigits2 a) in *. set (db := Zdigits2 b) in *.
  destruct (Z.compare_spec (da - 53) (db - 53)) as [E|E|E].
  - assert (da = db) as Hd by lia. rewrite Hd in *.
    change (Pos.compare_cont Eq ?x ?y) with (Pos.compare x y).
    rewrite <- Z2Pos.inj_compare by lia.
    assert (0 < 2 ^ (53 - db)) by (apply Z.pow_pos_nonneg; lia).
    destruct (Z.compare_spec (a * 2 ^ (53 - db)) (b * 2 ^ (53 - db))) as [E'|E'|E'];
      symmetry; [apply Z.ltb_ge|apply Z.ltb_lt|apply Z.ltb_ge]; nia.
  - symmetry. apply Z.ltb_lt.
    assert (2 ^ da <= 2 ^ (db - 1)) by (apply Z.pow_le_mono_r; lia). lia.
  - symmetry. apply Z.ltb_ge.
    assert (2 ^ db <= 2 ^ (da - 1)) by (apply Z.pow_le_mono_r; lia). lia.
Qed.

(** The double nearest to 0.2; five times its mantissa is 2^55 + 2. *)
Lemma one_fifth : decimal 2 1 = S754_finite false 7205759403792794 (-55).
Proof. vm_compute. reflexivity. Qed.

Lemma nearest_even_bounds (p n : Z) :
  0 <= p -> 0 < n ->
  2 * p - n <= 2 * (n * nearest_even p n) <= 2 * p + n.
Proof.
  intros Hp Hn. unfold nearest_even.
  pose proof (Z.div_mod p n ltac:(lia)) as Hdiv.
  pose proof (Z.mod_pos_bound p n Hn) as Hmod.
  destruct (Z.ltb_spec (2 * (p mod n)) n); [lia|].
  destruct (Z.eqb_spec (2 * (p mod n)) n); [destruct (Z.even _)|]; lia.
Qed.

(** The arithmetic of [capacity * 0.2]: [x = c * a] is the 53-digit
    mantissa of [c], [m] is the product of [x] and the mantissa of 0.2
    rounded to the nearest multiple of [n], and [q * a] is the weight of
    one unit of the result; [m] then lies in the last [q * a] units up to
    [ceil (c / 5)]. *)
Lemma fifth_rounded (c a t m n q : Z) :
  1 <= a -> 2 ^ 52 <= c * a < 2 ^ 53 -> t = (c + 4) / 5 ->
  (n = 2 ^ 52 /\ q = 8 /\ c * a * 7205759403792794 < 2 ^ 105) \/
  (n = 2 ^ 53 /\ q = 4) ->
  2 * (c * a * 7205759403792794) - n <= 2 * (n * m)
    <= 2 * (c * a * 7205759403792794) + n ->
  (t - 1) * (q * a) < m <= t * (q * a).
Proof.
  intros Ha Hx Ht Hcase Hm.
  assert (Hc : 5 * t - 4 <= c <= 5 * t).
  { pose proof (Z.div_mod (c + 4) 5 ltac:(lia)).
    pose proof (Z.mod_pos_bound (c + 4) 5 ltac:(lia)). lia. }
  assert (Hy : 5 * (t * a) - 4 * a <= c * a <= 5 * (t * a)).
  { split.
    - replace (5 * (t * a) - 4 * a) with ((5 * t - 4) * a) by ring.
      apply Z.mul_le_mono_nonneg_r; lia.
    - replace (5 * (t * a)) with (5 * t * a) by ring.
      apply Z.mul_le_mono_nonneg_r; lia. }
  assert (Hy' : c * a = 5 * (t * a) \/ c * a <= 5 * (t * a) - a).
  { destruct (Z.eq_dec c (5 * t)) as [->|Hne]; [left; ring|right].
    replace (5 * (t * a) - a) with ((5 * t - 1) * a) by ring.
    apply Z.mul_le_mono_nonneg_r; lia. }
  set (x := c * a) in *. set (y := t * a) in *.
  replace ((t - 1) * (q * a)) with (q * y - q * a) by (unfold y; ring).
  replace (t * (q * a)) with (q * y) by (unfold y; ring).
  clearbody x y. clear Hc Ht.
  change (2 ^ 52) with 4503599627370496 in *.
  change (2 ^ 53) with 9007199254740992 in *.
  change (2 ^ 105) with 40564819207303340847894502572032 in *.
  destruct Hcase as [(-> & -> & Hp)|(-> & ->)]; destruct Hy'.
  - lia.
  - lia.
  - lia.
  - lia.
Qed.

(** [ceil (m / w) = t] when [m] lies in the last [w] units up to [t * w]. *)
Lemma ceil_div_unique (m w t : Z) :
  0 < w -> (t - 1) * w < m <= t * w -> (m + w - 1) / w = t.
Proof.
  intros Hw Hm. symmetry. apply (Z.div_unique _ _ _ (m + w - 1 - w * t)); lia.
Qed.

(** [Math.ceil(capacity * 0.2)] is the least integer not below a fifth of
    the capacity, for every capacity that is a safe integer. *)
Lemma ceil_fifth_double (c : Z) :
  0 <= c < 2 ^ 53 ->
  Math_ceil (mul (of_Z c) (decimal 2 1)) = of_Z ((c + 4) / 5).
Proof.
  intros Hc. destruct (Z.eq_dec c 0) as [->|Hc0]; [reflexivity|].
  rewrite of_Z_pos, one_fifth by lia.
  pose proof (Zdigits2_small c ltac:(lia)) as Hdc.
  pose proof (canonical_mantissa_bounds c ltac:(lia)) as Hmc.
  unfold mul, SFmul, canonical, prec, emax. cbn [xorb].
  set (dc := Zdigits2 c) in *. set (a := 2 ^ (53 - dc)) in *.
  assert (Ha : 1 <= a).
  { unfold a. assert (0 < 2 ^ (53 - dc)) by (apply Z.pow_pos_nonneg; lia). lia. }
  set (P := (Z.to_pos (c * a) * 7205759403792794)%positive).
  assert (HP : Zpos P = c * a * 7205759403792794).
  { unfold P. rewrite Pos2Z.inj_mul, Z2Pos.id by lia. done. }
  pose proof (digits2_pos_bounds P) as Hd. rewrite HP in Hd.
  set (d := Zpos (digits2_pos P)) in *.
  assert (Hd' : d = 105 \/ d = 106).
  { change (2 ^ 52) with 4503599627370496 in Hmc.
    change (2 ^ 53) with 9007199254740992 in Hmc.
    assert (2 ^ 104 <= c * a * 7205759403792794 < 2 ^ 106)
      by (change (2 ^ 104) with 20282409603651670423947251286016;
          change (2 ^ 106) with 81129638414606681695789005144064; lia).
    assert (d - 1 < 106) by (apply (Z.pow_lt_mono_r_iff 2); lia).
    assert (104 < d) by (apply (Z.pow_lt_mono_r_iff 2); lia).
    lia. }
  rewrite binary_round_aux_spec; fold d; try lia.
  rewrite HP.
  set (n := 2 ^ (d - 53)).
  set (m := nearest_even (c * a * 7205759403792794) n).
  assert (Hn : 0 < n) by (apply Z.pow_pos_nonneg; lia).
  pose proof (nearest_even_bounds (c * a * 7205759403792794) n ltac:(lia) Hn) as Hm.
  fold m in Hm.
  set (t := (c + 4) / 5).
  set (q := 2 ^ (108 - d)).
  assert (Hw : 2 ^ (161 - dc - d) = q * a).
  { unfold q, a. rewrite <- Z.pow_add_r by lia. f_equal. lia. }
  assert (Hcore : (t - 1) * (q * a) < m <= t * (q * a)).
  { apply (fifth_rounded c a t m n q); try done.
    destruct Hd' as [E|E]; [left|right]; unfold n, q; rewrite E in *.
    - split_and!; try done. lia.
    - done. }
  assert (Hq : q = 8 \/ q = 4).
  { unfold q. destruct Hd' as [-> | ->]; [by left|by right]. }
  assert (Hm0 : 0 < m).
  { assert (1 <= t).
    { unfold t. apply Z.div_le_lower_bound; lia. }
    assert (0 <= (t - 1) * (q * a)) by (apply Z.mul_nonneg_nonneg; lia).
    lia. }
  destruct (Z.ltb_spec m (2 ^ 53)) as [Hlt|Hge]; unfold Math_ceil.
  - replace (0 <=? dc - 53 + -55 + (d - 53)) with false by (symmetry; apply Z.leb_gt; lia).
    f_equal. rewrite Z2Pos.id by done.
    replace (- (dc - 53 + -55 + (d - 53))) with (161 - dc - d) by lia.
    rewrite Hw. apply ceil_div_unique; [lia|done].
  - replace (0 <=? dc - 53 + -55 + (d - 53) + 1) with false
      by (symmetry; apply Z.leb_gt; lia).
    f_equal. rewrite Z2Pos.id by done.
    replace (- (dc - 53 + -55 + (d - 53) + 1)) with (160 - dc - d) by lia.
    assert (Hw' : 2 * 2 ^ (160 - dc - d) = q * a).
    { rewrite <- Hw. replace (161 - dc - d) with (Z.succ (160 - dc - d)) by lia.
      rewrite Z.pow_succ_r by lia. done. }
    assert (0 < 2 ^ (160 - dc - d)) by (apply Z.pow_pos_nonneg; lia).
    assert (Hle : m <= 2 ^ 53).
    { assert (Hnd : 2 ^ d = 2 ^ 53 * n)
        by (unfold n; rewrite <- Z.pow_add_r by lia; f_equal; lia).
      assert (n * (2 * m) < n * (2 * 2 ^ 53 + 1)) by lia.
      assert (2 * m < 2 * 2 ^ 53 + 1) by (by apply (Z.mul_lt_mono_pos_l n)).
      lia. }
    rewrite <- Hw' in Hcore.
    change (2 ^ 53) with 9007199254740992 in Hge, Hle.
    change (2 ^ 52) with 4503599627370496.
    apply ceil_div_unique; [done|]. lia.
Qed.

End DoubleFacts.

(* ================================================================== *)
(** * The backend: capacity status *)
(* ================================================================== *)

Module CapacityFacts.
Import Js Backend DoubleFacts.

Lemma classify_integers (capacity filled : Z) :
  0 <= capacity < 2 ^ 53 -> 0 <= filled < 2 ^ 53 ->
  classify (of_Z capacity) (of_Z filled) = Spec.capacityStatus capacity filled.
Proof.
  intros Hc Hf. unfold classify, Spec.capacityStatus, Spec.ceil_fifth.
  rewrite sub_integers, le_integer_zero, ceil_fifth_double by lia.
  destruct (Z.leb_spec (capacity - filled) 0) as [Hle|Hgt]; [done|].
  rewrite lt_integers; [done|lia|].
  split; [apply Z.div_pos; lia|].
  apply Z.div_lt_upper_bound; lia.
Qed.

(** The website colours a base by the same test. *)
Lemma colorForCapacity_classify (capacity filled : Number) :
  colorForCapacity capacity filled =
    match classify capacity filled with
    | FULL => red
    | NEARLY_FULL => yellow
    | AVAILABLE => green
    end.
Proof.
  unfold colorForCapacity, classify.
  destruct (le _ _); [done|]. by destruct (lt _ _).
Qed.

(** ** C2 *)

(** C2, as the code has it.  For a nearest base whose capacity and filled
    are integers from 0 up to, but not including, 2^53, the capacity
    status depends on the two only, and with [free = capacity - filled]
    it is FULL if [free <= 0], else NEARLY_FULL if [free] is below the
    least integer not below a fifth of the capacity, else AVAILABLE. *)
Theorem capacity_status_three_way (b : SafeBase) :
  0 <= base_capacity b < 2 ^ 53 -> 0 <= base_filled b < 2 ^ 53 ->
  capacityStatus (Some b) =
    (let free := base_capacity b - base_filled b in
     if free <=? 0 then FULL
     else if free <? (base_capacity b + 4) / 5 then NEARLY_FULL
     else AVAILABLE) /\
  5 * ((base_capacity b + 4) / 5 - 1) < base_capacity b <= 5 * ((base_capacity b + 4) / 5).
Proof.
  intros Hc Hf. split.
  - unfold capacityStatus. by rewrite classify_integers.
  - pose proof (Z.div_mod (base_capacity b + 4) 5 ltac:(lia)).
    pose proof (Z.mod_pos_bound (base_capacity b + 4) 5 ltac:(lia)). lia.
Qed.

(** The theorem applied to BASE_SATHYA: 10 free places of 80, below the 16
    that a fifth of the capacity makes. *)
Lemma capacity_status_three_way_witness :
  0 <= 80 < 2 ^ 53 /\ 0 <= 70 < 2 ^ 53 /\
  capacityStatus (Some BASE_SATHYA) = NEARLY_FULL /\ (80 + 4) / 5 = 16.
Proof.
  destruct (capacity_status_three_way BASE_SATHYA) as [Hst _];
    [simpl; lia|simpl; lia|].
  split; [lia|]. split; [lia|]. split; [|reflexivity].
  rewrite Hst. reflexivity.
Defined.

(** C2 as stated fails beyond 2^53: a capacity of 2^53 + 1 reaches
    JavaScript as 2^53, so with 2^53 places filled the base is classified
    FULL, although one place is free and the three-way test on the
    integers says NEARLY_FULL. *)
Lemma capacity_beyond_safe_integers :
  base_capacity Scenario.vast = 2 ^ 53 + 1 /\
  base_filled Scenario.vast = 2 ^ 53 /\
  capacityStatus (Some Scenario.vast) = FULL /\
  Spec.capacityStatus (base_capacity Scenario.vast) (base_filled Scenario.vast)
  = NEARLY_FULL.
Proof. repeat split; vm_compute; reflexivity. Qed.

End CapacityFacts.

(* ================================================================== *)
(** * The backend: the distance in the ack *)
(* ================================================================== *)

Module DistanceFacts.
Import Js Backend.

Lemma all_digits_uint (d : Decimal.uint) :
  Spec.all_digits (NilEmpty.string_of_uint d) = true.
Proof. induction d; simpl; done. Qed.

Lemma digits_of_numeral (n : Z) :
  digits_of n <> "" /\ Spec.all_digits (digits_of n) = true.
Proof.
  unfold digits_of, NilZero.string_of_uint.
  destruct (N.to_uint (Z.to_N n)) as [|d|d|d|d|d|d|d|d|d|d] eqn:E; [done|..];
    (split; [done|]); rewrite <- E at 1; rewrite E; apply all_digits_uint.
Qed.

Lemma digit_char_digit (d : Z) : 0 <= d <= 9 -> is_digit (digit_char d) = true.
Proof.
  intros Hd.
  assert (d = 0 \/ d = 1 \/ d = 2 \/ d = 3 \/ d = 4 \/ d = 5 \/ d = 6 \/ d = 7 \/
          d = 8 \/ d = 9) as H by lia.
  repeat destruct H as [->|H]; try reflexivity. by subst.
Qed.

Lemma fixed2_two_decimals (neg : bool) (n : Z) :
  Spec.two_decimals ((if neg then "-" else "") +:+ fixed2 n).
Proof.
  exists neg, (digits_of (n / 100)), (digit_char ((n / 10) mod 10)), (digit_char (n mod 10)).
  destruct (digits_of_numeral (n / 100)) as [Hne Hall].
  split_and!; try done.
  - apply digit_char_digit. pose proof (Z.mod_pos_bound (n / 10) 10). lia.
  - apply digit_char_digit. pose proof (Z.mod_pos_bound n 10). lia.
Qed.

(** A finite Number of magnitude below 10^21 is printed with exactly two
    decimals. *)
Lemma toFixed2_two_decimals `{Host} (x : Number) :
  match x with
  | S754_zero _ => True
  | S754_finite _ m e => below_1e21 m e = true
  | _ => False
  end ->
  Spec.two_decimals (toFixed2 x).
Proof.
  destruct x as [s|s| |s m e]; try done.
  - intros _. by exists false, "0", "0"%char, "0"%char.
  - intros Hb. unfold toFixed2. rewrite Hb. apply fixed2_two_decimals.
Qed.

(** Whenever the distance kept by the scan is a finite Number of
    magnitude below 10^21, the ack carries it with exactly two decimals. *)
Lemma ack_distance_two_decimals `{Host} (nearest : option SafeBase)
    (minD : Number) (status : Capacity) :
  match minD with
  | S754_zero _ => True
  | S754_finite _ m e => below_1e21 m e = true
  | _ => False
  end ->
  exists dist,
    Spec.two_decimals dist /\
    ack_text nearest minD status =
      "ACK|SAFEBASE=" +:+ match nearest with Some b => base_id b | None => "NONE" end
      +:+ "|DIST=" +:+ dist +:+ "KM|CAPACITY=" +:+ capacity_text status.
Proof.
  intros Hd. exists (toFixed2 minD). split; [by apply toFixed2_two_decimals|done].
Qed.

End DistanceFacts.

(* ================================================================== *)
(** * The gateway: the books are kept *)
(* ================================================================== *)

Module LedgerFacts.
Import Gateway Invariants GatewayFacts Ledger.

Lemma accounted_initial : accounted initial.
Proof.
  split; simpl; try done.
  - intros item Hitem. by apply elem_of_nil in Hitem.
  - intros h Hh. by apply elem_of_nil in Hh.
Qed.

(** Changing where the processor stands does not touch the books. *)
Lemma accounted_with_task (s : State) (flag : bool) (t : Task) :
  accounted s -> accounted (with_task flag t s).
Proof. intros []. by split. Qed.

Lemma accounted_next_turn (s : State) : accounted s -> accounted (next_turn s).1.
Proof.
  intros Ha. unfold next_turn. destruct (retryQueue s); simpl; by apply accounted_with_task.
Qed.

Lemma accounted_processQueue (s : State) : accounted s -> accounted (processQueue s).1.
Proof.
  intros Ha. unfold processQueue. destruct (isProcessingQueue s); [done|].
  by apply accounted_next_turn, accounted_with_task.
Qed.

Lemma step_accounted (s : State) (e : Event) (s' : State) (acts : list Action) :
  consistent s -> accounted s -> step s e = Some (s', acts) -> accounted s'.
Proof.
  intros Hc Ha Hstep.
  destruct Hc as [Hids Hh Hhd Hq Hqd Hf Hi Hat].
  pose proof Ha as [Hqi Hir Hhr Hne Hack].
  destruct e as [req payload now|i r|r|]; simpl in Hstep.
  - (* Request *)
    destruct payload as [[|a p]|]; simplify_eq; [done| |done].
    split; simpl.
    + intros i m Hm Hst. apply lookup_app_Some in Hm as [Hm|[_ Hm]]; [by eapply Hqi|].
      apply list_lookup_singleton_Some in Hm as [_ <-]. done.
    + intros item Hin. destruct (Hir item Hin) as (i & m & Hid & Hm & Hraw).
      exists i, m. split_and!; try done. by apply lookup_app_l_Some.
    + intros h Hin. apply elem_of_app in Hin as [Hin|Hin].
      * destruct (Hhr h Hin) as (m & Hm & Hraw). exists m. split; [|done].
        by apply lookup_app_l_Some.
      * apply list_elem_of_singleton in Hin as ->. simpl. eexists. split.
        { rewrite lookup_app_r by lia. by rewrite Nat.sub_diag. }
        done.
    + intros i m Hm. apply lookup_app_Some in Hm as [Hm|[_ Hm]]; [by eapply Hne|].
      by apply list_lookup_singleton_Some in Hm as [_ <-].
    + intros i m Hm. apply lookup_app_Some in Hm as [Hm|[_ Hm]]; [by eapply Hack|].
      apply list_lookup_singleton_Some in Hm as [_ <-]. simpl. split; [done|].
      intros [? ?]. done.
  - (* PostSettled *)
    destruct (find_handler i (handlers s)) as [h|] eqn:Hfind; [|done].
    destruct (messages s !! i) as [rec|] eqn:Hrec; [|done].
    apply find_handler_Some in Hfind as [Hin Hrec_h]. subst i.
    destruct (Hh h Hin) as (m & Hm & Hst). rewrite Hrec in Hm. injection Hm as <-.
    destruct (Hhr h Hin) as (m' & Hm' & Hraw). rewrite Hrec in Hm'. injection Hm' as <-.
    destruct r as [a|message].
    + simplify_eq. split; simpl.
      * intros i m0 Hm0 Hst0. destruct (decide (h_rec h = i)) as [<-|Hneq].
        -- rewrite list_lookup_alter_eq, Hrec in Hm0. simpl in Hm0. by simplify_eq.
        -- rewrite list_lookup_alter_ne in Hm0 by done. by eapply Hqi.
      * intros item Hitem. destruct (Hir item Hitem) as (i & m0 & Hid & Hm0 & Hraw0).
        destruct (decide (h_rec h = i)) as [<-|Hneq].
        -- exists (h_rec h), (set_forwarded (ack_or_unknown a) m0).
           rewrite list_lookup_alter_eq, Hm0. done.
        -- exists i, m0. by rewrite list_lookup_alter_ne.
      * intros h' Hh'. apply elem_of_drop_handler in Hh' as [Hh' Hneq].
        destruct (Hhr h' Hh') as (m0 & Hm0 & Hraw0). exists m0.
        by rewrite list_lookup_alter_ne.
      * intros i m0 Hm0. destruct (decide (h_rec h = i)) as [<-|Hneq].
        -- rewrite list_lookup_alter_eq, Hrec in Hm0. simpl in Hm0. simplify_eq.
           simpl. by eapply Hne.
        -- rewrite list_lookup_alter_ne in Hm0 by done. by eapply Hne.
      * intros i m0 Hm0. destruct (decide (h_rec h = i)) as [<-|Hneq].
        -- rewrite list_lookup_alter_eq, Hrec in Hm0. simpl in Hm0. simplify_eq.
           simpl. split; [by eexists|done].
        -- rewrite list_lookup_alter_ne in Hm0 by done. by eapply Hack.
    + set (item := {| item_id := msg_id rec; item_payload := h_payload h;
                      item_attempts := 0; item_lastError := message |}) in *.
      destruct (processQueue _) as [s3 acts3] eqn:Hpq. simplify_eq.
      replace s' with (processQueue
        (with_retryQueue (retryQueue s ++ [item])
           (with_messages (alter (set_status queued) (h_rec h) (messages s))
              (with_handlers (drop_handler (h_rec h) (handlers s)) s)))).1
        by (by rewrite Hpq).
      apply accounted_processQueue. split; simpl.
      * intros i m0 Hm0 Hst0. destruct (decide (h_rec h = i)) as [<-|Hneq].
        -- rewrite list_lookup_alter_eq, Hrec in Hm0. simpl in Hm0. simplify_eq.
           exists item. split; [|done]. apply elem_of_app. right. by apply list_elem_of_singleton.
        -- rewrite list_lookup_alter_ne in Hm0 by done.
           destruct (Hqi i m0 Hm0 Hst0) as (it & Hit & Hid). exists it.
           split; [|done]. apply elem_of_app. by left.
      * intros it Hit. apply elem_of_app in Hit as [Hit|Hit].
        -- destruct (Hir it Hit) as (i & m0 & Hid & Hm0 & Hraw0).
           destruct (decide (h_rec h = i)) as [<-|Hneq].
           ++ exists (h_rec h), (set_status queued m0).
              rewrite list_lookup_alter_eq, Hm0. done.
           ++ exists i, m0. by rewrite list_lookup_alter_ne.
        -- apply list_elem_of_singleton in Hit as ->.
           exists (h_rec h), (set_status queued rec). simpl.
           rewrite list_lookup_alter_eq, Hrec. split_and!; try done. by apply Hids.
      * intros h' Hh'. apply elem_of_drop_handler in Hh' as [Hh' Hneq].
        destruct (Hhr h' Hh') as (m0 & Hm0 & Hraw0). exists m0.
        by rewrite list_lookup_alter_ne.
      * intros i m0 Hm0. destruct (decide (h_rec h = i)) as [<-|Hneq].
        -- rewrite list_lookup_alter_eq, Hrec in Hm0. simpl in Hm0. simplify_eq.
           simpl. by eapply Hne.
        -- rewrite list_lookup_alter_ne in Hm0 by done. by eapply Hne.
      * intros i m0 Hm0. destruct (decide (h_rec h = i)) as [<-|Hneq].
        -- rewrite list_lookup_alter_eq, Hrec in Hm0. simpl in Hm0. simplify_eq.
           simpl. rewrite <- (Hack _ _ Hrec). rewrite Hst. done.
        -- rewrite list_lookup_alter_ne in Hm0 by done. by eapply Hack.
  - (* QueuePostSettled *)
    destruct (task s) eqn:Htask; try done.
    destruct (retryQueue s) as [|item rest] eqn:Hqueue; [done|].
    destruct r as [a|message].
    + destruct (Hq item ltac:(by apply elem_of_cons; left)) as (j & m & Hid & Hm & Hst).
      assert (Hmark : mark_forwarded (item_id item) (ack_or_unknown a) (messages s)
                      = alter (set_forwarded (ack_or_unknown a)) j (messages s)).
      { rewrite Hid. apply (mark_forwarded_alter (messages s) 0 j m); done. }
      simpl in Hqd. apply NoDup_cons in Hqd as [Hnotin Hqd].
      simplify_eq.
      lazymatch type of Hstep with
      | next_turn ?s1 = _ => replace s' with (next_turn s1).1 by (by rewrite Hstep)
      end.
      apply accounted_next_turn. rewrite Hmark. split; simpl.
      * intros i m0 Hm0 Hst0. destruct (decide (j = i)) as [<-|Hneq].
        -- rewrite list_lookup_alter_eq, Hm in Hm0. simpl in Hm0. by simplify_eq.
        -- rewrite list_lookup_alter_ne in Hm0 by done.
           destruct (Hqi i m0 Hm0 Hst0) as (it & Hit & Hid').
           exists it. split; [|done].
           apply elem_of_cons in Hit as [->|Hit]; [|done].
           rewrite (Hids _ _ Hm0) in Hid'. lia.
      * intros it Hit.
        destruct (Hir it ltac:(by apply elem_of_cons; right)) as (i & m0 & Hid' & Hm0 & Hraw0).
        destruct (decide (j = i)) as [<-|Hneq].
        -- exists j, (set_forwarded (ack_or_unknown a) m0).
           rewrite list_lookup_alter_eq, Hm0. done.
        -- exists i, m0. by rewrite list_lookup_alter_ne.
      * intros h Hin. destruct (Hhr h Hin) as (m0 & Hm0 & Hraw0).
        destruct (decide (j = h_rec h)) as [Heq|Hneq].
        -- subst j. exists (set_forwarded (ack_or_unknown a) m0).
           rewrite list_lookup_alter_eq, Hm0. done.
        -- exists m0. by rewrite list_lookup_alter_ne.
      * intros i m0 Hm0. destruct (decide (j = i)) as [<-|Hneq].
        -- rewrite list_lookup_alter_eq, Hm in Hm0. simpl in Hm0. simplify_eq.
           simpl. by eapply Hne.
        -- rewrite list_lookup_alter_ne in Hm0 by done. by eapply Hne.
      * intros i m0 Hm0. destruct (decide (j = i)) as [<-|Hneq].
        -- rewrite list_lookup_alter_eq, Hm in Hm0. simpl in Hm0. simplify_eq.
           simpl. split; [by eexists|done].
        -- rewrite list_lookup_alter_ne in Hm0 by done. by eapply Hack.
    + simplify_eq. split; simpl; try done.
      * intros i m0 Hm0 Hst0. destruct (Hqi i m0 Hm0 Hst0) as (it & Hit & Hid').
        apply elem_of_cons in Hit as [->|Hit].
        -- exists (failed_attempt message item). split; [by apply elem_of_cons; left|done].
        -- exists it. split; [by apply elem_of_cons; right|done].
      * intros it Hit. apply elem_of_cons in Hit as [->|Hit].
        -- apply (Hir item). by apply elem_of_cons; left.
        -- apply Hir. by apply elem_of_cons; right.
  - (* TimerFired *)
    destruct (task s) eqn:Htask; try done. simplify_eq.
    replace s' with (next_turn s).1 by (by rewrite Hstep).
    by apply accounted_next_turn.
Qed.

Lemma run_accounted (es : list Event) (s s' : State) (acts : list Action) :
  consistent s -> accounted s -> run s es = Some (s', acts) -> accounted s'.
Proof.
  revert s acts. induction es as [|e es IH]; intros s acts Hc Ha Hrun; simpl in Hrun.
  - by simplify_eq.
  - destruct (step s e) as [[s1 acts1]|] eqn:Hstep; [|done].
    destruct (run s1 es) as [[s2 acts2]|] eqn:Hrest; [|done].
    simplify_eq. eapply IH; [| |done].
    + by eapply step_consistent.
    + by eapply step_accounted.
Qed.

Lemma reachable_accounted (s : State) : reachable s -> accounted s.
Proof.
  intros (es & acts & Hrun).
  eapply run_accounted; [apply consistent_initial|apply accounted_initial|done].
Qed.

End LedgerFacts.

(* ================================================================== *)
(** * The gateway: what [/messages] shows *)
(* ================================================================== *)

Module MessagesFacts.
Import Gateway Invariants GatewayFacts Ledger LedgerFacts Listing.

Lemma NoDup_msg_ids (s : State) : consistent s -> NoDup (map msg_id (messages s)).
Proof.
  intros Hc. apply NoDup_alt. intros i j x Hi Hj.
  rewrite list_lookup_fmap in Hi, Hj.
  destruct (messages s !! i) as [mi|] eqn:Ei; [|done].
  destruct (messages s !! j) as [mj|] eqn:Ej; [|done].
  simpl in Hi, Hj. simplify_eq.
  pose proof (ids_by_position s Hc i mi Ei). pose proof (ids_by_position s Hc j mj Ej). lia.
Qed.

(** X1.  Whatever has happened, the [queueSize] that [/messages] reports
    is the number of records it lists with the status [queued]: every
    queued record has exactly one item in the retry queue, and the queue
    holds nothing else. *)
Theorem queue_size_counts_queued (es : list Event) (s : State) (acts : list Action) :
  run initial es = Some (s, acts) ->
  snd (get_messages s)
  = Z.of_nat (length (filter (fun m => msg_status m = queued) (fst (get_messages s)))).
Proof.
  intros Hrun. assert (Hr : reachable s) by (by exists es, acts).
  pose proof (reachable_consistent s Hr) as Hc.
  pose proof (reachable_accounted s Hr) as Ha.
  unfold get_messages. cbn [fst snd]. f_equal.
  rewrite <- (length_map item_id),
    <- (length_map msg_id (filter (fun m => msg_status m = queued) (messages s))).
  apply Permutation_length, NoDup_Permutation.
  - apply (items_distinct s Hc).
  - eapply sublist_NoDup; [apply (NoDup_msg_ids s Hc)|].
    apply fmap_sublist, sublist_filter.
  - intros x. rewrite !list_elem_of_fmap. split.
    + intros (item & -> & Hitem).
      destruct (items_are_queued s Hc item Hitem) as (i & m & Hid & Hm & Hst).
      exists m. split; [by rewrite (ids_by_position s Hc i m Hm)|].
      apply list_elem_of_filter. split; [done|]. by eapply list_elem_of_lookup_2.
    + intros (m & -> & Hm). apply list_elem_of_filter in Hm as [Hst Hm].
      apply list_elem_of_lookup in Hm as [i Hm].
      destruct (queued_have_items s Ha i m Hm Hst) as (item & Hitem & Hid).
      by exists item.
Qed.

(** The theorem applied to the gateway with two queued messages. *)
Lemma queue_size_counts_queued_witness :
  exists s acts,
    run initial Scenario.two_queued = Some (s, acts) /\
    snd (get_messages s) = 2 /\
    map msg_status (fst (get_messages s)) = [queued; queued].
Proof.
  destruct (run initial Scenario.two_queued) as [[s acts]|] eqn:Hrun;
    [|vm_compute in Hrun; discriminate].
  pose proof (queue_size_counts_queued _ _ _ Hrun) as Hsize.
  exists s, acts. split; [done|].
  vm_compute in Hrun. injection Hrun as <- _.
  split; [rewrite Hsize|]; reflexivity.
Defined.

(** X2.  Whatever has happened, a record that [/messages] lists has an
    [ack] exactly if its status is [forwarded]: no record is forwarded
    without an ack, and none that is received or queued carries one. *)
Theorem ack_set_iff_forwarded (es : list Event) (s : State) (acts : list Action)
    (m : Message) :
  run initial es = Some (s, acts) ->
  m ∈ fst (get_messages s) ->
  (msg_status m = forwarded <-> exists ack, msg_ack m = Some ack).
Proof.
  intros Hrun Hm. assert (Hr : reachable s) by (by exists es, acts).
  apply list_elem_of_lookup in Hm as [i Hm].
  apply (ack_iff_forwarded s (reachable_accounted s Hr) i m Hm).
Qed.

(** The theorem applied to a queued record: it has no ack. *)
Lemma ack_set_iff_forwarded_witness :
  exists s acts m,
    run initial Scenario.two_queued = Some (s, acts) /\
    m ∈ fst (get_messages s) /\ msg_raw m = "SOS|ID=A" /\ msg_ack m = None.
Proof.
  destruct (run initial Scenario.two_queued) as [[s acts]|] eqn:Hrun;
    [|vm_compute in Hrun; discriminate].
  pose proof Hrun as Hs. vm_compute in Hs. injection Hs as Hs _.
  set (m := {| msg_id := 1; msg_raw := "SOS|ID=A"; msg_receivedAt := 100;
               msg_status := queued; msg_ack := None |}).
  assert (Hm : m ∈ fst (get_messages s)).
  { rewrite <- Hs. by apply elem_of_cons; left. }
  pose proof (ack_set_iff_forwarded _ _ _ m Hrun Hm) as Hiff.
  by exists s, acts, m.
Defined.

End MessagesFacts.

(* ================================================================== *)
(** * The gateway: what is forwarded *)
(* ================================================================== *)

Module ForwardFacts.
Import Gateway Invariants GatewayFacts Ledger LedgerFacts.

(** An item of the queue stands for a record that is [queued] and holds
    the item's payload. *)
Lemma item_record (s : State) (item : RetryItem) :
  consistent s -> accounted s -> item ∈ retryQueue s ->
  exists i m, item_id item = Z.of_nat i + 1 /\ messages s !! i = Some m /\
              msg_raw m = item_payload item /\ msg_status m = queued.
Proof.
  intros Hc Ha Hitem.
  destruct (items_are_queued s Hc item Hitem) as (i & m & Hid & Hm & Hst).
  destruct (items_carry_raw s Ha item Hitem) as (i' & m' & Hid' & Hm' & Hraw).
  assert (i' = i) by lia. subst i'. rewrite Hm in Hm'. injection Hm' as <-.
  by exists i, m.
Qed.

(** The loop posts nothing but the payload of the head. *)
Lemma next_turn_posts (s : State) (a : Action) :
  a ∈ (next_turn s).2 ->
  exists item rest, retryQueue s = item :: rest /\ a = Post (item_payload item).
Proof.
  unfold next_turn. destruct (retryQueue s) as [|item rest]; simpl.
  - intros Hin. by apply elem_of_nil in Hin.
  - intros Hin. apply list_elem_of_singleton in Hin. by exists item, rest.
Qed.

Lemma processQueue_posts (s : State) (a : Action) :
  a ∈ (processQueue s).2 ->
  exists item rest, retryQueue s = item :: rest /\ a = Post (item_payload item).
Proof.
  unfold processQueue. destruct (isProcessingQueue s); simpl.
  - intros Hin. by apply elem_of_nil in Hin.
  - intros Hin. by apply next_turn_posts in Hin.
Qed.

(** X3.  Whatever has happened, every payload the gateway posts to the
    backend is not empty and is the [raw] of a record of its log that is
    not forwarded yet ([received] on its first forward, [queued] in the
    retry loop): the gateway never posts anything it was not sent, and
    never posts a message again once it is forwarded. *)
Theorem posts_carry_pending_records (es : list Event) (s : State) (acts0 : list Action)
    (e : Event) (s' : State) (acts : list Action) (raw : string) :
  run initial es = Some (s, acts0) ->
  step s e = Some (s', acts) ->
  Post raw ∈ acts ->
  raw <> "" /\
  exists i m, messages s' !! i = Some m /\ msg_raw m = raw /\
              (msg_status m = received \/ msg_status m = queued).
Proof.
  intros Hrun Hstep Hpost.
  assert (Hr : reachable s) by (by exists es, acts0).
  pose proof (reachable_consistent s Hr) as Hc.
  pose proof (step_consistent s e s' acts Hc Hstep) as Hc'.
  pose proof (step_accounted s e s' acts Hc (reachable_accounted s Hr) Hstep) as Ha'.
  assert (Hitem : forall item, item ∈ retryQueue s' -> raw = item_payload item ->
            raw <> "" /\
            exists i m, messages s' !! i = Some m /\ msg_raw m = raw /\
                        (msg_status m = received \/ msg_status m = queued)).
  { intros item Hin ->.
    destruct (item_record s' item Hc' Ha' Hin) as (i & m & _ & Hm & Hraw & Hst).
    split; [rewrite <- Hraw; by eapply (raws_not_empty s' Ha')|].
    exists i, m. split_and!; try done. by right. }
  destruct e as [req payload now|i r|r|]; simpl in Hstep.
  - (* Request *)
    destruct payload as [[|a p]|]; simplify_eq.
    + apply list_elem_of_singleton in Hpost. done.
    + apply list_elem_of_singleton in Hpost. simplify_eq. split; [done|].
      eexists (length (messages s)), _. simpl. split_and!.
      * rewrite lookup_app_r by lia. by rewrite Nat.sub_diag.
      * done.
      * by left.
    + apply list_elem_of_singleton in Hpost. done.
  - (* PostSettled *)
    destruct (find_handler i (handlers s)) as [h|] eqn:Hfind; [|done].
    destruct (messages s !! i) as [rec|] eqn:Hrec; [|done].
    destruct r as [a|message].
    + simplify_eq. apply list_elem_of_singleton in Hpost. done.
    + destruct (processQueue _) as [s3 acts3] eqn:Hpq. simplify_eq.
      apply elem_of_app in Hpost as [Hpost|Hpost];
        [|apply list_elem_of_singleton in Hpost; done].
      lazymatch type of Hpq with
      | processQueue ?s2 = _ =>
          pose proof (processQueue_posts s2 (Post raw)) as Hhead;
          pose proof (processQueue_fields s2) as (_ & Hqueue & _)
      end.
      rewrite Hpq in Hhead, Hqueue. simpl in Hhead, Hqueue.
      destruct (Hhead Hpost) as (item & rest & Hq & Heq).
      apply (Hitem item); [|congruence].
      rewrite Hqueue, Hq. by apply elem_of_cons; left.
  - (* QueuePostSettled *)
    destruct (task s) eqn:Htask; try done.
    destruct (retryQueue s) as [|item rest] eqn:Hqueue; [done|].
    destruct r as [a|message].
    + simplify_eq.
      lazymatch type of Hstep with
      | next_turn ?s1 = _ =>
          pose proof (next_turn_posts s1 (Post raw)) as Hhead;
          pose proof (next_turn_fields s1) as (_ & Hqueue' & _)
      end.
      rewrite Hstep in Hhead, Hqueue'. simpl in Hhead, Hqueue'.
      destruct (Hhead Hpost) as (item' & rest' & Hq & Heq).
      apply (Hitem item'); [|congruence].
      rewrite Hqueue', Hq. by apply elem_of_cons; left.
    + simplify_eq. apply list_elem_of_singleton in Hpost. done.
  - (* TimerFired *)
    destruct (task s) eqn:Htask; try done. simplify_eq.
    pose proof (next_turn_posts s (Post raw)) as Hhead.
    pose proof (next_turn_fields s) as (_ & Hqueue' & _).
    rewrite Hstep in Hhead, Hqueue'. simpl in Hhead, Hqueue'.
    destruct (Hhead Hpost) as (item' & rest' & Hq & Heq).
    apply (Hitem item'); [|congruence].
    rewrite Hqueue', Hq. by apply elem_of_cons; left.
Qed.

(** The theorem applied to the gateway with two queued messages, when the
    forward of the first is fulfilled: the second is posted, and its
    record is queued. *)
Lemma posts_carry_pending_records_witness :
  exists s acts0 s' acts,
    run initial Scenario.two_queued = Some (s, acts0) /\
    step s (QueuePostSettled (Fulfilled None)) = Some (s', acts) /\
    Post "SOS|ID=B" ∈ acts /\
    exists i m, messages s' !! i = Some m /\ msg_raw m = "SOS|ID=B" /\
                (msg_status m = received \/ msg_status m = queued).
Proof.
  destruct (run initial Scenario.two_queued) as [[s acts0]|] eqn:Hrun;
    [|vm_compute in Hrun; discriminate].
  destruct (step s (QueuePostSettled (Fulfilled None))) as [[s' acts]|] eqn:Hstep.
  2: { vm_compute in Hrun. injection Hrun as <- _. vm_compute in Hstep. discriminate. }
  assert (Hpost : Post "SOS|ID=B" ∈ acts).
  { vm_compute in Hrun. injection Hrun as <- _. vm_compute in Hstep.
    injection Hstep as _ <-. by apply list_elem_of_singleton. }
  destruct (posts_carry_pending_records _ _ _ _ _ _ _ Hrun Hstep Hpost) as (_ & Hrec).
  by exists s, acts0, s', acts.
Defined.

End ForwardFacts.

(* ================================================================== *)
(** * The gateway: every request gets its answer *)
(* ================================================================== *)

Module AnswerFacts.
Import Gateway Invariants GatewayFacts Ledger.

(** Taking the handler of a record out of the handlers. *)
Lemma drop_handler_found (i : nat) (hs : list Handler) (h : Handler) :
  NoDup (map h_rec hs) -> find_handler i hs = Some h ->
  hs ≡ₚ h :: drop_handler i hs.
Proof.
  unfold find_handler, drop_handler.
  induction hs as [|h0 hs IH]; simpl; [done|].
  intros Hnd Hfind. apply NoDup_cons in Hnd as [Hnotin Hnd].
  destruct (Nat.eqb_spec (h_rec h0) i) as [Heq|Hne]; simpl.
  - simplify_eq. f_equiv.
    assert (Hall : forall h', h' ∈ hs -> negb (h_rec h' =? h_rec h)%nat = true).
    { intros h' Hh'. apply negb_true_iff, Nat.eqb_neq. intros Heq.
      apply Hnotin. rewrite <- Heq. apply list_elem_of_fmap. by exists h'. }
    clear -Hall. induction hs as [|h1 hs IH]; simpl; [done|].
    rewrite Hall by (by apply elem_of_cons; left).
    f_equiv. apply IH. intros h' Hh'. apply Hall. by apply elem_of_cons; right.
  - rewrite (IH Hnd Hfind) at 1. apply Permutation_swap.
Qed.

Lemma next_turn_answers (s : State) : omap responded (next_turn s).2 = [].
Proof. unfold next_turn. by destruct (retryQueue s). Qed.

Lemma processQueue_answers (s : State) : omap responded (processQueue s).2 = [].
Proof.
  unfold processQueue. destruct (isProcessingQueue s); [done|]. apply next_turn_answers.
Qed.

Lemma step_answers (s : State) (e : Event) (s' : State) (acts : list Action) :
  consistent s -> step s e = Some (s', acts) ->
  omap responded acts ++ map h_req (handlers s')
  ≡ₚ map h_req (handlers s) ++ omap requested [e].
Proof.
  intros Hc Hstep.
  destruct e as [req payload now|i r|r|]; simpl in Hstep.
  - destruct payload as [[|a p]|]; simplify_eq; simpl.
    + by rewrite (comm (++) _ [req]).
    + by rewrite map_app.
    + by rewrite (comm (++) _ [req]).
  - destruct (find_handler i (handlers s)) as [h|] eqn:Hfind; [|done].
    destruct (messages s !! i) as [rec|] eqn:Hrec; [|done].
    pose proof (Permutation_map h_req
      (drop_handler_found i (handlers s) h (handlers_distinct s Hc) Hfind)) as Hperm.
    simpl in Hperm.
    destruct r as [a|message].
    + simplify_eq. simpl. rewrite app_nil_r. by symmetry.
    + destruct (processQueue _) as [s3 acts3] eqn:Hpq. simplify_eq.
      lazymatch type of Hpq with
      | processQueue ?s2 = _ =>
          pose proof (processQueue_answers s2) as Hnone;
          pose proof (processQueue_fields s2) as (_ & _ & Hhs)
      end.
      rewrite Hpq in Hnone, Hhs. simpl in Hnone, Hhs.
      rewrite omap_app, Hnone, Hhs. simpl. rewrite app_nil_r. by symmetry.
  - destruct (task s) eqn:Htask; try done.
    destruct (retryQueue s) as [|item rest] eqn:Hqueue; [done|].
    destruct r as [a|message].
    + simplify_eq.
      lazymatch type of Hstep with
      | next_turn ?s1 = _ =>
          pose proof (next_turn_answers s1) as Hnone;
          pose proof (next_turn_fields s1) as (_ & _ & Hhs)
      end.
      rewrite Hstep in Hnone, Hhs. simpl in Hnone, Hhs.
      rewrite Hnone, Hhs. simpl. by rewrite app_nil_r.
    + simplify_eq. simpl. by rewrite app_nil_r.
  - destruct (task s) eqn:Htask; try done. simplify_eq.
    pose proof (next_turn_answers s) as Hnone.
    pose proof (next_turn_fields s) as (_ & _ & Hhs).
    rewrite Hstep in Hnone, Hhs. simpl in Hnone, Hhs.
    rewrite Hnone, Hhs. simpl. by rewrite app_nil_r.
Qed.

Lemma run_answers (es : list Event) (s s' : State) (acts : list Action) :
  consistent s -> run s es = Some (s', acts) ->
  omap responded acts ++ map h_req (handlers s')
  ≡ₚ map h_req (handlers s) ++ omap requested es.
Proof.
  revert s acts. induction es as [|e es IH]; intros s acts Hc Hrun; simpl in Hrun.
  - simplify_eq. simpl. by rewrite app_nil_r.
  - destruct (step s e) as [[s1 acts1]|] eqn:Hstep; [|done].
    destruct (run s1 es) as [[s2 acts2]|] eqn:Hrest; [|done].
    simplify_eq.
    pose proof (step_answers s e s1 acts1 Hc Hstep) as H1.
    pose proof (IH s1 acts2 (step_consistent s e s1 acts1 Hc Hstep) Hrest) as H2.
    rewrite omap_app, <- app_assoc, H2, app_assoc, H1, <- app_assoc.
    f_equiv. change (e :: es) with ([e] ++ es). by rewrite omap_app.
Qed.

(** X4.  Along every run, the callers answered so far together with the
    callers whose handler still awaits its first forward are the callers
    of the requests received, each as often as it sent one: no request is
    answered twice, and the only requests without an answer are those
    whose first forward has not settled. *)
Theorem every_request_answered_once (es : list Event) (s : State) (acts : list Action) :
  run initial es = Some (s, acts) ->
  omap responded acts ++ map h_req (handlers s) ≡ₚ omap requested es.
Proof. intros Hrun. apply (run_answers es initial s acts consistent_initial Hrun). Qed.

(** The theorem applied to two requests whose first forwards were
    rejected: both were answered. *)
Lemma every_request_answered_once_witness :
  exists s acts,
    run initial Scenario.two_queued = Some (s, acts) /\
    omap responded acts ++ map h_req (handlers s) ≡ₚ [1; 2]%nat.
Proof.
  destruct (run initial Scenario.two_queued) as [[s acts]|] eqn:Hrun;
    [|vm_compute in Hrun; discriminate].
  exists s, acts. split; [done|].
  apply (every_request_answered_once _ _ _ Hrun).
Defined.

End AnswerFacts.

(* ================================================================== *)
(** * The gateway: the queue drains *)
(* ================================================================== *)

Module DrainFacts.
Import Gateway Invariants GatewayFacts Ledger LedgerFacts.

Lemma run_cons (s : State) (e : Event) (es : list Event) :
  run s (e :: es) =
    match step s e with
    | Some (s', acts) =>
        match run s' es with
        | Some (s'', acts') => Some (s'', acts ++ acts')
        | None => None
        end
    | None => None
    end.
Proof. reflexivity. Qed.

(** Fulfilling the forward of every item in turn empties the queue. *)
Lemma drain (acks : list (option string)) (s : State) :
  consistent s -> task s = AwaitingPost ->
  length acks = length (retryQueue s) ->
  exists s' acts,
    run s (fulfilments acks) = Some (s', acts) /\
    retryQueue s' = [] /\ task s' = Idle /\ isProcessingQueue s' = false /\
    acts = map (fun item => Post (item_payload item)) (tail (retryQueue s)).
Proof.
  revert s. induction acks as [|a acks IH]; intros s Hc Htask Hlen.
  - destruct (retryQueue s) eqn:Hq; [|done].
    apply (idle_iff_empty s Hc) in Hq. congruence.
  - destruct (retryQueue s) as [|item rest] eqn:Hq; [done|].
    simpl in Hlen. injection Hlen as Hlen.
    destruct (step s (QueuePostSettled (Fulfilled a))) as [[s1 acts1]|] eqn:Hstep.
    2: { simpl in Hstep. by rewrite Htask, Hq in Hstep. }
    pose proof (step_consistent s _ s1 acts1 Hc Hstep) as Hc1.
    change (fulfilments (a :: acks))
      with (QueuePostSettled (Fulfilled a) :: fulfilments acks).
    rewrite run_cons, Hstep.
    simpl in Hstep. rewrite Htask, Hq in Hstep. injection Hstep as Hstep.
    unfold next_turn in Hstep. simpl in Hstep.
    destruct rest as [|item' rest'].
    + destruct acks; [|done]. simplify_eq. simpl.
      eexists _, _. by split_and!.
    + simplify_eq.
      lazymatch goal with
      | |- context [run ?s1 (fulfilments acks)] =>
          destruct (IH s1 Hc1 eq_refl Hlen) as (s' & acts & Hrun & Hq' & Ht' & Hf' & Hacts)
      end.
      rewrite Hrun. eexists _, _. split_and!; try done.
      simpl in Hacts. by rewrite Hacts.
Qed.

(** X5.  Whatever has happened, once the processor is at its post and
    the backend fulfils one forward after the other, as many as there are
    items, the queue empties: the payloads behind the head are posted in
    the order of the queue, each once, the processor stops with its flag
    lowered, and no record is left [queued]. *)
Theorem queue_drains_in_order (es : list Event) (s : State) (acts0 : list Action)
    (acks : list (option string)) :
  run initial es = Some (s, acts0) ->
  task s = AwaitingPost ->
  length acks = length (retryQueue s) ->
  exists s' acts,
    run s (fulfilments acks) = Some (s', acts) /\
    retryQueue s' = [] /\ task s' = Idle /\ isProcessingQueue s' = false /\
    omap posted acts = map item_payload (tail (retryQueue s)) /\
    Forall (fun m => msg_status m <> queued) (messages s').
Proof.
  intros Hrun Htask Hlen.
  assert (Hr : reachable s) by (by exists es, acts0).
  destruct (drain acks s (reachable_consistent s Hr) Htask Hlen)
    as (s' & acts & Hrun' & Hq & Ht & Hf & Hacts).
  exists s', acts. split_and!; try done.
  - rewrite Hacts. generalize (tail (retryQueue s)). intros l.
    induction l as [|x l IH]; simpl; [done|]. by f_equal.
  - assert (Ha' : accounted s').
    { eapply run_accounted; [| |exact Hrun'];
        [by apply reachable_consistent|by apply reachable_accounted]. }
    apply Forall_forall. intros m Hm Hst.
    apply list_elem_of_lookup in Hm as [i Hm].
    destruct (queued_have_items s' Ha' i m Hm Hst) as (item & Hitem & _).
    rewrite Hq in Hitem. by apply elem_of_nil in Hitem.
Qed.

(** The theorem applied to the gateway with two queued messages. *)
Lemma queue_drains_in_order_witness :
  exists s acts0 s' acts,
    run initial Scenario.two_queued = Some (s, acts0) /\
    run s (fulfilments [Some "ACK|A"; None]) = Some (s', acts) /\
    retryQueue s' = [] /\ task s' = Idle /\
    omap posted acts = ["SOS|ID=B"] /\
    Forall (fun m => msg_status m <> queued) (messages s').
Proof.
  destruct (run initial Scenario.two_queued) as [[s acts0]|] eqn:Hrun;
    [|vm_compute in Hrun; discriminate].
  pose proof Hrun as Hs. vm_compute in Hs. injection Hs as Hs _.
  destruct (queue_drains_in_order _ _ _ [Some "ACK|A"; None] Hrun)
    as (s' & acts & Hrun' & Hq & Ht & _ & Hposts & Hall).
  - by rewrite <- Hs.
  - by rewrite <- Hs.
  - exists s, acts0, s', acts. split_and!; try done.
    rewrite Hposts, <- Hs. reflexivity.
Defined.

End DrainFacts.

(* ================================================================== *)
(** * The gateway: the log only grows *)
(* ================================================================== *)

Module LogFacts.
Import Gateway Invariants GatewayFacts Ledger Listing.

Lemma alter_keeps_entries (f : Message -> Message) (j : nat) (ms : list Message) :
  (forall m, same_entry m (f m)) ->
  forall i m, ms !! i = Some m ->
    exists m', alter f j ms !! i = Some m' /\ same_entry m m'.
Proof.
  intros Hf i m Hm. destruct (decide (j = i)) as [<-|Hne].
  - exists (f m). by rewrite list_lookup_alter_eq, Hm.
  - exists m. by rewrite list_lookup_alter_ne.
Qed.

Lemma step_keeps_entries (s : State) (e : Event) (s' : State) (acts : list Action) :
  consistent s -> step s e = Some (s', acts) ->
  forall i m, messages s !! i = Some m ->
    exists m', messages s' !! i = Some m' /\ same_entry m m'.
Proof.
  intros Hc Hstep i m Hm.
  assert (Hsame : messages s' = messages s ->
            exists m', messages s' !! i = Some m' /\ same_entry m m').
  { intros ->. by exists m. }
  destruct e as [req payload now|j r|r|]; simpl in Hstep.
  - destruct payload as [[|a p]|]; simplify_eq; [by apply Hsame| |by apply Hsame].
    exists m. split; [|done]. simpl. by apply lookup_app_l_Some.
  - destruct (find_handler j (handlers s)) as [h|] eqn:Hfind; [|done].
    destruct (messages s !! j) as [rec|] eqn:Hrec; [|done].
    destruct r as [a|message].
    + simplify_eq. simpl. by apply alter_keeps_entries.
    + destruct (processQueue _) as [s3 acts3] eqn:Hpq. simplify_eq.
      lazymatch type of Hpq with
      | processQueue ?s2 = _ => pose proof (processQueue_fields s2) as (Hmsgs & _ & _)
      end.
      rewrite Hpq in Hmsgs. simpl in Hmsgs. rewrite Hmsgs.
      by apply alter_keeps_entries.
  - destruct (task s) eqn:Htask; try done.
    destruct (retryQueue s) as [|item rest] eqn:Hqueue; [done|].
    destruct r as [a|message]; [|simplify_eq; by apply Hsame].
    destruct (items_are_queued s Hc item) as (j & m0 & Hid & Hm0 & _).
    { rewrite Hqueue. by apply elem_of_cons; left. }
    simplify_eq.
    lazymatch type of Hstep with
    | next_turn ?s1 = _ => pose proof (next_turn_fields s1) as (Hmsgs & _ & _)
    end.
    rewrite Hstep in Hmsgs. simpl in Hmsgs.
    rewrite Hid, (mark_forwarded_alter (messages s) 0 j m0) in Hmsgs;
      [|apply (ids_by_position s Hc)|done].
    rewrite Hmsgs. by apply alter_keeps_entries.
  - destruct (task s) eqn:Htask; try done. simplify_eq.
    pose proof (next_turn_fields s) as (Hmsgs & _ & _).
    rewrite Hstep in Hmsgs. simpl in Hmsgs. by apply Hsame.
Qed.

(** X6.  The log only grows: a record that [/messages] lists at some
    position is listed there ever after, with the same id, the same [raw]
    and the same [receivedAt], whatever happens; and its id is its
    position plus one. *)
Theorem log_is_append_only (es es' : list Event) (s s' : State)
    (acts0 acts : list Action) (i : nat) (m : Message) :
  run initial es = Some (s, acts0) ->
  run s es' = Some (s', acts) ->
  fst (get_messages s) !! i = Some m ->
  msg_id m = Z.of_nat i + 1 /\
  exists m', fst (get_messages s') !! i = Some m' /\
    msg_id m' = msg_id m /\ msg_raw m' = msg_raw m /\
    msg_receivedAt m' = msg_receivedAt m.
Proof.
  intros Hrun Hrun' Hm. cbn [get_messages fst] in *.
  assert (Hc : consistent s) by (apply reachable_consistent; by exists es, acts0).
  split; [by apply (ids_by_position s Hc)|].
  clear Hrun. revert s acts m Hc Hrun' Hm.
  induction es' as [|e es' IH]; intros s acts m Hc Hrun' Hm; simpl in Hrun'.
  - simplify_eq. by exists m.
  - destruct (step s e) as [[s1 acts1]|] eqn:Hstep; [|done].
    destruct (run s1 es') as [[s2 acts2]|] eqn:Hrest; [|done].
    simplify_eq.
    destruct (step_keeps_entries s e s1 acts1 Hc Hstep i m Hm) as (m1 & Hm1 & H1 & H2 & H3).
    destruct (IH s1 acts2 m1 (step_consistent s e s1 acts1 Hc Hstep) Hrest Hm1)
      as (m' & Hm' & H1' & H2' & H3').
    exists m'. split_and!; congruence.
Qed.

(** The theorem applied to a message that is queued and then forwarded
    by the retry loop. *)
Lemma log_is_append_only_witness :
  exists s acts0 s' acts m',
    run initial [Request 1 (Some "SOS|ID=A") 100] = Some (s, acts0) /\
    run s [PostSettled 0 (Rejected "timeout of 5000ms exceeded");
           QueuePostSettled (Fulfilled None)] = Some (s', acts) /\
    messages s' !! 0%nat = Some m' /\
    msg_id m' = 1 /\ msg_raw m' = "SOS|ID=A" /\ msg_receivedAt m' = 100.
Proof.
  destruct (run initial [Request 1 (Some "SOS|ID=A") 100]) as [[s acts0]|] eqn:Hrun;
    [|vm_compute in Hrun; discriminate].
  pose proof Hrun as Hs. vm_compute in Hs. injection Hs as Hs _.
  destruct (run s [PostSettled 0 (Rejected "timeout of 5000ms exceeded");
                   QueuePostSettled (Fulfilled None)]) as [[s' acts]|] eqn:Hrun'.
  2: { rewrite <- Hs in Hrun'. vm_compute in Hrun'. discriminate. }
  destruct (log_is_append_only _ _ _ _ _ _ 0%nat
              {| msg_id := 1; msg_raw := "SOS|ID=A"; msg_receivedAt := 100;
                 msg_status := received; msg_ack := None |} Hrun Hrun')
    as (_ & m' & Hm' & H1 & H2 & H3).
  - by rewrite <- Hs.
  - by exists s, acts0, s', acts, m'.
Defined.

End LogFacts.

(* ================================================================== *)
(** * The backend: the broadcast and the listing of events *)
(* ================================================================== *)

Module BroadcastFacts.
Import Js Backend HandlerFacts Listing.





(** X8.  Once [/sos] has stored the event of a request (its two inserts
    did not reject, whatever happens to the read of the directory
    afterwards), [/events] lists that event first, followed by the first
    99 events of the listing before; the listing never has more than 100
    events. *)
Theorem stored_event_listed_first `{Host} (env : Env) (a : ascii) (s : string) (w : World) :
  log_insert_rejects env = false -> event_insert_rejects env = false ->
  let e := parse (String a s) (now_iso env) in
  let w' := snd (sos env (Some (String a s)) w) in
  get_events (db w') =
    {| ev_device_id := deviceId e; ev_lat := lat e; ev_lon := lon e;
       ev_type := type e; ev_time := time e; ev_status := "received" |}
    :: take 99 (get_events (db w)) /\
  (length (get_events (db w')) <= 100)%nat.
Proof.
  intros Hlog Hev e w'. subst w'. rewrite sos_cases, Hlog, Hev.
  unfold get_events. split; [|by rewrite length_take; lia].
  destruct (select_bases_rejects env); cbn [snd db with_db deliver add_event add_log sos_events];
    rewrite reverse_snoc; cbn [take]; by rewrite take_take.
Qed.

(** The theorem applied to a request during which the read of the
    directory rejects: the caller gets a 500, and [/events] lists the
    event. *)
Lemma stored_event_listed_first_witness :
  map ev_device_id
    (get_events (db (snd (sos (H := SeriesHost.host) Scenario.select_down
                            (Some Scenario.at_sholi) Scenario.fresh))))
  = ["HX001"].
Proof.
  destruct (stored_event_listed_first (H := SeriesHost.host) Scenario.select_down
              "S" "OS|ID=HX001|LAT=12.8296|LON=80.2270|DIR=NE|TYPE=TSUNAMI|TIME=2023-11-14T22:13:19.000Z"
              Scenario.fresh eq_refl eq_refl) as [Hlist _].
  change (String "S" "OS|ID=HX001|LAT=12.8296|LON=80.2270|DIR=NE|TYPE=TSUNAMI|TIME=2023-11-14T22:13:19.000Z")
    with Scenario.at_sholi in Hlist.
  rewrite Hlist. reflexivity.
Defined.

End BroadcastFacts.

(* ================================================================== *)
(** * The backend: distances *)
(* ================================================================== *)

Module RangeFacts.
Import Js JsMore Backend JsFacts ResolverFacts HandlerFacts DistanceFacts.

Lemma fixed_range_lt_Infinity (x : Number) : fixed_range x -> lt x Infinity = true.
Proof. by destruct x as [[]|[]| |[] m e]. Qed.

(** X9.  When the directory is not empty and the computed distance of
    every base is a finite Number of magnitude below 10^21, an ack names a
    base of the directory, its distance as digits, a point and exactly two
    decimals, and the capacity status of that base. *)
Theorem ack_distance_fixed_point `{Host}
    (env : Env) (raw : string) (w : World) (ack : string) :
  let e := parse raw (now_iso env) in
  let dist b := haversine (lat e) (lon e) (base_lat b) (base_lon b) in
  fst (sos env (Some raw) w) = Ok200 ack ->
  safe_bases (db w) <> [] ->
  Forall (fun b => fixed_range (dist b)) (safe_bases (db w)) ->
  exists b d,
    b ∈ safe_bases (db w) /\ Spec.two_decimals d /\
    ack = "ACK|SAFEBASE=" +:+ base_id b +:+ "|DIST=" +:+ d +:+ "KM|CAPACITY=" +:+
          capacity_text (capacityStatus (Some b)).
Proof.
  intros e dist Hack Hne Hall.
  apply sos_acked in Hack. fold e in Hack. subst ack. unfold resolve.
  pose proof (nearest_scan_scanned (lat e) (lon e) (safe_bases (db w))) as Hscan.
  rewrite Forall_forall in Hall.
  destruct (nearest_scan (lat e) (lon e) (safe_bases (db w))) as [[b|] minD];
    cbn [fst snd Invariants.scanned] in *.
  - destruct Hscan as (-> & Hb & pre & post & Hsplit & _).
    assert (Hin : b ∈ safe_bases (db w)).
    { rewrite Hsplit. apply elem_of_app. right. by apply elem_of_cons; left. }
    exists b, (toFixed2 (dist b)). split_and!; [done| |done].
    apply toFixed2_two_decimals. by apply Hall.
  - destruct Hscan as (-> & Hnone).
    destruct (safe_bases (db w)) as [|b0 bases]; [done|].
    assert (Hin : b0 ∈ b0 :: bases) by (by apply elem_of_cons; left).
    pose proof (fixed_range_lt_Infinity _ (Hall b0 Hin)) as Hlt.
    pose proof (Hnone b0 Hin) as Hge. unfold dist in Hlt. congruence.
Qed.

(** The theorem applied to an alert sent from BASE_SATHYA. *)
Lemma ack_distance_fixed_point_witness :
  exists b d,
    b ∈ preloaded /\ Spec.two_decimals d /\
    fst (sos (H := SeriesHost.host) Scenario.calm (Some Scenario.at_sathya) Scenario.fresh)
    = Ok200 ("ACK|SAFEBASE=" +:+ base_id b +:+ "|DIST=" +:+ d +:+ "KM|CAPACITY=" +:+
             capacity_text (capacityStatus (Some b))).
Proof.
  destruct (ack_distance_fixed_point (H := SeriesHost.host) Scenario.calm
              Scenario.at_sathya Scenario.fresh
              "ACK|SAFEBASE=BASE_SATHYA|DIST=0.00KM|CAPACITY=NEARLY_FULL")
    as (b & d & Hb & Hd & Hack).
  - vm_compute. reflexivity.
  - done.
  - repeat (constructor; [vm_compute; reflexivity|]). constructor.
  - exists b, d. split_and!; [done|done|]. rewrite <- Hack. vm_compute. reflexivity.
Defined.

(** ** The distance from a point to itself *)

Lemma sub_self (x : Number) : is_finite x = true -> sub x x = pos_zero.
Proof.
  destruct x as [[]| | |s m e]; try done. intros _.
  unfold sub, SFsub. cbv zeta. by rewrite Z.sub_diag.
Qed.

Lemma mul_zero_r (x : Number) :
  match x with S754_zero false | S754_finite false _ _ => True | _ => False end ->
  mul x pos_zero = pos_zero.
Proof. by destruct x as [[]|[]| |[] m e]. Qed.

(** The square of a Number, when finite, is no negative Number. *)
Lemma square_sign (c : Number) :
  is_finite (mul c c) = true ->
  match mul c c with S754_zero false | S754_finite false _ _ => True | _ => False end.
Proof.
  destruct c as [[]|[]| |s m e]; try done.
  unfold mul, SFmul. rewrite xorb_nilpotent.
  unfold binary_round_aux.
  destruct (shr_fexp _ _ _ _ _) as [mrs e1].
  destruct (shr_fexp _ _ _ _ _) as [mrs' e2].
  destruct (shr_m mrs'); try done.
  by destruct (_ <=? _).
Qed.

(** X10.  On a host whose sine is [+0] at [+0] and whose [atan2] is [+0]
    at [(+0, 1)], as ECMAScript prescribes, and whose cosine has a finite
    square at the latitude, the haversine distance from a point of finite
    coordinates to itself is [+0], which the ack prints as [0.00]. *)
Theorem distance_to_itself_is_zero `{Host} (lat lon : Number) :
  Math_sin pos_zero = pos_zero ->
  Math_atan2 pos_zero (of_Z 1) = pos_zero ->
  is_finite lat = true -> is_finite lon = true ->
  is_finite (mul (Math_cos (toRad lat)) (Math_cos (toRad lat))) = true ->
  haversine lat lon lat lon = pos_zero /\
  toFixed2 (haversine lat lon lat lon) = "0.00".
Proof.
  intros Hsin Hatan Hlat Hlon Hcos.
  assert (Hd : haversine lat lon lat lon = pos_zero); [|by rewrite Hd].
  unfold haversine. rewrite !sub_self by done.
  change (toRad pos_zero) with pos_zero.
  change (div pos_zero (of_Z 2)) with pos_zero.
  rewrite Hsin.
  change (mul pos_zero pos_zero) with pos_zero.
  rewrite (mul_zero_r (mul (Math_cos (toRad lat)) (Math_cos (toRad lat))))
    by (by apply square_sign).
  change (mul pos_zero pos_zero) with pos_zero.
  change (add pos_zero pos_zero) with pos_zero.
  change (Math_sqrt pos_zero) with pos_zero.
  replace (Math_sqrt (sub (of_Z 1) pos_zero)) with (of_Z 1) by (vm_compute; reflexivity).
  rewrite Hatan. vm_compute. reflexivity.
Qed.

(** The theorem applied to the position of BASE_SHOLI on the series
    host. *)
Lemma distance_to_itself_is_zero_witness :
  haversine (H := SeriesHost.host) (decimal 128296 4) (decimal 802270 4)
    (decimal 128296 4) (decimal 802270 4) = pos_zero.
Proof.
  destruct (distance_to_itself_is_zero (H := SeriesHost.host)
              (decimal 128296 4) (decimal 802270 4)) as [Hd _];
    [reflexivity|reflexivity|reflexivity|reflexivity|vm_compute; reflexivity|].
  exact Hd.
Defined.

End RangeFacts.

(* ================================================================== *)
(** * The website: the colour of a base *)
(* ================================================================== *)

Module ColourFacts.
Import Js Backend DoubleFacts CapacityFacts.

(** X11.  The website colours a base as the backend classifies it: red
    where the status is FULL, yellow where it is NEARLY_FULL, green where
    it is AVAILABLE.  For a capacity and a number of filled places that
    are integers from 0 up to, but not including, 2^53, with
    [free = capacity - filled] the colour is red if [free <= 0], else
    yellow if [free] is below the least integer not below a fifth of the
    capacity, else green. *)
Theorem colour_matches_status (b : SafeBase) :
  colorForCapacity (of_Z (base_capacity b)) (of_Z (base_filled b)) =
    match capacityStatus (Some b) with
    | FULL => red
    | NEARLY_FULL => yellow
    | AVAILABLE => green
    end /\
  (0 <= base_capacity b < 2 ^ 53 -> 0 <= base_filled b < 2 ^ 53 ->
   colorForCapacity (of_Z (base_capacity b)) (of_Z (base_filled b)) =
     (let free := base_capacity b - base_filled b in
      if free <=? 0 then red
      else if free <? (base_capacity b + 4) / 5 then yellow
      else green)).
Proof.
  rewrite colorForCapacity_classify. split; [done|].
  intros Hc Hf. rewrite classify_integers by done.
  unfold Spec.capacityStatus, Spec.ceil_fifth. cbv zeta.
  destruct (_ <=? 0); [done|]. by destruct (_ <? _).
Qed.

(** The theorem applied to BASE_SATHYA: 10 free places of 80. *)
Lemma colour_matches_status_witness :
  colorForCapacity (of_Z 80) (of_Z 70) = yellow.
Proof.
  destruct (colour_matches_status BASE_SATHYA) as [_ Hcol].
  specialize (Hcol ltac:(simpl; lia) ltac:(simpl; lia)).
  exact Hcol.
Defined.

End ColourFacts.

(* ================================================================== *)
(** * The user app: the payload and the compass point *)
(* ================================================================== *)

Module PayloadFacts.
Import Js Backend UserApp.

Lemma includes_app (c : ascii) (a b : string) :
  includes c (a +:+ b) = includes c a || includes c b.
Proof. induction a as [|x a IH]; simpl; [done|]. by destruct (char_eqb x c). Qed.

Lemma split_plain (c : ascii) (a : string) : includes c a = false -> split c a = [a].
Proof.
  induction a as [|x a IH]; simpl; [done|].
  destruct (char_eqb x c); [done|]. intros Ha. by rewrite IH.
Qed.

(** Cutting at the first separator. *)
Lemma split_app (c : ascii) (a b : string) :
  includes c a = false -> split c (a +:+ String c b) = a :: split c b.
Proof.
  induction a as [|x a IH]; simpl.
  - intros _. unfold char_eqb. by rewrite Ascii.eqb_refl.
  - destruct (char_eqb x c); [done|]. intros Ha. by rewrite IH.
Qed.

(** A token [K=v] sets the property [K] to [v]. *)
Lemma parse_token (K v : string) (payload : gmap string string) :
  includes "=" K = false -> K <> "__proto__" -> includes "=" v = false ->
  parse_part payload (K +:+ String "=" v) = <[K := v]> payload.
Proof.
  intros HK Hproto Hv. unfold parse_part, assign.
  rewrite includes_app, HK. simpl.
  rewrite split_app, split_plain by done.
  by rewrite decide_False.
Qed.

(** The object the parser builds from the payload of [sendSOS]. *)
Lemma parse_parts_app_payload (id latitude longitude dir time : string) :
  plain id -> plain latitude -> plain longitude -> plain dir -> plain time ->
  parse_parts (sos_payload id latitude longitude dir time)
  = <["TIME" := time]> (<["TYPE" := "TSUNAMI"]> (<["DIR" := dir]>
      (<["LON" := longitude]> (<["LAT" := latitude]> (<["ID" := id]>
        (<["typeFlag" := "SOS"]> ∅)))))).
Proof.
  intros [Hid1 Hid2] [Hlat1 Hlat2] [Hlon1 Hlon2] [Hdir1 Hdir2] [Ht1 Ht2].
  unfold parse_parts, sos_payload.
  change ("SOS|ID=" +:+ id +:+ "|LAT=" +:+ latitude +:+ "|LON=" +:+ longitude +:+
          "|DIR=" +:+ dir +:+ "|TYPE=TSUNAMI|TIME=" +:+ time)
    with ("SOS" +:+ String "|" (("ID=" +:+ id) +:+ String "|" (("LAT=" +:+ latitude) +:+
          String "|" (("LON=" +:+ longitude) +:+ String "|" (("DIR=" +:+ dir) +:+
          String "|" ("TYPE=TSUNAMI" +:+ String "|" ("TIME=" +:+ time))))))).
  assert (Htok : forall K v, includes "|" K = false -> includes "|" v = false ->
            includes "|" (K +:+ v) = false).
  { intros K v HK Hv. by rewrite includes_app, HK, Hv. }
  rewrite (split_app "|" "SOS") by done.
  rewrite (split_app "|" ("ID=" +:+ id)) by (by apply Htok).
  rewrite (split_app "|" ("LAT=" +:+ latitude)) by (by apply Htok).
  rewrite (split_app "|" ("LON=" +:+ longitude)) by (by apply Htok).
  rewrite (split_app "|" ("DIR=" +:+ dir)) by (by apply Htok).
  rewrite (split_app "|" "TYPE=TSUNAMI") by done.
  rewrite (split_plain "|" ("TIME=" +:+ time)) by (by apply Htok).
  cbn [foldl].
  change (parse_part ∅ "SOS") with (<["typeFlag" := "SOS"]> (∅ : gmap string string)).
  rewrite (parse_token "ID" id), (parse_token "LAT" latitude),
    (parse_token "LON" longitude), (parse_token "DIR" dir),
    (parse_token "TYPE" "TSUNAMI"), (parse_token "TIME" time) by done.
  done.
Qed.

(** X12.  From the payload that [sendSOS] builds, the backend reads back
    what the app put in, provided the substituted texts contain neither
    [|] nor [=] and the id and the time are not empty: the device id and
    the time as they are, the type TSUNAMI, and for the latitude and the
    longitude what [parseFloat] makes of their texts (0 when that is NaN
    or zero); the flag is [SOS], and the direction is read but used for
    nothing. *)
Theorem backend_reads_app_payload (id latitude longitude dir time now_iso : string) :
  plain id -> plain latitude -> plain longitude -> plain dir -> plain time ->
  id <> "" -> time <> "" ->
  parse (sos_payload id latitude longitude dir time) now_iso
  = {| deviceId := id;
       lat := or_default (parseFloat_string latitude) pos_zero;
       lon := or_default (parseFloat_string longitude) pos_zero;
       type := "TSUNAMI";
       time := time |} /\
  parse_parts (sos_payload id latitude longitude dir time) !! "typeFlag" = Some "SOS" /\
  parse_parts (sos_payload id latitude longitude dir time) !! "DIR" = Some dir.
Proof.
  intros Hid Hlat Hlon Hdir Htime Hid0 Htime0. unfold parse.
  rewrite parse_parts_app_payload by done.
  repeat (first [rewrite lookup_insert_eq | rewrite lookup_insert_ne by done]).
  split_and!; try done.
  by destruct id, time.
Qed.

(** The theorem applied to an alert of the device HX001. *)
Lemma backend_reads_app_payload_witness :
  deviceId (parse (sos_payload "HX001" "12.8296" "80.227" "NE" "2023-11-14T22:13:19.000Z")
              "2023-11-14T22:13:20.000Z") = "HX001" /\
  time (parse (sos_payload "HX001" "12.8296" "80.227" "NE" "2023-11-14T22:13:19.000Z")
          "2023-11-14T22:13:20.000Z") = "2023-11-14T22:13:19.000Z".
Proof.
  destruct (backend_reads_app_payload "HX001" "12.8296" "80.227" "NE"
              "2023-11-14T22:13:19.000Z" "2023-11-14T22:13:20.000Z") as (Hparse & _);
    [done|done|done|done|done|done|done|].
  rewrite Hparse. split; reflexivity.
Defined.

End PayloadFacts.

Module DirectionFacts.
Import Js JsMore UserApp Rounding DoubleFacts.

Lemma three_sixty : of_Z 360 = S754_finite false 6333186975989760 (-44).
Proof. vm_compute. reflexivity. Qed.

(** The remainder of an integer by 360, in doubles. *)
Lemma rem_360 (s : bool) (h : Z) :
  0 < h < 2 ^ 53 ->
  rem (canonical s h) (of_Z 360)
  = if h mod 360 =? 0 then S754_zero s else canonical s (h mod 360).
Proof.
  intros Hh. rewrite three_sixty. unfold rem, canonical.
  pose proof (Zdigits2_small h Hh) as Hd.
  pose proof (canonical_mantissa_bounds h Hh) as Hm.
  set (d := Zdigits2 h) in *.
  set (e := Z.min (d - 53) (-44)).
  set (k := - e). assert (Hk : 44 <= k <= 52) by lia.
  assert (Hpk : 0 < 2 ^ k) by (apply Z.pow_pos_nonneg; lia).
  rewrite Z2Pos.id by lia.
  assert (HA : h * 2 ^ (53 - d) * 2 ^ (d - 53 - e) = h * 2 ^ k).
  { rewrite <- Z.mul_assoc, <- Z.pow_add_r by lia. do 2 f_equal. lia. }
  assert (HB : 6333186975989760 * 2 ^ (-44 - e) = 360 * 2 ^ k).
  { change 6333186975989760 with (360 * 2 ^ 44).
    rewrite <- Z.mul_assoc, <- Z.pow_add_r by lia. do 2 f_equal. lia. }
  rewrite HA, HB, Z.mul_mod_distr_r by lia.
  pose proof (Z.mod_pos_bound h 360 ltac:(lia)) as Hr.
  destruct (Z.eqb_spec (h mod 360) 0) as [E|E].
  - rewrite E. reflexivity.
  - destruct (Z.eqb_spec (h mod 360 * 2 ^ k) 0) as [E'|_]; [lia|].
    assert (Hpos : 0 < h mod 360 * 2 ^ k) by lia.
    replace e with (- k) by lia.
    pose proof (binary_round_integer s (h mod 360) k ltac:(lia) ltac:(lia)) as Hround.
    unfold canonical in Hround. rewrite <- Hround.
    unfold binary_normalize.
    destruct (h mod 360 * 2 ^ k) as [|p|p] eqn:Ep; try lia.
    by destruct s.
Qed.

Lemma after_rem_table :
  forallb (fun r => bool_decide (after_rem (of_Z r) = dirs !! octant r))
          (map (fun i => Z.of_nat i - 359) (seq 0 719)) = true.
Proof. vm_compute. reflexivity. Qed.

Lemma after_rem_octant (r : Z) :
  -359 <= r <= 359 -> after_rem (of_Z r) = dirs !! octant r.
Proof.
  intros Hr. pose proof after_rem_table as Ht.
  rewrite forallb_forall in Ht.
  specialize (Ht r). apply bool_decide_eq_true in Ht; [done|].
  apply in_map_iff. exists (Z.to_nat (r + 359)). split; [lia|].
  apply in_seq. lia.
Qed.

Lemma octant_congruent (h r : Z) : r mod 360 = h mod 360 -> octant r = octant h.
Proof. unfold octant. by intros ->. Qed.

(** X13.  For a heading that is an integer of magnitude below 2^53 (the
    app stores [Math.round] of what the sensor reports),
    [directionFromHeading] gives the compass point of the octant of 45
    degrees centred on it, headings below 0 or from 360 on being taken
    modulo 360: N from 338 to 22, NE from 23 to 67, and so on. *)
Theorem direction_of_integer_heading (h : Z) :
  - 2 ^ 53 < h < 2 ^ 53 ->
  directionFromHeading (Some (of_Z h)) = dirs !! octant h /\
  (octant h < 8)%nat.
Proof.
  intros Hh. split.
  2:{ unfold octant. pose proof (Z.mod_pos_bound ((h mod 360 + 22) / 45) 8). lia. }
  change (directionFromHeading (Some (of_Z h)))
    with (after_rem (rem (of_Z h) (of_Z 360))).
  destruct (Z.lt_trichotomy h 0) as [Hneg|[->|Hpos]].
  - replace h with (- - h) at 1 by lia. rewrite of_Z_neg, rem_360 by lia.
    pose proof (Z.mod_pos_bound (- h) 360 ltac:(lia)) as Hr.
    assert (Hcong : (- (- h mod 360)) mod 360 = h mod 360).
    { pose proof (Z.div_mod (- h) 360 ltac:(lia)) as Hdm.
      replace (- (- h mod 360)) with (h + (- h / 360) * 360) by lia.
      by rewrite Z.mod_add by lia. }
    destruct (Z.eqb_spec (- h mod 360) 0) as [E|E].
    + rewrite <- (octant_congruent h 0); [reflexivity|]. rewrite <- Hcong, E. reflexivity.
    + rewrite <- of_Z_neg by lia. rewrite after_rem_octant by lia.
      by rewrite (octant_congruent h (- (- h mod 360))).
  - reflexivity.
  - rewrite of_Z_pos, rem_360 by lia.
    pose proof (Z.mod_pos_bound h 360 ltac:(lia)) as Hr.
    destruct (Z.eqb_spec (h mod 360) 0) as [E|E].
    + rewrite <- (octant_congruent h 0); [reflexivity|]. by rewrite E.
    + rewrite <- of_Z_pos by lia. rewrite after_rem_octant by lia.
      rewrite (octant_congruent h (h mod 360)); [done|]. by rewrite Z.mod_mod by lia.
Qed.

(** The theorem applied to a heading of -23 degrees. *)
Lemma direction_of_integer_heading_witness :
  directionFromHeading (Some (of_Z (-23))) = Some "NW".
Proof.
  destruct (direction_of_integer_heading (-23)) as [Hdir _]; [lia|].
  rewrite Hdir. reflexivity.
Defined.

(** A heading that is missing reads N/A; one that is not a number, or
    infinite, gives no direction at all. *)
Example direction_of_no_heading :
  directionFromHeading None = Some "N/A" /\
  directionFromHeading (Some NaN) = None /\
  directionFromHeading (Some Infinity) = None.
Proof. repeat split; vm_compute; reflexivity. Qed.

End DirectionFacts.

(* ================================================================== *)
(** * From the app to the backend and back *)
(* ================================================================== *)

Module ChainFacts.
Import Js Gateway Invariants GatewayFacts Ledger UserApp.

(** The handler of the record just logged is found by its index. *)
Lemma find_handler_new (s : State) (h : Handler) :
  consistent s -> h_rec h = length (messages s) ->
  find_handler (length (messages s)) (handlers s ++ [h]) = Some h.
Proof.
  intros Hc Hh. unfold find_handler.
  assert (Hold : forall h', h' ∈ handlers s -> (h_rec h' =? length (messages s))%nat = false).
  { intros h' Hh'. destruct (handlers_hold_received s Hc h' Hh') as (m & Hm & _).
    apply lookup_lt_Some in Hm. apply Nat.eqb_neq. lia. }
  induction (handlers s) as [|h0 hs IH]; simpl.
  - by rewrite Hh, Nat.eqb_refl.
  - rewrite Hold by (by apply elem_of_cons; left).
    apply IH. intros h' Hh'. apply Hold. by apply elem_of_cons; right.
Qed.

Lemma processQueue_no_answers (s : State) : answers (processQueue s).2 = [].
Proof.
  unfold processQueue, next_turn. destruct (isProcessingQueue s); [done|].
  simpl. by destruct (retryQueue s).
Qed.

(** The first forward fulfilled: the caller is answered with the ack. *)
Lemma first_forward_fulfilled (s : State) (i : nat) (h : Handler) (rec : Message)
    (a : option string) :
  find_handler i (handlers s) = Some h -> messages s !! i = Some rec ->
  exists s',
    step s (PostSettled i (Fulfilled a))
      = Some (s', [Respond (h_req h) 200 (AckBody (ack_or_unknown a))]) /\
    messages s' !! i = Some (set_forwarded (ack_or_unknown a) rec).
Proof.
  intros Hfind Hrec. cbn [step]. rewrite Hfind, Hrec. eexists. split; [done|].
  simpl. by rewrite list_lookup_alter_eq, Hrec.
Qed.

(** The first forward rejected: the caller is answered with a 202. *)
Lemma first_forward_rejected (s : State) (i : nat) (h : Handler) (rec : Message)
    (message : string) :
  find_handler i (handlers s) = Some h -> messages s !! i = Some rec ->
  exists s' acts,
    step s (PostSettled i (Rejected message)) = Some (s', acts) /\
    answers acts = [(h_req h, Replied 202 QueuedBody)] /\
    messages s' !! i = Some (set_status queued rec).
Proof.
  intros Hfind Hrec. cbn [step]. rewrite Hfind, Hrec.
  destruct (processQueue _) as [s3 acts3] eqn:Hpq.
  lazymatch type of Hpq with
  | processQueue ?s2 = _ =>
      pose proof (processQueue_no_answers s2) as Hnone;
      pose proof (processQueue_fields s2) as (Hmsgs & _ & _)
  end.
  rewrite Hpq in Hnone, Hmsgs. cbn [fst snd] in Hnone, Hmsgs.
  eexists _, _. split; [done|]. split.
  - unfold answers in *. by rewrite omap_app, Hnone.
  - rewrite Hmsgs. simpl. by rewrite list_lookup_alter_eq, Hrec.
Qed.

(** X14.  An alert from the app to the backend and back.  Whatever has
    happened at the gateway, a request with a payload that is not empty
    is logged and posted to the backend; the backend never answers it
    with a 400.  If the backend answers with an ack, the gateway's record
    becomes [forwarded] with that ack, the gateway answers its caller
    with a 200 and the ack, and the app shows the ack, which is the one
    the backend resolved.  If the backend answers with a 500, the record
    becomes [queued], the gateway answers with a 202, and the app shows
    QUEUED.  In neither case does the app store the alert in its own
    queue. *)
Theorem alert_end_to_end `{Host} (es : list Event) (s : State) (acts0 : list Action)
    (req : nat) (a : ascii) (p : string) (now sent_at : Z)
    (env : Backend.Env) (w : Backend.World) (app : App) :
  run initial es = Some (s, acts0) ->
  let payload := String a p in
  let answer := fst (Backend.sos env (Some payload) w) in
  exists s1 s2 acts reply,
    step s (Request req (Some payload) now) = Some (s1, [Post payload]) /\
    step s1 (PostSettled (length (messages s)) (axios_post answer)) = Some (s2, acts) /\
    answers acts = [(req, reply)] /\
    sendSOS_settled sent_at payload reply app =
      {| ack := Some match answer with
                     | Backend.Ok200 text => text
                     | _ => "QUEUED"
                     end;
         smsQueue := smsQueue app |} /\
    match answer with
    | Backend.Ok200 text =>
        text = Backend.resolve (Backend.parse payload (Backend.now_iso env))
                 (Backend.safe_bases (Backend.db w)) /\
        messages s2 !! length (messages s)
        = Some {| msg_id := Z.of_nat (length (messages s)) + 1; msg_raw := payload;
                  msg_receivedAt := now; msg_status := forwarded; msg_ack := Some text |}
    | Backend.Internal500 _ =>
        messages s2 !! length (messages s)
        = Some {| msg_id := Z.of_nat (length (messages s)) + 1; msg_raw := payload;
                  msg_receivedAt := now; msg_status := queued; msg_ack := None |}
    | Backend.BadRequest400 _ => False
    end.
Proof.
  intros Hrun payload answer.
  assert (Hc : consistent s) by (apply reachable_consistent; by exists es, acts0).
  set (rec := {| msg_id := Z.of_nat (length (messages s)) + 1; msg_raw := payload;
                 msg_receivedAt := now; msg_status := received; msg_ack := None |}).
  set (h := {| h_req := req; h_rec := length (messages s); h_payload := payload |}).
  set (s1 := with_handlers (handlers s ++ [h]) (with_messages (messages s ++ [rec]) s)).
  assert (Hstep1 : step s (Request req (Some payload) now) = Some (s1, [Post payload])) by done.
  assert (Hfind : find_handler (length (messages s)) (handlers s1) = Some h).
  { by apply find_handler_new. }
  assert (Hrec : messages s1 !! length (messages s) = Some rec).
  { simpl. rewrite lookup_app_r by lia. by rewrite Nat.sub_diag. }
  assert (Hans : answer = fst (Backend.sos env (Some payload) w)) by done.
  clearbody answer. unfold payload in Hans. rewrite HandlerFacts.sos_cases in Hans.
  fold payload in Hans.
  assert (Hfail : forall error,
    answer = Backend.Internal500 error ->
    exists s2 acts reply,
      step s1 (PostSettled (length (messages s)) (axios_post answer)) = Some (s2, acts) /\
      answers acts = [(req, reply)] /\
      sendSOS_settled sent_at payload reply app
        = {| ack := Some "QUEUED"; smsQueue := smsQueue app |} /\
      messages s2 !! length (messages s) = Some (set_status queued rec)).
  { intros error ->.
    destruct (first_forward_rejected s1 _ h rec "Request failed with status code 500"
                Hfind Hrec) as (s2 & acts & Hstep & Hanswers & Hm).
    by exists s2, acts, (Replied 202 QueuedBody). }
  exists s1.
  destruct (Backend.log_insert_rejects env), (Backend.event_insert_rejects env),
    (Backend.select_bases_rejects env); cbn [fst] in Hans;
    try (destruct (Hfail _ Hans) as (s2 & acts & reply & Hstep2 & Hanswers & Happ & Hm);
         exists s2, acts, reply; rewrite Hans in *; split_and!; [done|done|done|done|exact Hm]).
  subst answer. cbn [axios_post].
  lazymatch goal with
  | |- context [Fulfilled (Some ?text)] =>
      destruct (first_forward_fulfilled s1 _ h rec (Some text) Hfind Hrec)
        as (s2 & Hstep & Hm)
  end.
  eexists s2, _, (Replied 200 (AckBody (Backend.resolve _ _))).
  split_and!; [done|exact Hstep|done|done|done|exact Hm].
Qed.

(** The theorem applied to an alert sent from BASE_SHOLI to a gateway and
    a backend that have just started. *)
Lemma alert_end_to_end_witness :
  exists s1 s2 acts,
    step initial (Request 7 (Some Scenario.at_sholi) 100)
      = Some (s1, [Post Scenario.at_sholi]) /\
    step s1 (PostSettled 0
               (axios_post (fst (Backend.sos (H := SeriesHost.host) Scenario.calm
                                   (Some Scenario.at_sholi) Scenario.fresh))))
      = Some (s2, acts) /\
    answers acts
      = [(7%nat, Replied 200
                   (AckBody "ACK|SAFEBASE=BASE_SHOLI|DIST=0.00KM|CAPACITY=AVAILABLE"))].
Proof.
  destruct (alert_end_to_end (H := SeriesHost.host) [] initial [] 7 "S"
              "OS|ID=HX001|LAT=12.8296|LON=80.2270|DIR=NE|TYPE=TSUNAMI|TIME=2023-11-14T22:13:19.000Z"
              100 101 Scenario.calm Scenario.fresh {| ack := None; smsQueue := [] |} eq_refl)
    as (s1 & s2 & acts & reply & Hstep1 & Hstep2 & _).
  exists s1, s2, acts. split_and!; [exact Hstep1|exact Hstep2|].
  vm_compute in Hstep1. injection Hstep1 as <-.
  vm_compute in Hstep2. injection Hstep2 as _ <-. reflexivity.
Defined.

(** X15.  When the app sends a stored alert again and the gateway's
    forward of it is rejected, the gateway logs the alert as a new record,
    queues it and answers with a 202; and the app, which takes an item
    out of its stored queue on a 200 only, leaves its stored queue as it
    was.  The alert is then kept in both queues. *)
Theorem queued_resend_stays_stored (es : list Event) (s : State) (acts0 : list Action)
    (req : nat) (item : Stored) (a : ascii) (p : string) (now : Z)
    (message : string) (app : App) :
  run initial es = Some (s, acts0) ->
  stored_payload item = String a p ->
  exists s1 s2 acts reply,
    step s (Request req (Some (stored_payload item)) now)
      = Some (s1, [Post (stored_payload item)]) /\
    step s1 (PostSettled (length (messages s)) (Rejected message)) = Some (s2, acts) /\
    answers acts = [(req, reply)] /\
    resend_settled item reply app = app /\
    messages s2 !! length (messages s)
      = Some {| msg_id := Z.of_nat (length (messages s)) + 1;
                msg_raw := stored_payload item; msg_receivedAt := now;
                msg_status := queued; msg_ack := None |} /\
    length (retryQueue s2) = S (length (retryQueue s)).
Proof.
  intros Hrun Hpayload. rewrite Hpayload.
  assert (Hc : consistent s) by (apply reachable_consistent; by exists es, acts0).
  set (payload := String a p).
  set (rec := {| msg_id := Z.of_nat (length (messages s)) + 1; msg_raw := payload;
                 msg_receivedAt := now; msg_status := received; msg_ack := None |}).
  set (h := {| h_req := req; h_rec := length (messages s); h_payload := payload |}).
  set (s1 := with_handlers (handlers s ++ [h]) (with_messages (messages s ++ [rec]) s)).
  assert (Hfind : find_handler (length (messages s)) (handlers s1) = Some h).
  { by apply find_handler_new. }
  assert (Hrec : messages s1 !! length (messages s) = Some rec).
  { simpl. rewrite lookup_app_r by lia. by rewrite Nat.sub_diag. }
  destruct (first_forward_rejected s1 _ h rec message Hfind Hrec)
    as (s2 & acts & Hstep & Hanswers & Hm).
  exists s1, s2, acts, (Replied 202 QueuedBody). split_and!; try done.
  pose proof Hstep as Hstep'. cbn [step] in Hstep'. rewrite Hfind, Hrec in Hstep'.
  destruct (processQueue _) as [s3 acts3] eqn:Hpq.
  lazymatch type of Hpq with
  | processQueue ?s0 = _ => pose proof (processQueue_fields s0) as (_ & Hq & _)
  end.
  rewrite Hpq in Hq. simplify_eq. cbn [fst] in Hq. rewrite Hq. simpl.
  rewrite length_app. simpl. lia.
Qed.

(** The theorem applied to a gateway that has just started. *)
Lemma queued_resend_stays_stored_witness :
  exists s1 s2 acts,
    step initial (Request 1 (Some "SOS|ID=A") 100) = Some (s1, [Post "SOS|ID=A"]) /\
    step s1 (PostSettled 0 (Rejected "connect ECONNREFUSED")) = Some (s2, acts) /\
    answers acts = [(1%nat, Replied 202 QueuedBody)] /\
    length (retryQueue s2) = 1%nat.
Proof.
  destruct (queued_resend_stays_stored [] initial [] 1
              {| stored_id := 99; stored_payload := "SOS|ID=A" |} "S" "OS|ID=A" 100
              "connect ECONNREFUSED" {| ack := None; smsQueue := [] |} eq_refl eq_refl)
    as (s1 & s2 & acts & reply & Hstep1 & Hstep2 & Hanswers & _ & _ & Hlen).
  exists s1, s2, acts. split_and!; [exact Hstep1|exact Hstep2| |exact Hlen].
  vm_compute in Hstep1. injection Hstep1 as <-.
  vm_compute in Hstep2. injection Hstep2 as _ <-. reflexivity.
Defined.

End ChainFacts.

(* ================================================================== *)
(** * The compass screen and the peer compass *)
(* ================================================================== *)

Module CompassFacts.
Import Js JsMore CompassScreen JsFacts.

Lemma includes_km_m (s : string) :
  includes_text "km" s = true -> includes_text "m" s = true.
Proof.
  induction s as [|a s IH]; [done|].
  cbn [includes_text]. intros H. apply orb_true_iff in H as [H|H].
  - apply orb_true_iff. right.
    cbn [starts_with] in H. apply andb_true_iff in H as [_ H].
    destruct s as [|b s]; [done|]. cbn [includes_text]. apply orb_true_iff. left.
    cbn [starts_with] in *. apply andb_true_iff in H as [H _].
    apply andb_true_iff. split; [|done].
    unfold char_eqb in *. by rewrite Ascii.eqb_sym.
  - apply orb_true_iff. right. by apply IH.
Qed.

(** X16.  An estimate that contains [km] contains [m], so it takes the
    branch of the metres: the first [m] is taken out, what is left is
    parsed, and the result is divided by 1000.  The branch of the
    kilometres is never taken; [1.5km] is read as 0.0015. *)
Theorem kilometres_read_as_metres (distance : Number) (s : string) :
  includes_text "km" s = true ->
  parseDistanceEstimate distance (Some s)
  = div (parseFloat_string (replace "m" "" s)) (of_Z 1000).
Proof.
  intros Hkm. pose proof (includes_km_m s Hkm) as Hm.
  destruct s as [|a s]; [done|].
  unfold parseDistanceEstimate. by rewrite Hm.
Qed.

(** The theorem applied to the estimate [1.5km]. *)
Lemma kilometres_read_as_metres_witness :
  parseDistanceEstimate pos_zero (Some "1.5km") = decimal 15 4.
Proof.
  rewrite (kilometres_read_as_metres pos_zero "1.5km") by reflexivity.
  vm_compute. reflexivity.
Defined.

(** Two positive Numbers neither of which is below the other are the
    same. *)
Lemma neither_below (m : positive) (e : Z) (m' : positive) (e' : Z) :
  lt (S754_finite false m e) (S754_finite false m' e') = false ->
  lt (S754_finite false m' e') (S754_finite false m e) = false ->
  S754_finite false m e = S754_finite false m' e'.
Proof.
  unfold lt, SFltb, SFcompare.
  destruct (Z.compare_spec e e') as [->|He|He].
  - rewrite Z.compare_refl.
    change (Pos.compare_cont Eq m m') with (Pos.compare m m').
    change (Pos.compare_cont Eq m' m) with (Pos.compare m' m).
    destruct (Pos.compare_spec m m') as [->|Hm|Hm]; [done|discriminate|].
    destruct (Pos.compare_spec m' m) as [Hm'|Hm'|Hm']; intros _ H; [lia|discriminate H|lia].
  - discriminate.
  - destruct (Z.compare_spec e' e) as [He'|He'|He']; intros _ H; [lia|discriminate H|lia].
Qed.

(** X17.  Whatever number is typed that is not NaN, the manual bearing is
    kept from 0 to 360 and the manual distance from 0 on; a number that
    is within these bounds already (and is not [-0]) is kept as it is. *)
Theorem manual_entry_is_clamped (value : Number) :
  is_nan value = false ->
  le pos_zero (manual_bearing value) = true /\
  le (manual_bearing value) (of_Z 360) = true /\
  le pos_zero (manual_distance value) = true /\
  (le pos_zero value = true -> le value (of_Z 360) = true ->
   value <> S754_zero true ->
   manual_bearing value = value /\ manual_distance value = value).
Proof.
  intros Hnan.
  unfold manual_bearing, manual_distance, Math_min, Math_max.
  change (of_Z 360) with (S754_finite false 6333186975989760 (-44)).
  change (of_Z 0) with pos_zero.
  destruct value as [[]|[]| |[] m e]; try discriminate;
    try (split_and!; [reflexivity..|intros; split_and!; done]).
  (* what is left is a positive number *)
  - change (is_nan pos_zero) with false.
    change (is_nan (S754_finite false m e)) with false.
    change (is_nan (S754_finite false 6333186975989760 (-44))) with false.
    change (lt pos_zero (S754_finite false m e)) with true.
    cbn [orb]. cbv iota.
    destruct (lt (S754_finite false 6333186975989760 (-44)) (S754_finite false m e)) eqn:Hgt.
    { split_and!; try reflexivity.
      intros _ Hle. apply lt_not_le in Hgt. congruence. }
    destruct (lt (S754_finite false m e) (S754_finite false 6333186975989760 (-44))) eqn:Hlt.
    { split_and!; try reflexivity; try done. by apply lt_le. }
    pose proof (neither_below m e 6333186975989760 (-44) Hlt Hgt) as Heq.
    split_and!; try reflexivity. intros _ _ _. by split.
Qed.

(** The theorem applied to a bearing of 180.5 degrees. *)
Lemma manual_entry_is_clamped_witness :
  manual_bearing (of_Z 400) = of_Z 360 /\ manual_bearing (decimal 1805 1) = decimal 1805 1.
Proof.
  destruct (manual_entry_is_clamped (decimal 1805 1) eq_refl) as (_ & _ & _ & Hid).
  destruct Hid as [Hb _]; [reflexivity|reflexivity|discriminate|].
  split; [reflexivity|exact Hb].
Defined.

End CompassFacts.

Module SimulationFacts.
Import Js JsMore PeerCompass.

Lemma simulated_tick_table :
  forallb (fun k => bool_decide (simulated_tick (half_degrees k) = half_degrees ((k + 1) mod 720)))
          (map Z.of_nat (seq 0 720)) = true.
Proof. vm_compute. reflexivity. Qed.

(** X18.  The simulated heading, which starts at 0, stands at
    [(n mod 720) / 2] degrees after [n] turns of its interval: it
    advances by half a degree a turn, exactly, stays from 0 up to, but not
    including, 360, and is back at 0 every 720 turns. *)
Theorem simulated_heading_cycles (n : nat) :
  Nat.iter n simulated_tick (of_Z 0) = div (of_Z (Z.of_nat n mod 720)) (of_Z 2).
Proof.
  induction n as [|n IH]; [reflexivity|].
  rewrite Nat.iter_succ, IH.
  pose proof simulated_tick_table as Ht. rewrite forallb_forall in Ht.
  pose proof (Z.mod_pos_bound (Z.of_nat n) 720 ltac:(lia)) as Hk.
  specialize (Ht (Z.of_nat n mod 720)).
  apply bool_decide_eq_true in Ht.
  - unfold half_degrees in Ht. rewrite Ht. do 2 f_equal.
    rewrite Nat2Z.inj_succ, <- Z.add_1_r. by rewrite Zplus_mod_idemp_l.
  - apply in_map_iff. exists (Z.to_nat (Z.of_nat n mod 720)). split; [lia|].
    apply in_seq. lia.
Qed.

End SimulationFacts.
